(** * Planetes: the physics and orbital-mechanics core

    A shallow embedding of [spacecraft.js] (gravity accumulator, integrator,
    the queries of the HUD) and [orbits.js] (Kepler solver, position
    evaluator, orbit path), with the properties the specification states
    about them; and, around that core, of the table of [planets.js], of the
    coordinate changes and the body update of [bodies.js], and of the frame
    of the game loop in [main.js], with properties read off the code.

    Number model.  A JavaScript number is embedded as a real number ([R]):
    rounding and overflow are not part of the model.  A division whose
    divisor is zero leaves the finite numbers (JavaScript yields [Infinity]
    or [NaN]); the embedding makes that visible: [x ÷ y] returns [None]
    there, and a run that meets it returns [None] as a whole.  [Math.sqrt],
    [Math.sin], [Math.cos], [Math.abs] and [Math.PI] are the functions and
    the constant of the Reals library.

    A division by a non-zero literal constant is written with [/].

    [Math.PI] is not π but the binary64 number nearest to it, a little below.
    Two properties turn on that difference, the period of [solveKepler] and
    the closure of the path of [computeOrbitPath]; for them the two functions
    are embedded a second time, in the module [MathPI], with the constant
    the program has and everything else as before.

    State model.  [spacecraft.js] works on two mutable objects, the
    spacecraft and the array of bodies; both live in a [World], and the
    exported functions are computations in a state-and-failure monad [M]
    over it.  [orbits.js] is pure and is embedded as functions to [option].
    [updateBodies] updates the array of body objects by index, and
    [animate] takes the variables of [main.js] from one frame to the next.

    Libraries outside the repository.  Of three.js the embedding uses an
    interface ([Three]); [Array.prototype.sort] is a stable insertion sort;
    [new Date()] is a parameter. *)

From Stdlib Require Import Reals Lra Psatz ZArith Sorted.
From stdpp Require Import gmap strings.

Open Scope R_scope.

(** ** Numbers and the JavaScript built-ins the core uses *)

(** [x / y] of the source; [None] stands for a non-finite result. *)
Definition divide (x y : R) : option R :=
  if Req_dec_T y 0 then None else Some (x / y).

Infix "÷" := divide (at level 40, left associativity) : R_scope.

#[export] Instance R_eq_dec : EqDecision R := Req_dec_T.
#[export] Instance Rlt_decision (x y : R) : Decision (x < y) := Rlt_dec x y.

(** Rounding toward zero. *)
Definition truncate (r : R) : Z :=
  if Rle_dec 0 r then Int_part r else (- Int_part (- r))%Z.

(** [a % b] for a non-zero [b]: the remainder has the sign of [a]. *)
Definition remainder (a b : R) : R := a - b * IZR (truncate (a / b)).

(** [M % p], plus [p] when that is negative: for a positive [p], the
    number in [[0, p)] that differs from [M] by a whole multiple of [p]. *)
Definition wrap (M p : R) : R :=
  if Rlt_dec (remainder M p) 0 then remainder M p + p else remainder M p.

(** [for (const b of l) { ... }] (and counting loops, over the list of the
    values of the counter) with the loop-carried variables [s]. *)
Fixpoint forOf {A S : Type} (l : list A) (step : A -> S -> option S) (s : S)
  : option S :=
  match l with
  | [] => Some s
  | b :: l' => s' ← step b s; forOf l' step s'
  end.

(** [Array.prototype.sort(compare)].  The language specification asks for a
    stable sort that places [a] before [b] when [compare(a, b) < 0] and after
    it when [compare(a, b) > 0]; it is realised here by insertion: each
    element in turn is put behind the elements placed so far that need not
    come after it. *)
Fixpoint sort_insert {A : Type} (compare : A -> A -> R) (a : A) (placed : list A)
  : list A :=
  match placed with
  | [] => [a]
  | b :: rest =>
      if Rlt_dec 0 (compare b a) then a :: b :: rest
      else b :: sort_insert compare a rest
  end.

Definition Array_sort {A : Type} (compare : A -> A -> R) (l : list A) : list A :=
  fold_left (fun placed a => sort_insert compare a placed) l [].

(** ** Vectors *)

(** [{ x, y, z }] objects and [THREE.Vector3]. *)
Record Vec3 : Type := mkVec3 { x : R; y : R; z : R }.

(** Euclidean length of a vector. *)
Definition norm (v : Vec3) : R :=
  sqrt (x v * x v + y v * y v + z v * z v).

(** The vector from [p] to [q]. *)
Definition displacement (p q : Vec3) : Vec3 :=
  mkVec3 (x q - x p) (y q - y p) (z q - z p).

(** Sum of two vectors, and a vector scaled by a number. *)
Definition vadd (p q : Vec3) : Vec3 :=
  mkVec3 (x p + x q) (y p + y q) (z p + z q).
Definition vscale (k : R) (v : Vec3) : Vec3 :=
  mkVec3 (x v * k) (y v * k) (z v * k).

(** A unit vector along one of the three axes. *)
Definition axisAlignedUnit (v : Vec3) : Prop :=
  v = mkVec3 1 0 0 \/ v = mkVec3 (-1) 0 0 \/
  v = mkVec3 0 1 0 \/ v = mkVec3 0 (-1) 0 \/
  v = mkVec3 0 0 1 \/ v = mkVec3 0 0 (-1).

(** [v.x += d] and its siblings, as functions of the vector. *)
Definition add_x (d : R) (v : Vec3) : Vec3 := mkVec3 (x v + d) (y v) (z v).
Definition add_y (d : R) (v : Vec3) : Vec3 := mkVec3 (x v) (y v + d) (z v).
Definition add_z (d : R) (v : Vec3) : Vec3 := mkVec3 (x v) (y v) (z v + d).

(** ** planets.js and scene.js: the constants the core imports *)

Definition AU_KM : R := 1.496e8.
Definition SCENE_SCALE : R := 50.

(** ** three.js: the operations of the library that [updateSpacecraft] calls

    The library is not part of the repository; its quaternion type and the
    four operations used are an interface. *)
Class Three : Type := {
  Quaternion : Type;
  (** [Object3D.rotateX/Y/Z(angle)], as a function of the quaternion *)
  rotateX : R -> Quaternion -> Quaternion;
  rotateY : R -> Quaternion -> Quaternion;
  rotateZ : R -> Quaternion -> Quaternion;
  (** [Vector3.applyQuaternion(q)] *)
  applyQuaternion : Vec3 -> Quaternion -> Vec3
}.

(** A stand-in for the library with a single attitude: no rotation turns the
    craft, and its forward direction stays [(0, 0, -1)].  It serves to run
    the embedding on concrete inputs. *)
Definition Three_fixed : Three := {|
  Quaternion := unit;
  rotateX := fun _ q => q;
  rotateY := fun _ q => q;
  rotateZ := fun _ q => q;
  applyQuaternion := fun v _ => v
|}.

(** ** bodies.js *)

Module Bodies.

Definition SUN_DISPLAY_RADIUS : R := 8.0.
Definition SUN_RADIUS_KM : R := 696340.
Definition MIN_PLANET_RADIUS : R := 0.3.

(** [displayRadius]; [Math.max] is [Rmax]. *)
Definition displayRadius (radiusKm : R) : R :=
  let ratio := radiusKm / SUN_RADIUS_KM in
  Rmax MIN_PLANET_RADIUS (SUN_DISPLAY_RADIUS * sqrt ratio).

Definition sunDisplayRadius : R := SUN_DISPLAY_RADIUS.

(** [auToScene]: AU position to scene coordinates. *)
Definition auToScene (pos : Vec3) : Vec3 :=
  mkVec3 (x pos * SCENE_SCALE) (z pos * SCENE_SCALE) (- y pos * SCENE_SCALE).

(** [sceneToAU]: scene coordinates back to AU. *)
Definition sceneToAU (vec3 : Vec3) : Vec3 :=
  mkVec3 (x vec3 / SCENE_SCALE) (- z vec3 / SCENE_SCALE) (y vec3 / SCENE_SCALE).

(** The record of [planets.js] behind [body.data]: the fields the core reads. *)
Record BodyData : Type := mkBodyData {
  name : string;
  GM_AU3_day2 : R
}.

(** A body object of [createBodies] (its display objects are left out). *)
Record Body : Type := mkBody {
  data : BodyData;
  positionAU : Vec3
}.

End Bodies.

(** ** spacecraft.js *)

Module Spacecraft.
Import Bodies (Body, BodyData, data, name, GM_AU3_day2, auToScene).

Definition AU_TO_KM : R := AU_KM.
Definition DAY_TO_S : R := 86400.
Definition KM_S_TO_AU_DAY : R := DAY_TO_S / AU_TO_KM.

Definition THRUST_ACCEL : R := 0.0005.
Definition ROTATION_SPEED : R := 2.0.

(** [{ ax, ay, az }], in AU/day². *)
Record Accel : Type := mkAccel { ax : R; ay : R; az : R }.

(** An entry of the list [getPerBodyGravity] returns; [entryName] is its
    field [name]. *)
Record GravityEntry : Type := mkGravityEntry {
  entryName : string;
  distanceAU : R;
  distanceKm : R;
  gravityMs2 : R
}.

(** The object [findNearestBody] returns, with its fields [name],
    [distanceAU] and [distanceKm]; a distance of [None] is [Infinity]. *)
Record NearestBody : Type := mkNearestBody {
  nearestName : string;
  nearestDistanceAU : option R;
  nearestDistanceKm : option R
}.

(** Truthiness of [keys[code]]: a key never seen is [undefined]. *)
Definition truthy (v : option bool) : bool :=
  match v with Some true => true | _ => false end.

(** [a || b] of JavaScript on such values. *)
Definition js_or (a b : option bool) : option bool :=
  if truthy a then a else b.

Section WithThree.
Context {three : Three}.

(** A [THREE.Group]: the two fields the core touches. *)
Record Mesh : Type := mkMesh {
  quaternion : Quaternion;
  position : Vec3
}.

(** The object [createSpacecraft] returns; [engineOpacity] is
    [engineMesh.material.opacity]. *)
Record Spacecraft : Type := mkSpacecraft {
  mesh : Mesh;
  engineOpacity : R;
  positionAU : Vec3;
  velocityAU : Vec3;
  mass : R;
  thrustAccel : R;
  rotationSpeed : R;
  thrusting : option bool;
  keys : gmap string bool
}.

(** The mutable objects the functions of [spacecraft.js] are handed. *)
Record World : Type := mkWorld {
  spacecraft : Spacecraft;
  bodies : list Body
}.

(** *** The monad: state [World], failure on a non-finite number *)

Definition M (A : Type) : Type := World -> option (A * World).

#[export] Instance M_ret : MRet M := fun A a w => Some (a, w).
#[export] Instance M_bind : MBind M := fun A B f m w =>
  match m w with
  | Some (a, w') => f a w'
  | None => None
  end.

(** Read from the world. *)
Definition gets {A : Type} (f : World -> A) : M A := fun w => Some (f w, w).
(** Write to the spacecraft object. *)
Definition setSpacecraft (f : Spacecraft -> Spacecraft) : M unit :=
  fun w => Some (tt, mkWorld (f (spacecraft w)) (bodies w)).
(** A value that may be non-finite. *)
Definition number {A : Type} (o : option A) : M A :=
  fun w => match o with Some a => Some (a, w) | None => None end.
(** [if (c) statement;] *)
Definition when (c : bool) (statement : M unit) : M unit :=
  if c then statement else mret tt.

(** Assignments to the fields of the spacecraft. *)
Definition set_quaternion (f : Quaternion -> Quaternion) (s : Spacecraft) : Spacecraft :=
  mkSpacecraft (mkMesh (f (quaternion (mesh s))) (position (mesh s)))
    (engineOpacity s) (positionAU s) (velocityAU s) (mass s) (thrustAccel s)
    (rotationSpeed s) (thrusting s) (keys s).
Definition set_position (p : Vec3) (s : Spacecraft) : Spacecraft :=
  mkSpacecraft (mkMesh (quaternion (mesh s)) p)
    (engineOpacity s) (positionAU s) (velocityAU s) (mass s) (thrustAccel s)
    (rotationSpeed s) (thrusting s) (keys s).
Definition set_engineOpacity (o : R) (s : Spacecraft) : Spacecraft :=
  mkSpacecraft (mesh s) o (positionAU s) (velocityAU s) (mass s) (thrustAccel s)
    (rotationSpeed s) (thrusting s) (keys s).
Definition set_positionAU (f : Vec3 -> Vec3) (s : Spacecraft) : Spacecraft :=
  mkSpacecraft (mesh s) (engineOpacity s) (f (positionAU s)) (velocityAU s) (mass s)
    (thrustAccel s) (rotationSpeed s) (thrusting s) (keys s).
Definition set_velocityAU (f : Vec3 -> Vec3) (s : Spacecraft) : Spacecraft :=
  mkSpacecraft (mesh s) (engineOpacity s) (positionAU s) (f (velocityAU s)) (mass s)
    (thrustAccel s) (rotationSpeed s) (thrusting s) (keys s).
Definition set_thrusting (t : option bool) (s : Spacecraft) : Spacecraft :=
  mkSpacecraft (mesh s) (engineOpacity s) (positionAU s) (velocityAU s) (mass s)
    (thrustAccel s) (rotationSpeed s) t (keys s).

(** *** computeGravity *)

(** One turn of the loop of [computeGravity]; [acc] holds [ax], [ay], [az]. *)
Definition computeGravity_step (pos : Vec3) (body : Body) (acc : Accel)
  : option Accel :=
  let gm := GM_AU3_day2 (data body) in
  let dx := x (Bodies.positionAU body) - x pos in
  let dy := y (Bodies.positionAU body) - y pos in
  let dz := z (Bodies.positionAU body) - z pos in
  let r2 := dx * dx + dy * dy + dz * dz in
  let r := sqrt r2 in
  if Rlt_dec r 1e-10 then Some acc (* continue *)
  else
    aMag ← gm ÷ r2;
    ux ← dx ÷ r;
    uy ← dy ÷ r;
    uz ← dz ÷ r;
    Some (mkAccel (ax acc + aMag * ux) (ay acc + aMag * uy) (az acc + aMag * uz)).

Definition computeGravity : M Accel :=
  pos ← gets (fun w => positionAU (spacecraft w));
  bodies ← gets bodies;
  number (forOf bodies (computeGravity_step pos) (mkAccel 0 0 0)).

(** *** updateSpacecraft *)

(** The block [--- Rotation ---]. *)
Definition updateSpacecraft_rotation (dtReal : R) : M unit :=
  keys ← gets (fun w => keys (spacecraft w));
  rotationSpeed ← gets (fun w => rotationSpeed (spacecraft w));
  let rotAmount := rotationSpeed * dtReal in
  when (truthy (keys !! "KeyA")) (setSpacecraft (set_quaternion (rotateY rotAmount)));;
  when (truthy (keys !! "KeyD")) (setSpacecraft (set_quaternion (rotateY (- rotAmount))));;
  when (truthy (keys !! "Space")) (setSpacecraft (set_quaternion (rotateX rotAmount)));;
  when (truthy (keys !! "ShiftLeft") || truthy (keys !! "ShiftRight"))
    (setSpacecraft (set_quaternion (rotateX (- rotAmount))));;
  when (truthy (keys !! "KeyQ")) (setSpacecraft (set_quaternion (rotateZ rotAmount)));;
  when (truthy (keys !! "KeyE")) (setSpacecraft (set_quaternion (rotateZ (- rotAmount)))).

(** The block [--- Thrust ---], with the engine glow. *)
Definition updateSpacecraft_thrust (dtSim : R) : M unit :=
  keys ← gets (fun w => keys (spacecraft w));
  let thrustForward := keys !! "KeyW" in
  let thrustBackward := keys !! "KeyS" in
  setSpacecraft (set_thrusting (js_or thrustForward thrustBackward));;
  thrusting ← gets (fun w => thrusting (spacecraft w));
  setSpacecraft (set_engineOpacity (if truthy thrusting then 0.8 else 0));;
  when (truthy (js_or thrustForward thrustBackward)) (
    q ← gets (fun w => quaternion (mesh (spacecraft w)));
    let forward := applyQuaternion (mkVec3 0 0 (-1)) q in
    let sign := if truthy thrustForward then 1 else -1 in
    thrustAccel ← gets (fun w => thrustAccel (spacecraft w));
    let thrustAU := thrustAccel * dtSim * sign in
    setSpacecraft (set_velocityAU (add_x (x forward * thrustAU)));;
    setSpacecraft (set_velocityAU (add_y ((- z forward) * thrustAU)));;
    setSpacecraft (set_velocityAU (add_z (y forward * thrustAU)))).

Definition updateSpacecraft (dtSim dtReal : R) : M unit :=
  updateSpacecraft_rotation dtReal;;
  updateSpacecraft_thrust dtSim;;
  (* --- Gravity --- *)
  grav ← computeGravity;
  setSpacecraft (set_velocityAU (add_x (ax grav * dtSim)));;
  setSpacecraft (set_velocityAU (add_y (ay grav * dtSim)));;
  setSpacecraft (set_velocityAU (add_z (az grav * dtSim)));;
  (* --- Position integration --- *)
  vx ← gets (fun w => x (velocityAU (spacecraft w)));
  setSpacecraft (set_positionAU (add_x (vx * dtSim)));;
  vy ← gets (fun w => y (velocityAU (spacecraft w)));
  setSpacecraft (set_positionAU (add_y (vy * dtSim)));;
  vz ← gets (fun w => z (velocityAU (spacecraft w)));
  setSpacecraft (set_positionAU (add_z (vz * dtSim)));;
  (* update mesh position *)
  scenePos ← gets (fun w => auToScene (positionAU (spacecraft w)));
  setSpacecraft (set_position scenePos).

(** *** getSpeedKmS *)

Definition getSpeedKmS : M R :=
  v ← gets (fun w => velocityAU (spacecraft w));
  let speedAU := sqrt (x v * x v + y v * y v + z v * z v) in
  mret (speedAU * AU_TO_KM / DAY_TO_S).

(** *** getPerBodyGravity *)

(** One turn of the loop of [getPerBodyGravity]; [results] is the array
    built so far. *)
Definition getPerBodyGravity_step (AU_TO_M : R) (pos : Vec3) (body : Body)
    (results : list GravityEntry) : option (list GravityEntry) :=
  let gm := GM_AU3_day2 (data body) in
  let dx := x (Bodies.positionAU body) - x pos in
  let dy := y (Bodies.positionAU body) - y pos in
  let dz := z (Bodies.positionAU body) - z pos in
  let r2 := dx * dx + dy * dy + dz * dz in
  let r := sqrt r2 in
  if Rlt_dec r 1e-10 then Some results (* continue *)
  else
    accelAU ← gm ÷ r2;
    let accelMs2 := accelAU * AU_TO_M / (DAY_TO_S * DAY_TO_S) in
    Some (results ++ [mkGravityEntry (name (data body)) r (r * AU_TO_KM) accelMs2]).

Definition getPerBodyGravity : M (list GravityEntry) :=
  let AU_TO_M := AU_TO_KM * 1000 in
  pos ← gets (fun w => positionAU (spacecraft w));
  bodies ← gets bodies;
  results ← number (forOf bodies (getPerBodyGravity_step AU_TO_M pos) []);
  mret (Array_sort (fun a b => gravityMs2 b - gravityMs2 a) results).

(** *** getGravityMagnitude *)

Definition getGravityMagnitude : M R :=
  g ← computeGravity;
  let magAU := sqrt (ax g * ax g + ay g * ay g + az g * az g) in
  mret (magAU * AU_TO_KM * 1000 / (DAY_TO_S * DAY_TO_S)).

(** *** findNearestBody *)

(** [dist < minDist], where [minDist] starts as [Infinity] ([None]). *)
Definition lessThan (dist : R) (minDist : option R) : bool :=
  match minDist with
  | Some minDist => bool_decide (dist < minDist)
  | None => true
  end.

(** One turn of the loop of [findNearestBody]; the state is [nearest]
    ([None] for [null]) and [minDist]. *)
Definition findNearestBody_step (pos : Vec3) (body : Body)
    (s : option Body * option R) : option (option Body * option R) :=
  let dx := x (Bodies.positionAU body) - x pos in
  let dy := y (Bodies.positionAU body) - y pos in
  let dz := z (Bodies.positionAU body) - z pos in
  let dist := sqrt (dx * dx + dy * dy + dz * dz) in
  if lessThan dist (snd s) then Some (Some body, Some dist) else Some s.

(** [nearest?.data.name || '—']: the dash stands in for a missing body and
    for an empty name alike. *)
Definition nameOrDash (nearest : option Body) : string :=
  match nearest with
  | Some body => if decide (name (data body) = EmptyString) then "—" else name (data body)
  | None => "—"
  end.

Definition findNearestBody : M NearestBody :=
  pos ← gets (fun w => positionAU (spacecraft w));
  bodies ← gets bodies;
  s ← number (forOf bodies (findNearestBody_step pos) (None, None));
  let nearest := fst s in
  let minDist := snd s in
  mret (mkNearestBody (nameOrDash nearest) minDist
          ((fun minDist => minDist * AU_TO_KM) <$> minDist)).

(** *** createSpacecraft

    [group] is the attitude of the fresh [THREE.Group]. *)
Definition createSpacecraft (group : Quaternion) : Spacecraft :=
  let startAU := mkVec3 1.05 0 0.01 in
  let startScene := auToScene startAU in
  let initialSpeedAU := 0.01720 in
  mkSpacecraft (mkMesh group startScene) 0 startAU (mkVec3 0 initialSpeedAU 0)
    1000 THRUST_ACCEL ROTATION_SPEED (Some false) ∅.

(** *** Notions the properties are stated with *)

(** The acceleration one body gives the craft at [pos]: none within
    [1e-10] AU, and [GM / r²] along the unit vector to the body beyond. *)
Definition pull (pos : Vec3) (body : Body) : Vec3 :=
  let d := displacement pos (Bodies.positionAU body) in
  if Rlt_dec (norm d) 1e-10 then mkVec3 0 0 0
  else vscale (GM_AU3_day2 (data body) / (norm d * norm d) / norm d) d.

(** The sum of a list of vectors. *)
Definition vsum (l : list Vec3) : Vec3 := foldr vadd (mkVec3 0 0 0) l.

(** The mesh shows the craft where it is. *)
Definition sceneSynced (s : Spacecraft) : Prop :=
  position (mesh s) = auToScene (positionAU s).

(** No key is down. *)
Definition noKeyDown (keys : gmap string bool) : Prop :=
  forall code : string, truthy (keys !! code) = false.

(** Euclidean distance from [pos] to a body. *)
Definition distanceTo (pos : Vec3) (body : Body) : R :=
  norm (displacement pos (Bodies.positionAU body)).

(** [body] is the first of the bodies nearest to [pos]: the bodies before
    it are farther away, the bodies behind it are not nearer. *)
Definition firstNearest (pos : Vec3) (bodies : list Body) (body : Body) : Prop :=
  exists before after : list Body,
    bodies = before ++ body :: after /\
    Forall (fun b => distanceTo pos body < distanceTo pos b) before /\
    Forall (fun b => distanceTo pos body <= distanceTo pos b) after.

(** What is to be reported for a body seen from [pos]: its name, its
    distance in AU and in km, and the magnitude [GM / r²] of its pull
    converted from AU/day² to m/s². *)
Definition reportOf (pos : Vec3) (body : Body) : GravityEntry :=
  let r := distanceTo pos body in
  mkGravityEntry (name (data body)) r (r * AU_KM)
    (GM_AU3_day2 (data body) / (r * r) * (AU_KM * 1000) / (86400 * 86400)).

(** The attitude of the craft once the rotation keys of this frame have
    acted on the attitude [q]. *)
Definition steered (keys : gmap string bool) (rotAmount : R) (q : Quaternion)
  : Quaternion :=
  let q := if truthy (keys !! "KeyA") then rotateY rotAmount q else q in
  let q := if truthy (keys !! "KeyD") then rotateY (- rotAmount) q else q in
  let q := if truthy (keys !! "Space") then rotateX rotAmount q else q in
  let q := if truthy (keys !! "ShiftLeft") || truthy (keys !! "ShiftRight")
           then rotateX (- rotAmount) q else q in
  let q := if truthy (keys !! "KeyQ") then rotateZ rotAmount q else q in
  let q := if truthy (keys !! "KeyE") then rotateZ (- rotAmount) q else q in
  q.

(** The forward direction of the craft, in scene coordinates, when
    [updateSpacecraft] applies the thrust of this frame. *)
Definition forwardDirection (s : Spacecraft) (dtReal : R) : Vec3 :=
  applyQuaternion (mkVec3 0 0 (-1))
    (steered (keys s) (rotationSpeed s * dtReal) (quaternion (mesh s))).

(** The thrust acceleration of this frame in the AU frame: magnitude
    [thrustAccel] along the forward direction (against it for backward
    thrust), zero when no thrust key is down. *)
Definition thrustAcceleration (s : Spacecraft) (dtReal : R) : Vec3 :=
  if truthy (js_or (keys s !! "KeyW") (keys s !! "KeyS")) then
    let forward := forwardDirection s dtReal in
    let sign := if truthy (keys s !! "KeyW") then 1 else -1 in
    vscale (thrustAccel s * sign) (mkVec3 (x forward) (- z forward) (y forward))
  else mkVec3 0 0 0.

(** An acceleration as a vector. *)
Definition accelVector (g : Accel) : Vec3 := mkVec3 (ax g) (ay g) (az g).

End WithThree.
End Spacecraft.

(** ** orbits.js *)

Module Orbits.

Definition DEG2RAD : R := PI / 180.

(** A valid [Date] is its time value: milliseconds since the Unix epoch. *)
Definition Date : Type := Z.
Definition getTime (date : Date) : R := IZR date.

(** Keplerian elements and their rates per Julian century ([planets.js]). *)
Record OrbitalElements : Type := mkOrbitalElements {
  a : R; aRate : R;
  e : R; eRate : R;
  I : R; IRate : R;
  L : R; LRate : R;
  wBar : R; wBarRate : R;
  Omega : R; OmegaRate : R
}.

Definition julianDate (date : Date) : R :=
  getTime date / 86400000 + 2440587.5.

Definition centuriesSinceJ2000 (jd : R) : R :=
  (jd - 2451545.0) / 36525.0.

(** The Newton-Raphson loop of [solveKepler], [n] turns left. *)
Fixpoint solveKepler_loop (n : nat) (M e tolerance E : R) : option R :=
  match n with
  | O => Some E
  | S n' =>
      dE ← (E - e * sin E - M) ÷ (1 - e * cos E);
      let E := E - dE in
      if Rlt_dec (Rabs dE) tolerance then Some E (* break *)
      else solveKepler_loop n' M e tolerance E
  end.

(** [solveKepler(M, e, tolerance = 1e-8)]; a missing argument is [None]. *)
Definition solveKepler (M e : R) (tolerance : option R) : option R :=
  let tolerance := default 1e-8 tolerance in
  let M := remainder M (2 * PI) in
  let M := if Rlt_dec M 0 then M + 2 * PI else M in
  let E := M + e * sin M in
  solveKepler_loop 50 M e tolerance E.

(** *** Notions the properties are stated with *)

(** The mean anomaly as [solveKepler] normalises it: [M % (2π)], plus [2π]
    when that is negative. *)
Definition normalized (M : R) : R :=
  if Rlt_dec (remainder M (2 * PI)) 0 then remainder M (2 * PI) + 2 * PI
  else remainder M (2 * PI).

(** The time argument of the elements at a date, and the semi-major axis,
    the eccentricity, the inclination (in radians) and the mean anomaly (in
    radians) that [computePosition] works with at that date. *)
Definition centuriesAt (date : Date) : R := centuriesSinceJ2000 (julianDate date).
Definition aAt (elements : OrbitalElements) (date : Date) : R :=
  a elements + aRate elements * centuriesAt date.
Definition eAt (elements : OrbitalElements) (date : Date) : R :=
  e elements + eRate elements * centuriesAt date.
Definition IAt (elements : OrbitalElements) (date : Date) : R :=
  (I elements + IRate elements * centuriesAt date) * DEG2RAD.
Definition MAt (elements : OrbitalElements) (date : Date) : R :=
  (L elements + LRate elements * centuriesAt date) * DEG2RAD
  - (wBar elements + wBarRate elements * centuriesAt date) * DEG2RAD.

Definition OmegaAt (elements : OrbitalElements) (date : Date) : R :=
  (Omega elements + OmegaRate elements * centuriesAt date) * DEG2RAD.
Definition omegaAt (elements : OrbitalElements) (date : Date) : R :=
  (wBar elements + wBarRate elements * centuriesAt date) * DEG2RAD
  - OmegaAt elements date.

(** The point of an orbit at the eccentric anomaly [E]: the point of the
    ellipse in its own plane, turned by the argument of perihelion [omega],
    tilted by the inclination [I] and turned by the node [Omega]. *)
Definition orbitPoint (a e I Omega omega E : R) : Vec3 :=
  let xPrime := a * (cos E - e) in
  let yPrime := a * sqrt (1 - e * e) * sin E in
  mkVec3
    ((cos Omega * cos omega - sin Omega * sin omega * cos I) * xPrime +
     (- cos Omega * sin omega - sin Omega * cos omega * cos I) * yPrime)
    ((sin Omega * cos omega + cos Omega * sin omega * cos I) * xPrime +
     (- sin Omega * sin omega + cos Omega * cos omega * cos I) * yPrime)
    ((sin omega * sin I) * xPrime + (cos omega * sin I) * yPrime).

(** Kepler's equation as the solver sees it: the residual [E - e sin E - M]
    whose zero it seeks, the slope of the residual in [E], and the step of
    Newton's method, [E - dE]. *)
Definition residual (e M E : R) : R := E - e * sin E - M.
Definition slope (e E : R) : R := 1 - e * cos E.
Definition newton (e M E : R) : R := E - residual e M E / slope e E.

Definition computePosition (elements : OrbitalElements) (date : Date)
  : option Vec3 :=
  let jd := julianDate date in
  let T := centuriesSinceJ2000 jd in
  let a := a elements + aRate elements * T in
  let e := e elements + eRate elements * T in
  let I := (I elements + IRate elements * T) * DEG2RAD in
  let L := (L elements + LRate elements * T) * DEG2RAD in
  let wBar := (wBar elements + wBarRate elements * T) * DEG2RAD in
  let Omega := (Omega elements + OmegaRate elements * T) * DEG2RAD in
  let omega := wBar - Omega in
  let M := L - wBar in
  E ← solveKepler M e None;
  let xPrime := a * (cos E - e) in
  let yPrime := a * sqrt (1 - e * e) * sin E in
  let cosOmega := cos Omega in
  let sinOmega := sin Omega in
  let cosI := cos I in
  let sinI := sin I in
  let cosW := cos omega in
  let sinW := sin omega in
  let x := (cosOmega * cosW - sinOmega * sinW * cosI) * xPrime +
           (- cosOmega * sinW - sinOmega * cosW * cosI) * yPrime in
  let y := (sinOmega * cosW + cosOmega * sinW * cosI) * xPrime +
           (- sinOmega * sinW + cosOmega * cosW * cosI) * yPrime in
  let z := (sinW * sinI) * xPrime + (cosW * sinI) * yPrime in
  Some (mkVec3 x y z).

(** One turn of the loop of [computeOrbitPath], for the counter [i]. *)
Definition computeOrbitPath_step (a e cosOmega sinOmega cosI sinI cosW sinW : R)
    (segments : nat) (i : nat) (points : list Vec3) : option (list Vec3) :=
  E ← (2 * PI * INR i) ÷ INR segments;
  let xPrime := a * (cos E - e) in
  let yPrime := a * sqrt (1 - e * e) * sin E in
  let x := (cosOmega * cosW - sinOmega * sinW * cosI) * xPrime +
           (- cosOmega * sinW - sinOmega * cosW * cosI) * yPrime in
  let y := (sinOmega * cosW + cosOmega * sinW * cosI) * xPrime +
           (- sinOmega * sinW + cosOmega * cosW * cosI) * yPrime in
  let z := (sinW * sinI) * xPrime + (cosW * sinI) * yPrime in
  Some (points ++ [mkVec3 x y z]).

(** [computeOrbitPath(elements, segments = 128)]; [now] is the [new Date()]
    of the call, a missing [segments] is [None]. *)
Definition computeOrbitPath (elements : OrbitalElements) (now : Date)
    (segments : option nat) : option (list Vec3) :=
  let segments := default 128%nat segments in
  let jd := julianDate now in
  let T := centuriesSinceJ2000 jd in
  let a := a elements + aRate elements * T in
  let e := e elements + eRate elements * T in
  let I := (I elements + IRate elements * T) * DEG2RAD in
  let wBar := (wBar elements + wBarRate elements * T) * DEG2RAD in
  let Omega := (Omega elements + OmegaRate elements * T) * DEG2RAD in
  let omega := wBar - Omega in
  let cosOmega := cos Omega in
  let sinOmega := sin Omega in
  let cosI := cos I in
  let sinI := sin I in
  let cosW := cos omega in
  let sinW := sin omega in
  forOf (seq 0 (S segments))
    (computeOrbitPath_step a e cosOmega sinOmega cosI sinI cosW sinW segments) [].

End Orbits.

(** ** orbits.js with [Math.PI] as the program has it

    The binary64 number nearest π is [884279719003555 / 2^48], that is
    3.141592653589793115997963...; it is what [Math.PI] evaluates to.
    [solveKepler] and [computeOrbitPath] are embedded here with that
    constant; the Newton loop, which does not mention it, is the one above. *)

Module MathPI.
Import Orbits.

Definition Math_PI : R := 884279719003555 / 281474976710656.

Definition DEG2RAD : R := Math_PI / 180.

(** [solveKepler(M, e, tolerance = 1e-8)]; a missing argument is [None]. *)
Definition solveKepler (M e : R) (tolerance : option R) : option R :=
  let tolerance := default 1e-8 tolerance in
  let M := remainder M (2 * Math_PI) in
  let M := if Rlt_dec M 0 then M + 2 * Math_PI else M in
  let E := M + e * sin M in
  solveKepler_loop 50 M e tolerance E.

(** One turn of the loop of [computeOrbitPath], for the counter [i]. *)
Definition computeOrbitPath_step (a e cosOmega sinOmega cosI sinI cosW sinW : R)
    (segments : nat) (i : nat) (points : list Vec3) : option (list Vec3) :=
  E ← (2 * Math_PI * INR i) ÷ INR segments;
  let xPrime := a * (cos E - e) in
  let yPrime := a * sqrt (1 - e * e) * sin E in
  let x := (cosOmega * cosW - sinOmega * sinW * cosI) * xPrime +
           (- cosOmega * sinW - sinOmega * cosW * cosI) * yPrime in
  let y := (sinOmega * cosW + cosOmega * sinW * cosI) * xPrime +
           (- sinOmega * sinW + cosOmega * cosW * cosI) * yPrime in
  let z := (sinW * sinI) * xPrime + (cosW * sinI) * yPrime in
  Some (points ++ [mkVec3 x y z]).

(** [computeOrbitPath(elements, segments = 128)]; [now] is the [new Date()]
    of the call, a missing [segments] is [None]. *)
Definition computeOrbitPath (elements : OrbitalElements) (now : Date)
    (segments : option nat) : option (list Vec3) :=
  let segments := default 128%nat segments in
  let jd := julianDate now in
  let T := centuriesSinceJ2000 jd in
  let a := a elements + aRate elements * T in
  let e := e elements + eRate elements * T in
  let I := (I elements + IRate elements * T) * DEG2RAD in
  let wBar := (wBar elements + wBarRate elements * T) * DEG2RAD in
  let Omega := (Omega elements + OmegaRate elements * T) * DEG2RAD in
  let omega := wBar - Omega in
  let cosOmega := cos Omega in
  let sinOmega := sin Omega in
  let cosI := cos I in
  let sinI := sin I in
  let cosW := cos omega in
  let sinW := sin omega in
  forOf (seq 0 (S segments))
    (computeOrbitPath_step a e cosOmega sinOmega cosI sinI cosW sinW segments) [].

(** *** Notions the properties are stated with *)

(** The mean anomaly as [solveKepler] normalises it. *)
Definition normalized (M : R) : R := wrap M (2 * Math_PI).

(** The angles of the elements at a date, in radians. *)
Definition IAt (elements : OrbitalElements) (date : Date) : R :=
  (I elements + IRate elements * centuriesAt date) * DEG2RAD.
Definition OmegaAt (elements : OrbitalElements) (date : Date) : R :=
  (Omega elements + OmegaRate elements * centuriesAt date) * DEG2RAD.
Definition omegaAt (elements : OrbitalElements) (date : Date) : R :=
  (wBar elements + wBarRate elements * centuriesAt date) * DEG2RAD
  - OmegaAt elements date.

End MathPI.

(** ** planets.js: the table of the planets *)

Module Planets.
Import Orbits.

Definition G_REAL : R := 6.674e-11.
Definition SOLAR_MASS : R := 1.989e30.
Definition GM_SUN_AU3_DAY2 : R := 2.9591e-4.

(** An entry of [PLANETS] (its colour is left out). *)
Record Planet : Type := mkPlanet {
  name : string;
  mass : R;
  radiusKm : R;
  elements : OrbitalElements
}.

Definition PLANETS : list Planet := [
  mkPlanet "Mercury" 3.301e23 2439.7
    (mkOrbitalElements 0.38709927 0.00000037 0.20563593 0.00001906
       7.00497902 (-0.00594749) 252.25032350 149472.67411175
       77.45779628 0.16047689 48.33076593 (-0.12534081));
  mkPlanet "Venus" 4.867e24 6051.8
    (mkOrbitalElements 0.72333566 0.00000390 0.00677672 (-0.00004107)
       3.39467605 (-0.00078890) 181.97909950 58517.81538729
       131.60246718 0.00268329 76.67984255 (-0.27769418));
  mkPlanet "Earth" 5.972e24 6371
    (mkOrbitalElements 1.00000261 0.00000562 0.01671123 (-0.00004392)
       (-0.00001531) (-0.01294668) 100.46457166 35999.37244981
       102.93768193 0.32327364 0.0 0.0);
  mkPlanet "Mars" 6.417e23 3389.5
    (mkOrbitalElements 1.52371034 0.00001847 0.09339410 0.00007882
       1.84969142 (-0.00813131) (-4.55343205) 19140.30268499
       (-23.94362959) 0.44441088 49.55953891 (-0.29257343));
  mkPlanet "Jupiter" 1.898e27 69911
    (mkOrbitalElements 5.20288700 (-0.00011607) 0.04838624 (-0.00013253)
       1.30439695 (-0.00183714) 34.39644051 3034.74612775
       14.72847983 0.21252668 100.47390909 0.20469106);
  mkPlanet "Saturn" 5.683e26 58232
    (mkOrbitalElements 9.53667594 (-0.00125060) 0.05386179 (-0.00050991)
       2.48599187 0.00193609 49.95424423 1222.49362201
       92.59887831 (-0.41897216) 113.66242448 (-0.28867794));
  mkPlanet "Uranus" 8.681e25 25362
    (mkOrbitalElements 19.18916464 (-0.00196176) 0.04725744 (-0.00004397)
       0.77263783 (-0.00242939) 313.23810451 428.48202785
       170.95427630 0.40805281 74.01692503 0.04240589);
  mkPlanet "Neptune" 1.024e26 24622
    (mkOrbitalElements 30.06992276 0.00026291 0.00859048 0.00005105
       1.77004347 0.00035372 (-55.12002969) 218.45945325
       44.96476227 (-0.32241464) 131.78422574 (-0.00508664));
  mkPlanet "Pluto" 1.303e22 1188.3
    (mkOrbitalElements 39.48211675 (-0.00031596) 0.24882730 0.00005170
       17.14001206 0.00004818 238.92903833 145.20780515
       224.06891629 (-0.04062942) 110.30393684 (-0.01183482))
].

(** [PLANETS.forEach(p => { p.GM_AU3_day2 = ... })]: the field the loop at
    the end of the file gives each planet. *)
Definition GM_AU3_day2 (p : Planet) : R :=
  GM_SUN_AU3_DAY2 * (mass p / SOLAR_MASS).

End Planets.

(** ** bodies.js: the body objects, [createBodies] and [updateBodies] *)

Module BodiesUpdate.
Import Orbits.
Import Bodies (Body, mkBody, BodyData, mkBodyData, data, auToScene, displayRadius).

(** A body object of [createBodies] with what [updateBodies] reads and
    writes: [core] holds [data.name], [data.GM_AU3_day2] and [positionAU];
    [elements] is [data.elements], which the Sun lacks; [meshPosition] is
    [mesh.position] and [labelPosition] is [label.position], which the Sun
    lacks too. *)
Record BodyObject : Type := mkBodyObject {
  core : Body;
  radiusKm : R;
  elements : option OrbitalElements;
  meshPosition : Vec3;
  labelPosition : option Vec3
}.

(** [createBodies]: the Sun, then one body per planet of the table, all at
    the origin.  The meshes and the labels are fresh objects, at the origin
    as well; the orbit lines are left out. *)
Definition createBodies : list BodyObject :=
  let sunBody :=
    mkBodyObject (mkBody (mkBodyData "Sun" Planets.GM_SUN_AU3_DAY2) (mkVec3 0 0 0))
      696340 None (mkVec3 0 0 0) None in
  sunBody ::
  map (fun planet =>
         mkBodyObject
           (mkBody (mkBodyData (Planets.name planet) (Planets.GM_AU3_day2 planet))
              (mkVec3 0 0 0))
           (Planets.radiusKm planet) (Some (Planets.elements planet))
           (mkVec3 0 0 0) (Some (mkVec3 0 0 0)))
    Planets.PLANETS.

(** One turn of the loop of [updateBodies], for the counter [i].  Reading
    the elements of a body that has none raises an exception: the run ends
    without a result. *)
Definition updateBodies_step (simDate : Date) (i : nat) (bodies : list BodyObject)
  : option (list BodyObject) :=
  body ← bodies !! i;
  elements ← elements body;
  pos ← computePosition elements simDate;
  let scenePos := auToScene pos in
  let label :=
    (fun _ => add_y (displayRadius (radiusKm body) + 1.5) scenePos)
      <$> labelPosition body in
  Some (<[i := mkBodyObject (mkBody (data (core body)) pos) (radiusKm body)
                 (Some elements) scenePos label]> bodies).

Definition updateBodies (bodies : list BodyObject) (simDate : Date)
  : option (list BodyObject) :=
  forOf (seq 1 (length bodies - 1)) (updateBodies_step simDate) bodies.

(** *** Notions the properties are stated with *)

(** A body as [updateBodies] leaves it, whatever its position was. *)
Definition placed (simDate : Date) (body : BodyObject) : option BodyObject :=
  elements ← elements body;
  pos ← computePosition elements simDate;
  Some (mkBodyObject (mkBody (data (core body)) pos) (radiusKm body) (Some elements)
          (auToScene pos)
          ((fun _ => add_y (displayRadius (radiusKm body) + 1.5) (auToScene pos))
             <$> labelPosition body)).

End BodiesUpdate.

(** ** main.js: the game loop *)

Module Main.
Import Orbits BodiesUpdate.

Definition TIME_WARP_VALUES : list R :=
  [1; 10; 100; 1000; 10000; 100000; 1e6; 1e7].

(** [new Date(value)]: the time value is clipped, that is, rounded toward
    zero, and the date is invalid beyond 8.64e15 ms from the epoch. *)
Definition newDate (value : R) : option Date :=
  if Rle_dec (Rabs value) 8.64e15 then Some (truncate value) else None.

Section WithThree.
Context {three : Three}.

(** The variables of the module that [animate] reads and writes. *)
Record Loop : Type := mkLoop {
  bodies : list BodyObject;
  spacecraft : Spacecraft.Spacecraft;
  timeWarpIndex : nat;
  simDate : Date;
  lastTime : R;
  hudTimer : R
}.

(** [animate(now)], one frame.  The camera, the HUD and the renderer only
    read the state above; of them the result records whether the HUD was
    refreshed in this frame.  An index outside [TIME_WARP_VALUES] gives
    [undefined], and no finite number after it. *)
Definition animate (now : R) (s : Loop) : option (bool * Loop) :=
  let dtReal := Rmin ((now - lastTime s) / 1000) 0.1 in
  let lastTime := now in
  timeWarp ← TIME_WARP_VALUES !! timeWarpIndex s;
  let dtSimDays := dtReal / 86400 * timeWarp in
  simDate ← newDate (getTime (simDate s) + dtReal * 1000 * timeWarp);
  bodies ← updateBodies (bodies s) simDate;
  r ← Spacecraft.updateSpacecraft dtSimDays dtReal
        (Spacecraft.mkWorld (spacecraft s) (core <$> bodies));
  let spacecraft := Spacecraft.spacecraft (snd r) in
  let hudTimer := hudTimer s + dtReal in
  let hud := bool_decide (0.1 < hudTimer) in
  Some (hud, mkLoop bodies spacecraft (timeWarpIndex s) simDate lastTime
               (if hud then 0 else hudTimer)).

End WithThree.
End Main.

(** ** Concrete inputs *)

Module Examples.
Import Bodies Spacecraft.

(** The craft as [createSpacecraft] makes it, with the stand-in attitude. *)
Definition craft : Spacecraft (three := Three_fixed) :=
  mkSpacecraft (mkMesh (tt : @Quaternion Three_fixed) (mkVec3 52.5 0.5 0)) 0
    (mkVec3 1.05 0 0.01) (mkVec3 0 0.01720 0) 1000 THRUST_ACCEL ROTATION_SPEED
    (Some false) ∅.

(** The same craft at rest, with the key W down. *)
Definition craftAtRest : Spacecraft (three := Three_fixed) :=
  mkSpacecraft (mkMesh (tt : @Quaternion Three_fixed) (mkVec3 52.5 0.5 0)) 0
    (mkVec3 1.05 0 0.01) (mkVec3 0 0 0) 1000 THRUST_ACCEL ROTATION_SPEED
    (Some false) (<["KeyW" := true]> ∅).

Definition sun : Body := mkBody (mkBodyData "Sun" 2.9591e-4) (mkVec3 0 0 0).
Definition masslessSun : Body := mkBody (mkBodyData "Sun" 0) (mkVec3 0 0 0).
(** A body at the very place of the craft. *)
Definition companion : Body :=
  mkBody (mkBodyData "Companion" 8.8877e-10) (mkVec3 1.05 0 0.01).

(** Elements of a circular orbit of radius 1 AU. *)
Definition circular : Orbits.OrbitalElements :=
  Orbits.mkOrbitalElements 1 0 0 0 0 0 100 35999 102 0 0 0.

(** The elements of Mercury in [planets.js]. *)
Definition mercury : Orbits.OrbitalElements :=
  Orbits.mkOrbitalElements 0.38709927 0.00000037 0.20563593 0.00001906
    7.00497902 (-0.00594749) 252.25032350 149472.67411175
    77.45779628 0.16047689 48.33076593 (-0.12534081).

(** The epoch J2000.0, 2000-01-01 12:00 UTC, as a [Date]. *)
Definition J2000 : Orbits.Date := 946728000000%Z.

(** The body objects of the Sun and of Mercury as [createBodies] makes them. *)
Definition sunBody : BodiesUpdate.BodyObject :=
  BodiesUpdate.mkBodyObject sun 696340 None (mkVec3 0 0 0) None.
Definition mercuryBody : BodiesUpdate.BodyObject :=
  BodiesUpdate.mkBodyObject
    (mkBody (mkBodyData "Mercury" (Planets.GM_SUN_AU3_DAY2 * (3.301e23 / Planets.SOLAR_MASS)))
       (mkVec3 0 0 0))
    2439.7 (Some mercury) (mkVec3 0 0 0) (Some (mkVec3 0 0 0)).

(** The game loop before its first frame, at the epoch, with these two
    bodies and the craft. *)
Definition loopAtEpoch : Main.Loop (three := Three_fixed) :=
  Main.mkLoop [sunBody; mercuryBody] craft 0 J2000 0 0.

End Examples.

(** * Properties *)

(** ** The built-ins *)

Lemma divide_Some (x y : R) : y <> 0 -> x ÷ y = Some (x / y).
Proof.
  intros Hy. unfold divide. destruct (Req_dec_T y 0); [contradiction | reflexivity].
Qed.

Lemma sum_sqr_nonneg (a b c : R) : 0 <= a * a + b * b + c * c.
Proof. nra. Qed.

Lemma forOf_app {A S : Type} (step : A -> S -> option S) (l1 l2 : list A) (s : S) :
  forOf (l1 ++ l2) step s = s' ← forOf l1 step s; forOf l2 step s'.
Proof.
  revert s. induction l1 as [| b l1 IH]; intros s; simpl; [reflexivity |].
  destruct (step b s) as [s' |]; simpl; [apply IH | reflexivity].
Qed.

Lemma forOf_defined {A S : Type} (step : A -> S -> option S) (l : list A) :
  (forall b s, In b l -> is_Some (step b s)) -> forall s, is_Some (forOf l step s).
Proof.
  induction l as [| b l IH]; intros Hstep s; simpl; [eauto |].
  destruct (Hstep b s (or_introl eq_refl)) as [s' ->]. simpl.
  apply IH. intros b' s'' Hin. apply Hstep. right. exact Hin.
Qed.

(** *** [Array.prototype.sort] with the comparator [(a, b) => key(b) - key(a)] *)

Section SortDescending.
Context {A : Type} (key : A -> R).

Let compare (a b : A) : R := key b - key a.
Let descending (a b : A) : Prop := key b <= key a.

Lemma sort_insert_Permutation (a : A) (placed : list A) :
  sort_insert compare a placed ≡ₚ a :: placed.
Proof.
  induction placed as [| b rest IH]; simpl; [reflexivity |].
  destruct (Rlt_dec _ _); [reflexivity |].
  rewrite IH. apply Permutation_swap.
Qed.

Lemma sort_insert_sorted (a : A) (placed : list A) :
  StronglySorted descending placed ->
  StronglySorted descending (sort_insert compare a placed).
Proof.
  induction placed as [| b rest IH]; simpl; intros Hs.
  - repeat constructor.
  - apply StronglySorted_inv in Hs as [Hrest Hb].
    destruct (Rlt_dec _ _) as [Hlt | Hge]; unfold compare in Hlt || unfold compare in Hge.
    + constructor; [constructor; assumption |].
      constructor; [unfold descending; lra |].
      eapply Forall_impl; [exact Hb |]. unfold descending. intros c Hc. simpl in Hc. lra.
    + constructor; [apply IH; exact Hrest |].
      eapply Permutation_Forall; [symmetry; apply sort_insert_Permutation |].
      constructor; [unfold descending; lra | exact Hb].
Qed.

(** Insertion keeps the order among the entries of any one key: the new
    entry comes behind the entries of its key already placed. *)
Lemma sort_insert_stable (g : R) (a : A) (placed : list A) :
  StronglySorted descending placed ->
  filter (fun c => key c = g) (sort_insert compare a placed)
  = filter (fun c => key c = g) placed ++ filter (fun c => key c = g) [a].
Proof.
  induction placed as [| b rest IH]; simpl; intros Hs; [reflexivity |].
  apply StronglySorted_inv in Hs as [Hrest Hb].
  destruct (Rlt_dec _ _) as [Hlt | Hge]; unfold compare in Hlt || unfold compare in Hge.
  - rewrite (filter_cons _ a), (filter_cons _ b), (filter_cons _ a), filter_nil.
    destruct (decide (key a = g)) as [Ha | Ha]; [| rewrite app_nil_r; reflexivity].
    destruct (decide (key b = g)) as [Hbg | Hbg]; [lra |].
    replace (filter (fun c => key c = g) rest) with (@nil A); [reflexivity |].
    symmetry. clear IH Hrest. induction Hb as [| c rest' Hc _ IH']; [reflexivity |].
    rewrite filter_cons, IH'. unfold descending in Hc.
    destruct (decide (key c = g)); [lra | reflexivity].
  - rewrite !(filter_cons _ b), IH by exact Hrest.
    destruct (decide (key b = g)); reflexivity.
Qed.

Lemma Array_sort_from (placed l : list A) :
  StronglySorted descending placed ->
  let sorted := fold_left (fun placed a => sort_insert compare a placed) l placed in
  StronglySorted descending sorted /\
  sorted ≡ₚ placed ++ l /\
  forall g, filter (fun c => key c = g) sorted
            = filter (fun c => key c = g) placed ++ filter (fun c => key c = g) l.
Proof.
  revert placed. induction l as [| a l IH]; intros placed Hs; simpl.
  - rewrite app_nil_r. split; [exact Hs |]. split; [reflexivity |].
    intros g. rewrite filter_nil, app_nil_r. reflexivity.
  - destruct (IH (sort_insert compare a placed) (sort_insert_sorted a placed Hs))
      as (Hsorted & Hperm & Hstable).
    split; [exact Hsorted |]. split.
    + rewrite Hperm, sort_insert_Permutation. simpl. apply Permutation_middle.
    + intros g. rewrite Hstable, sort_insert_stable by exact Hs.
      rewrite <- app_assoc. rewrite <- filter_app. reflexivity.
Qed.

Lemma Array_sort_sorted (l : list A) :
  StronglySorted descending (Array_sort compare l).
Proof. apply (Array_sort_from [] l). constructor. Qed.

Lemma Array_sort_Permutation (l : list A) : Array_sort compare l ≡ₚ l.
Proof. apply (Array_sort_from [] l). constructor. Qed.

Lemma Array_sort_stable (l : list A) (g : R) :
  filter (fun c => key c = g) (Array_sort compare l) = filter (fun c => key c = g) l.
Proof. apply (Array_sort_from [] l). constructor. Qed.

End SortDescending.

(** ** spacecraft.js *)

Section SpacecraftProperties.
Context {three : Three}.
Import Bodies (Body, BodyData, data, name, GM_AU3_day2, auToScene).
Import Spacecraft.

(** The guard of both loops: a separation of at least [1e-10] is not zero,
    and neither is its square. *)
Lemma separation_not_zero (r2 : R) :
  ~ sqrt r2 < 1e-10 -> r2 <> 0 /\ sqrt r2 <> 0.
Proof.
  intros Hr. split.
  - intros ->. rewrite sqrt_0 in Hr. lra.
  - lra.
Qed.

Lemma computeGravity_step_skip (pos : Vec3) (body : Body) (acc : Accel) :
  norm (displacement pos (Bodies.positionAU body)) < 1e-10 ->
  computeGravity_step pos body acc = Some acc.
Proof.
  unfold norm, displacement, computeGravity_step. simpl. intros Hr.
  destruct (Rlt_dec _ _) as [_ | Hn]; [reflexivity | contradiction].
Qed.

Lemma computeGravity_step_defined (pos : Vec3) (body : Body) (acc : Accel) :
  is_Some (computeGravity_step pos body acc).
Proof.
  unfold computeGravity_step. cbv zeta.
  destruct (Rlt_dec _ _) as [_ | Hn]; [eauto |].
  apply separation_not_zero in Hn as [H2 H1].
  rewrite !divide_Some by assumption. simpl. eauto.
Qed.

Lemma computeGravity_run (w : World) :
  computeGravity w =
  g ← forOf (bodies w) (computeGravity_step (positionAU (spacecraft w))) (mkAccel 0 0 0);
  Some (g, w).
Proof.
  unfold computeGravity, mbind, M_bind, gets, number. simpl.
  destruct (forOf _ _ _); reflexivity.
Qed.

Lemma computeGravity_defined (w : World) :
  exists g, computeGravity w = Some (g, w).
Proof.
  rewrite computeGravity_run.
  destruct (forOf_defined (computeGravity_step (positionAU (spacecraft w))) (bodies w))
    with (s := mkAccel 0 0 0) as [g Hg].
  - intros b s _. apply computeGravity_step_defined.
  - exists g. rewrite Hg. reflexivity.
Qed.

(** C1 (singularity guard).  A body closer to the spacecraft than [1e-10] AU
    contributes exactly zero to the net acceleration: [computeGravity] returns
    the acceleration it returns for the body set without that body.  And the
    run is defined, that is, no division by zero occurs and the components
    are finite numbers, whatever the positions of the other bodies. *)
Theorem computeGravity_singularity_guard
    (sc : Spacecraft) (before after : list Body) (body : Body) :
  norm (displacement (positionAU sc) (Bodies.positionAU body)) < 1e-10 ->
  exists g : Accel,
    computeGravity (mkWorld sc (before ++ body :: after))
      = Some (g, mkWorld sc (before ++ body :: after)) /\
    computeGravity (mkWorld sc (before ++ after))
      = Some (g, mkWorld sc (before ++ after)).
Proof.
  intros Hr.
  destruct (computeGravity_defined (mkWorld sc (before ++ body :: after))) as [g Hg].
  exists g. split; [exact Hg |].
  rewrite computeGravity_run in Hg |- *. simpl in *.
  rewrite forOf_app in Hg. rewrite forOf_app.
  destruct (forOf before _ _) as [acc |]; simpl in *; [| discriminate].
  rewrite computeGravity_step_skip in Hg by exact Hr. simpl in Hg.
  destruct (forOf after _ _) as [g' |]; simpl in *; [| discriminate].
  congruence.
Qed.

(** *** getPerBodyGravity *)

Lemma distanceTo_sqr (pos : Vec3) (body : Body) :
  distanceTo pos body * distanceTo pos body
  = (x (Bodies.positionAU body) - x pos) * (x (Bodies.positionAU body) - x pos)
    + (y (Bodies.positionAU body) - y pos) * (y (Bodies.positionAU body) - y pos)
    + (z (Bodies.positionAU body) - z pos) * (z (Bodies.positionAU body) - z pos).
Proof. unfold distanceTo, norm, displacement. simpl. apply sqrt_sqrt, sum_sqr_nonneg. Qed.

Lemma getPerBodyGravity_step_spec (pos : Vec3) (body : Body) (results : list GravityEntry) :
  getPerBodyGravity_step (AU_TO_KM * 1000) pos body results
  = Some (results ++ map (reportOf pos) (filter (fun b => ~ distanceTo pos b < 1e-10) [body])).
Proof.
  rewrite filter_cons, filter_nil.
  pose proof (distanceTo_sqr pos body) as Hsqr.
  unfold getPerBodyGravity_step, reportOf. cbv zeta.
  unfold distanceTo, norm, displacement in *. simpl in *.
  destruct (Rlt_dec _ _) as [Hlt | Hge].
  - rewrite decide_False by tauto. simpl. rewrite app_nil_r. reflexivity.
  - rewrite decide_True by exact Hge.
    apply separation_not_zero in Hge as [H2 _].
    rewrite divide_Some by exact H2. simpl. rewrite Hsqr.
    unfold AU_TO_KM, DAY_TO_S. reflexivity.
Qed.

Lemma getPerBodyGravity_loop (pos : Vec3) (bodies : list Body) (results : list GravityEntry) :
  forOf bodies (getPerBodyGravity_step (AU_TO_KM * 1000) pos) results
  = Some (results ++ map (reportOf pos) (filter (fun b => ~ distanceTo pos b < 1e-10) bodies)).
Proof.
  revert results. induction bodies as [| body bodies IH]; intros results; simpl.
  - rewrite app_nil_r. reflexivity.
  - rewrite getPerBodyGravity_step_spec. simpl. rewrite IH, <- app_assoc, <- map_app.
    rewrite <- filter_app. reflexivity.
Qed.

Lemma getPerBodyGravity_run (w : World) :
  getPerBodyGravity w
  = Some (Array_sort (fun a b => gravityMs2 b - gravityMs2 a)
            (map (reportOf (positionAU (spacecraft w)))
               (filter (fun b => ~ distanceTo (positionAU (spacecraft w)) b < 1e-10)
                  (bodies w))), w).
Proof.
  unfold getPerBodyGravity, mbind, M_bind, gets, number. simpl.
  rewrite getPerBodyGravity_loop. reflexivity.
Qed.

(** C6 (ordering).  The list [getPerBodyGravity] returns is sorted by
    descending [gravityMs2]: every entry is at least as strong as each entry
    behind it.  And the entries of any one magnitude stand in the order of
    the bodies they report. *)
Theorem getPerBodyGravity_sorted_stable (w : World) :
  exists entries : list GravityEntry,
    getPerBodyGravity w = Some (entries, w) /\
    StronglySorted (fun a b => gravityMs2 b <= gravityMs2 a) entries /\
    forall g : R,
      filter (fun entry => gravityMs2 entry = g) entries
      = filter (fun entry => gravityMs2 entry = g)
          (map (reportOf (positionAU (spacecraft w)))
             (filter (fun b => ~ distanceTo (positionAU (spacecraft w)) b < 1e-10)
                (bodies w))).
Proof.
  eexists. split; [apply getPerBodyGravity_run |]. split.
  - apply (Array_sort_sorted gravityMs2).
  - intros g. apply (Array_sort_stable gravityMs2).
Qed.

(** C9 as amended (one entry per body that is not skipped).  The list
    [getPerBodyGravity] returns holds, in some order, exactly one entry for
    each body at a distance of at least [1e-10] AU: its name, its distance in
    AU and in km (times [AU_KM]), and [GM / r²] converted to m/s² with
    [AU_KM * 1000] metres per AU and [86400] seconds per day.  Bodies closer
    than [1e-10] AU have no entry. *)
Theorem getPerBodyGravity_entries (w : World) :
  exists entries : list GravityEntry,
    getPerBodyGravity w = Some (entries, w) /\
    entries ≡ₚ map (reportOf (positionAU (spacecraft w)))
                 (filter (fun b => ~ distanceTo (positionAU (spacecraft w)) b < 1e-10)
                    (bodies w)).
Proof.
  eexists. split; [apply getPerBodyGravity_run |].
  apply (Array_sort_Permutation gravityMs2).
Qed.

(** C10 (frame).  [computeGravity] and [getPerBodyGravity] return a result
    and leave the world as it was: the spacecraft, with its [positionAU] and
    [velocityAU], and every body, with its [positionAU]. *)
Theorem queries_leave_world_unchanged (w : World) :
  (exists g : Accel, computeGravity w = Some (g, w)) /\
  (exists entries : list GravityEntry, getPerBodyGravity w = Some (entries, w)).
Proof.
  split; [apply computeGravity_defined |].
  eexists. apply getPerBodyGravity_run.
Qed.

(** *** getSpeedKmS *)

(** The speed [getSpeedKmS] converts is the length of the velocity. *)
Lemma getSpeedKmS_run (w : World) :
  getSpeedKmS w = Some (norm (velocityAU (spacecraft w)) * AU_TO_KM / DAY_TO_S, w).
Proof. reflexivity. Qed.

(** *** updateSpacecraft *)

Lemma bind_run {A B : Type} (m : M A) (f : A -> M B) (w w' : World) (a : A) :
  m w = Some (a, w') -> (m ≫= f) w = f a w'.
Proof. intros Hm. unfold mbind, M_bind. rewrite Hm. reflexivity. Qed.

Lemma updateSpacecraft_rotation_run (w : World) (dtReal : R) :
  updateSpacecraft_rotation dtReal w
  = Some (tt, mkWorld
            (set_quaternion
               (steered (keys (spacecraft w)) (rotationSpeed (spacecraft w) * dtReal))
               (spacecraft w))
            (bodies w)).
Proof.
  destruct w as [[[q p] eo pos vel m ta rs th ks] bs].
  unfold updateSpacecraft_rotation, steered, set_quaternion, mbind, M_bind, gets,
    setSpacecraft, when, mret, M_ret. simpl.
  destruct (truthy (ks !! "KeyA")), (truthy (ks !! "KeyD")), (truthy (ks !! "Space")),
    (truthy (ks !! "ShiftLeft")), (truthy (ks !! "ShiftRight")),
    (truthy (ks !! "KeyQ")), (truthy (ks !! "KeyE")); reflexivity.
Qed.

Lemma updateSpacecraft_thrust_run (w : World) (dtSim : R) :
  let s := spacecraft w in
  let forward := applyQuaternion (mkVec3 0 0 (-1)) (quaternion (mesh s)) in
  let sign := if truthy (keys s !! "KeyW") then 1 else -1 in
  let thrustAU := thrustAccel s * dtSim * sign in
  let thrusting := js_or (keys s !! "KeyW") (keys s !! "KeyS") in
  updateSpacecraft_thrust dtSim w
  = Some (tt, mkWorld
            (mkSpacecraft (mesh s) (if truthy thrusting then 0.8 else 0) (positionAU s)
               (if truthy thrusting
                then mkVec3 (x (velocityAU s) + x forward * thrustAU)
                            (y (velocityAU s) + (- z forward) * thrustAU)
                            (z (velocityAU s) + y forward * thrustAU)
                else velocityAU s)
               (mass s) (thrustAccel s) (rotationSpeed s) thrusting (keys s))
            (bodies w)).
Proof.
  destruct w as [[[q p] eo pos [vx vy vz] m ta rs th ks] bs].
  unfold updateSpacecraft_thrust, mbind, M_bind, gets, setSpacecraft, when, mret, M_ret.
  simpl. destruct (truthy (js_or (ks !! "KeyW") (ks !! "KeyS"))); reflexivity.
Qed.

Lemma computeGravity_frame (w w' : World) (g : Accel) :
  positionAU (spacecraft w') = positionAU (spacecraft w) ->
  bodies w' = bodies w ->
  computeGravity w = Some (g, w) -> computeGravity w' = Some (g, w').
Proof.
  rewrite !computeGravity_run. intros -> ->.
  destruct (forOf _ _ _) as [g' |]; simpl; [| discriminate]. congruence.
Qed.

(** One step of the integrator, in full: the gravity it uses, and the
    velocity and the position it leaves. *)
Lemma updateSpacecraft_run (w : World) (dtSim dtReal : R) :
  exists (g : Accel) (w' : World),
    computeGravity w = Some (g, w) /\
    updateSpacecraft dtSim dtReal w = Some (tt, w') /\
    bodies w' = bodies w /\
    velocityAU (spacecraft w')
      = vadd (vadd (velocityAU (spacecraft w))
                (vscale dtSim (thrustAcceleration (spacecraft w) dtReal)))
          (vscale dtSim (accelVector g)) /\
    positionAU (spacecraft w')
      = vadd (positionAU (spacecraft w)) (vscale dtSim (velocityAU (spacecraft w'))).
Proof.
  destruct (computeGravity_defined w) as [g Hg]. exists g.
  unfold updateSpacecraft.
  erewrite bind_run by apply updateSpacecraft_rotation_run.
  erewrite bind_run by apply updateSpacecraft_thrust_run.
  erewrite bind_run; cycle 1.
  { eapply computeGravity_frame; [| | exact Hg]; reflexivity. }
  destruct w as [[[q p] eo pos [vx vy vz] m ta rs th ks] bs].
  unfold mbind, M_bind, gets, setSpacecraft. simpl.
  eexists. split; [exact Hg |]. split; [reflexivity |]. split; [reflexivity |].
  unfold thrustAcceleration, forwardDirection, vadd, vscale, accelVector. simpl.
  split; [| reflexivity].
  destruct (truthy (js_or (ks !! "KeyW") (ks !! "KeyS")));
    unfold add_x, add_y, add_z; simpl; f_equal; ring.
Qed.

(** C2 (order of the integration).  One step of [updateSpacecraft] first
    brings the velocity to [vel + a_thrust*dtSim + a_grav*dtSim], where
    [a_grav] is the acceleration [computeGravity] returns for the world before
    the step (the position not yet advanced), and then advances the position
    by that new velocity: [pos' = pos + vel' * dtSim]. *)
Theorem updateSpacecraft_velocity_then_position (w : World) (dtSim dtReal : R) :
  exists (a_grav : Accel) (w' : World),
    computeGravity w = Some (a_grav, w) /\
    updateSpacecraft dtSim dtReal w = Some (tt, w') /\
    let a_thrust := thrustAcceleration (spacecraft w) dtReal in
    let vel := velocityAU (spacecraft w) in
    let pos := positionAU (spacecraft w) in
    let vel' := velocityAU (spacecraft w') in
    let pos' := positionAU (spacecraft w') in
    vel' = vadd (vadd vel (vscale dtSim a_thrust)) (vscale dtSim (accelVector a_grav)) /\
    pos' = vadd pos
             (vscale dtSim
                (vadd (vadd vel (vscale dtSim a_thrust))
                   (vscale dtSim (accelVector a_grav)))).
Proof.
  destruct (updateSpacecraft_run w dtSim dtReal) as (g & w' & Hg & Hrun & _ & Hvel & Hpos).
  exists g, w'. split; [exact Hg |]. split; [exact Hrun |]. cbv zeta.
  split; [exact Hvel |]. rewrite Hpos, Hvel. reflexivity.
Qed.

Lemma computeGravity_without_mass (w : World) :
  Forall (fun body => GM_AU3_day2 (data body) = 0) (bodies w) ->
  computeGravity w = Some (mkAccel 0 0 0, w).
Proof.
  rewrite computeGravity_run. intros Hgm.
  induction Hgm as [| body bs Hbody _ IH]; simpl; [reflexivity |].
  replace (computeGravity_step (positionAU (spacecraft w)) body (mkAccel 0 0 0))
    with (Some (mkAccel 0 0 0)); [exact IH |].
  unfold computeGravity_step. cbv zeta. rewrite Hbody.
  destruct (Rlt_dec _ _) as [_ | Hn]; [reflexivity |].
  apply separation_not_zero in Hn as [H2 H1].
  rewrite !divide_Some by assumption. simpl.
  assert (Hzero : forall r2 u : R, 0 + 0 / r2 * u = 0) by (intros; unfold Rdiv; ring).
  rewrite !Hzero. reflexivity.
Qed.

Lemma norm_scaled_axis (v : Vec3) (k : R) :
  axisAlignedUnit v -> 0 <= k -> norm (vscale k v) = k.
Proof.
  intros Hv Hk. transitivity (sqrt (k * k)); [| apply sqrt_square; exact Hk].
  unfold norm, vscale. f_equal.
  destruct Hv as [-> | [-> | [-> | [-> | [-> | ->]]]]]; simpl; ring.
Qed.

(** C5 (thrust scenario).  A craft at rest, thrust [0.0005] AU/day² forward
    along an axis-aligned unit direction, one step of [dtSim = 1] day, every
    body with [GM = 0]: the step ends with speed exactly [0.0005] AU/day, and
    the position has moved by exactly [0.0005] AU, the new velocity
    applied over the whole step. *)
Theorem updateSpacecraft_thrust_from_rest (w : World) (dtReal : R) :
  velocityAU (spacecraft w) = mkVec3 0 0 0 ->
  truthy (keys (spacecraft w) !! "KeyW") = true ->
  thrustAccel (spacecraft w) = 0.0005 ->
  Forall (fun body => GM_AU3_day2 (data body) = 0) (bodies w) ->
  axisAlignedUnit (forwardDirection (spacecraft w) dtReal) ->
  exists w' : World,
    updateSpacecraft 1 dtReal w = Some (tt, w') /\
    norm (velocityAU (spacecraft w')) = 0.0005 /\
    norm (displacement (positionAU (spacecraft w)) (positionAU (spacecraft w'))) = 0.0005.
Proof.
  intros Hrest Hforward Haccel Hgm Haxis.
  destruct (updateSpacecraft_run w 1 dtReal) as (g & w' & Hg & Hrun & _ & Hvel & Hpos).
  rewrite (computeGravity_without_mass w Hgm) in Hg. injection Hg as <-.
  exists w'. split; [exact Hrun |].
  assert (Haxis' : axisAlignedUnit
            (mkVec3 (x (forwardDirection (spacecraft w) dtReal))
                    (- z (forwardDirection (spacecraft w) dtReal))
                    (y (forwardDirection (spacecraft w) dtReal)))).
  { unfold axisAlignedUnit in *.
    destruct Haxis as [-> | [-> | [-> | [-> | [-> | ->]]]]]; simpl;
      repeat match goal with
             | |- _ \/ _ => (left; f_equal; lra) || right
             end; f_equal; lra. }
  assert (Hvel' : velocityAU (spacecraft w')
                  = vscale 0.0005
                      (mkVec3 (x (forwardDirection (spacecraft w) dtReal))
                              (- z (forwardDirection (spacecraft w) dtReal))
                              (y (forwardDirection (spacecraft w) dtReal)))).
  { rewrite Hvel, Hrest. unfold thrustAcceleration, js_or. rewrite Hforward, Haccel.
    rewrite Hforward. unfold vadd, vscale, accelVector. simpl. f_equal; ring. }
  split.
  - rewrite Hvel'. apply norm_scaled_axis; [exact Haxis' | lra].
  - rewrite Hpos, Hvel'.
    etransitivity; [| apply (norm_scaled_axis _ 0.0005 Haxis'); lra].
    unfold norm, displacement, vadd, vscale. simpl. f_equal. ring.
Qed.

End SpacecraftProperties.

(** ** spacecraft.js on concrete inputs *)

Section SpacecraftExamples.
Import Bodies Spacecraft Examples.

Lemma companion_coincides :
  norm (displacement (positionAU craft) (Bodies.positionAU companion)) < 1e-10.
Proof.
  unfold norm, displacement. simpl.
  replace ((1.05 - 1.05) * (1.05 - 1.05) + (0 - 0) * (0 - 0)
           + (0.01 - 0.01) * (0.01 - 0.01)) with 0 by lra.
  rewrite sqrt_0. lra.
Qed.

(** C1 at a concrete input: the companion sits on the craft, the Sun does
    not; the net acceleration is the one the Sun alone gives. *)
Lemma computeGravity_singularity_guard_witness :
  exists g : Accel,
    computeGravity (mkWorld craft ([sun] ++ companion :: []))
      = Some (g, mkWorld craft ([sun] ++ companion :: [])) /\
    computeGravity (mkWorld craft ([sun] ++ []))
      = Some (g, mkWorld craft ([sun] ++ [])).
Proof.
  apply (computeGravity_singularity_guard craft [sun] [] companion).
  exact companion_coincides.
Defined.

(** C9 as stated fails: with the companion as the only body, one body goes
    in and no entry comes out. *)
Lemma getPerBodyGravity_omits_coincident_body :
  length (bodies (mkWorld craft [companion])) = 1%nat /\
  getPerBodyGravity (mkWorld craft [companion]) = Some ([], mkWorld craft [companion]).
Proof.
  split; [reflexivity |].
  rewrite getPerBodyGravity_run. cbn [bodies spacecraft].
  rewrite filter_cons, filter_nil, decide_False; [reflexivity |].
  intros Hfar. apply Hfar. exact companion_coincides.
Qed.

Lemma forward_of_craftAtRest (dtReal : R) :
  forwardDirection craftAtRest dtReal = mkVec3 0 0 (-1).
Proof. reflexivity. Qed.

(** C5 at a concrete input: the craft at rest with W down and a massless Sun. *)
Lemma updateSpacecraft_thrust_from_rest_witness :
  exists w' : World,
    updateSpacecraft 1 0.016 (mkWorld craftAtRest [masslessSun]) = Some (tt, w') /\
    norm (velocityAU (spacecraft w')) = 0.0005 /\
    norm (displacement (positionAU (spacecraft (mkWorld craftAtRest [masslessSun])))
            (positionAU (spacecraft w'))) = 0.0005.
Proof.
  apply (updateSpacecraft_thrust_from_rest (mkWorld craftAtRest [masslessSun]) 0.016).
  - reflexivity.
  - reflexivity.
  - reflexivity.
  - repeat constructor.
  - rewrite forward_of_craftAtRest. unfold axisAlignedUnit. tauto.
Defined.

End SpacecraftExamples.


(** ** Kepler's equation: bounds and Newton's iteration

    What the convergence of [solveKepler] rests on.  With the residual
    [E - e sin E - M] and [0 <= e <= 0.99], [0 <= M <= π]:
    - a step of Newton's method leaves a residual of at most [e] times the
      square of the step ([residual_after_step]);
    - from a point of [[0, π]] where the residual is not negative, a step
      stays there and takes a quarter off the residual
      ([newton_monotone_phase]);
    - the seed [M + e sin M] lies in [[0, π]]; when its residual is negative,
      the first step either lands in that region or passes [π] by at most
      0.8, and then the second step lands in it ([first_step_large_M],
      [first_step_small_M], [second_step_back]). *)

(** ** Bounds on sine and cosine *)

Lemma sin_poly_bounds (a : R) :
  0 <= a <= PI ->
  a - a ^ 3 / 6 <= sin a <= a - a ^ 3 / 6 + a ^ 5 / 120.
Proof.
  intros [H0 H1]. pose proof (sin_bound a 0 H0 H1) as H.
  unfold sin_approx, sin_term in H. simpl in H. lra.
Qed.

Lemma cos_poly_bounds (a : R) :
  - PI / 2 <= a <= PI / 2 ->
  1 - a ^ 2 / 2 + a ^ 4 / 24 - a ^ 6 / 720 <= cos a <= 1 - a ^ 2 / 2 + a ^ 4 / 24.
Proof.
  intros [H0 H1]. pose proof (cos_bound a 1 H0 H1) as [Hlo _].
  pose proof (cos_bound a 0 H0 H1) as [_ Hhi].
  unfold cos_approx, cos_term in *. simpl in *. lra.
Qed.

Lemma Rabs_le_inv (x a : R) : Rabs x <= a -> - a <= x <= a.
Proof. unfold Rabs. destruct (Rcase_abs x); lra. Qed.

Lemma sin_le_x (a : R) : 0 <= a -> sin a <= a.
Proof.
  intros [H | <-]; [left; apply sin_lt_x; exact H | rewrite sin_0; lra].
Qed.

Lemma Rabs_sin_le (a : R) : Rabs (sin a) <= Rabs a.
Proof.
  destruct (Rle_dec 0 a) as [H | H].
  - rewrite (Rabs_pos_eq a) by exact H.
    apply Rabs_le. split; [| apply sin_le_x; exact H].
    pose proof (SIN_bound a). destruct (Rle_dec a 1).
    + assert (0 <= sin a); [| lra]. apply sin_ge_0; [exact H |].
      pose proof PI2_3_2. lra.
    + lra.
  - assert (Ha : 0 <= - a) by lra.
    rewrite <- (Rabs_Ropp a), (Rabs_pos_eq (- a)) by exact Ha.
    rewrite <- (Rabs_Ropp (sin a)), <- sin_neg.
    apply Rabs_le. split; [| apply sin_le_x; exact Ha].
    pose proof (SIN_bound (- a)). destruct (Rle_dec (- a) 1).
    + assert (0 <= sin (- a)); [| lra]. apply sin_ge_0; [exact Ha |].
      pose proof PI2_3_2. lra.
    + lra.
Qed.

Lemma cos_ge_quad (a : R) : 1 - a ^ 2 / 2 <= cos a.
Proof.
  replace a with (2 * (a / 2)) at 2 by field. rewrite cos_2a_sin.
  pose proof (Rabs_sin_le (a / 2)) as H.
  assert (Hs : sin (a / 2) * sin (a / 2) <= (a / 2) * (a / 2)).
  { rewrite <- (Rabs_mult_self (sin (a / 2))) || idtac.
    apply Rsqr_le_abs_1 in H. unfold Rsqr in H. exact H. }
  nra.
Qed.

(** Mean value theorem for sine and cosine, in the form used below. *)
Lemma sin_chord (a b : R) :
  a < b -> exists c, a < c < b /\ sin b - sin a = cos c * (b - a).
Proof.
  intros Hab.
  destruct (MVT_cor2 sin cos a b Hab) as [c [Hc Hin]].
  - intros c _. apply derivable_pt_lim_sin.
  - exists c. split; [exact Hin | exact Hc].
Qed.

Lemma cos_chord (a b : R) :
  a < b -> exists c, a < c < b /\ cos b - cos a = - sin c * (b - a).
Proof.
  intros Hab.
  destruct (MVT_cor2 cos (fun x => - sin x) a b Hab) as [c [Hc Hin]].
  - intros c _. apply derivable_pt_lim_cos.
  - exists c. split; [exact Hin | exact Hc].
Qed.

Lemma sin_Lipschitz (a b : R) : Rabs (sin b - sin a) <= Rabs (b - a).
Proof.
  destruct (Rtotal_order a b) as [H | [-> | H]].
  - destruct (sin_chord a b H) as [c [_ ->]]. rewrite Rabs_mult.
    pose proof (COS_bound c). assert (Rabs (cos c) <= 1) by (apply Rabs_le; lra).
    pose proof (Rabs_pos (b - a)). nra.
  - rewrite !Rminus_diag. lra.
  - destruct (sin_chord b a H) as [c [_ Hc]].
    rewrite <- (Rabs_Ropp (sin b - sin a)), <- (Rabs_Ropp (b - a)), !Ropp_minus_distr, Hc.
    rewrite Rabs_mult.
    pose proof (COS_bound c). assert (Rabs (cos c) <= 1) by (apply Rabs_le; lra).
    pose proof (Rabs_pos (a - b)). nra.
Qed.

Lemma cos_Lipschitz (a b : R) : Rabs (cos b - cos a) <= Rabs (b - a).
Proof.
  destruct (Rtotal_order a b) as [H | [-> | H]].
  - destruct (cos_chord a b H) as [c [_ ->]]. rewrite Rabs_mult, Rabs_Ropp.
    pose proof (SIN_bound c). assert (Rabs (sin c) <= 1) by (apply Rabs_le; lra).
    pose proof (Rabs_pos (b - a)). nra.
  - rewrite !Rminus_diag. lra.
  - destruct (cos_chord b a H) as [c [_ Hc]].
    rewrite <- (Rabs_Ropp (cos b - cos a)), <- (Rabs_Ropp (b - a)), !Ropp_minus_distr, Hc.
    rewrite Rabs_mult, Rabs_Ropp.
    pose proof (SIN_bound c). assert (Rabs (sin c) <= 1) by (apply Rabs_le; lra).
    pose proof (Rabs_pos (a - b)). nra.
Qed.

(** On [[0, π]] the sine lies below each of its tangents. *)
Lemma sin_below_tangent (a b : R) :
  0 <= a <= PI -> 0 <= b <= PI -> sin b <= sin a + cos a * (b - a).
Proof.
  intros Ha Hb.
  destruct (Rtotal_order a b) as [H | [-> | H]].
  - destruct (sin_chord a b H) as [c [Hc Heq]].
    assert (cos c <= cos a) by (apply cos_decr_1; lra). nra.
  - lra.
  - destruct (sin_chord b a H) as [c [Hc Heq]].
    assert (cos a <= cos c) by (apply cos_decr_1; lra). nra.
Qed.


Lemma PI_gt_314 : 3.14 < PI.
Proof.
  pose proof (PI_2_3_7_ineq 1) as [H _].
  unfold tg_alt, PI_2_3_7_tg, Ratan_seq in H. simpl in H. lra.
Qed.


(** ** Polynomial inequalities *)

Lemma poly_cos_gap_nonneg (u : R) : 0 <= u <= 2 -> 0 <= u ^ 2 / 2 - u ^ 4 / 24.
Proof.
  intros H. replace (u ^ 2 / 2 - u ^ 4 / 24) with (u ^ 2 * (12 - u ^ 2) / 24) by field.
  assert (0 <= u ^ 2) by nra. assert (u ^ 2 <= 4) by nra. nra.
Qed.

Lemma first_step_poly_high (u : R) :
  1 <= u <= 2 -> 0.7045 <= (3.14 - u) * (u ^ 2 / 2 - u ^ 4 / 24).
Proof.
  intros H.
  replace (u ^ 2 / 2 - u ^ 4 / 24) with (u ^ 2 * (12 - u ^ 2) / 24) by field.
  assert (1 <= u ^ 2) by nra. assert (u ^ 2 <= 4) by nra.
  assert (0.45 * u <= u ^ 2 * (12 - u ^ 2) / 24) by nra.
  nra.
Qed.

Lemma first_step_poly_low (u : R) :
  0.3 <= u <= 1 -> u - 0.2955 <= (3.14 - u) * (u ^ 2 / 2 - u ^ 4 / 24).
Proof.
  intros H.
  assert (Hq : u ^ 2 * (11 / 24) <= u ^ 2 / 2 - u ^ 4 / 24).
  { replace (u ^ 2 / 2 - u ^ 4 / 24) with (u ^ 2 * (1 / 2 - u ^ 2 / 24)) by field.
    assert (0 <= u ^ 2) by nra. assert (u ^ 2 <= 1) by nra. nra. }
  assert (u - 0.2955 <= (3.14 - u) * (u ^ 2 * (11 / 24))); [| nra].
  nra.
Qed.

Lemma first_step_poly_tight (M : R) :
  0 <= M <= 0.3 -> 0.9801 * M <= (3.94 - 1.99 * M) * (0.01 + 1.798 * M ^ 2).
Proof.
  intros H. destruct (Rle_dec M 0.12) as [Hlo | Hhi].
  - assert (M ^ 3 <= 0.12 * M ^ 2) by nra.
    assert (0 <= 0.0394 - M + 6.6 * M ^ 2) by (pose proof (pow2_ge_0 (M - 5 / 66)); lra).
    nra.
  - assert (M ^ 3 <= 0.3 * M ^ 2) by nra.
    assert (0 <= (M - 0.12) * (M - 7 / 150)) by (apply Rmult_le_pos; lra).
    assert (0.005 <= 0.0394 - M + 6 * M ^ 2) by lra.
    nra.
Qed.

Lemma first_step_poly_mid (M : R) :
  0 <= M <= 0.3 -> 0.9409 * M <= (3.94 - 1.99 * M) * (0.03 + 1.55 * M ^ 2).
Proof.
  intros H.
  assert (M ^ 3 <= 0.3 * M ^ 2) by nra.
  assert (0 <= 0.1182 - 1.0006 * M + 5.1 * M ^ 2) by (pose proof (pow2_ge_0 (M - 0.0981)); lra).
  nra.
Qed.

Lemma slope_coefficient_high (e : R) :
  0.97 <= e <= 0.99 -> 1.798 <= 0.485 * e * (1 + 0.985 * e) ^ 2.
Proof.
  intros H. assert (3.8237 <= (1 + 0.985 * e) ^ 2) by nra.
  assert (0.47045 <= 0.485 * e) by lra. nra.
Qed.

Lemma slope_coefficient_mid (e : R) :
  0.9 <= e <= 0.99 -> 1.55 <= 0.485 * e * (1 + 0.985 * e) ^ 2.
Proof.
  intros H. assert (3.5588 <= (1 + 0.985 * e) ^ 2) by nra.
  assert (0.4365 <= 0.485 * e) by lra. nra.
Qed.

Lemma second_step_poly (t : R) :
  0 <= t <= 0.8 -> 1 + t <= (1.85 + t) * (1 - t ^ 2 / 2).
Proof.
  intros H. assert (t ^ 2 <= 0.64) by nra. assert (t ^ 3 <= 0.8 * t ^ 2) by nra.
  nra.
Qed.

Lemma first_step_poly (e M : R) :
  0 <= e <= 0.99 -> 0 <= M <= 0.3 ->
  e ^ 2 * M <= (3.94 - 1.99 * M) * (1 - e + 0.485 * e * (1 + 0.985 * e) ^ 2 * M ^ 2).
Proof.
  intros [He0 He1] HM.
  assert (HM2 : 0 <= M ^ 2) by apply pow2_ge_0.
  assert (He2 : 0 <= e ^ 2) by apply pow2_ge_0.
  assert (Hc0 : 0 <= 0.485 * e * (1 + 0.985 * e) ^ 2).
  { apply Rmult_le_pos; [lra | apply pow2_ge_0]. }
  destruct (Rle_dec e 0.9) as [Hlow | Hhigh].
  - assert (e ^ 2 * M <= 0.81 * 0.3).
    { assert (e ^ 2 <= 0.81) by nra. apply Rmult_le_compat; lra. }
    assert (0 <= 0.485 * e * (1 + 0.985 * e) ^ 2 * M ^ 2) by (apply Rmult_le_pos; lra).
    assert (3.343 * 0.1 <= (3.94 - 1.99 * M)
                           * (1 - e + 0.485 * e * (1 + 0.985 * e) ^ 2 * M ^ 2))
      by (apply Rmult_le_compat; lra).
    lra.
  - destruct (Rle_dec e 0.97) as [Hmid | Htop].
    + pose proof (slope_coefficient_mid e ltac:(lra)) as Hc.
      pose proof (first_step_poly_mid M HM) as Hp.
      assert (e ^ 2 * M <= 0.9409 * M).
      { assert (e ^ 2 <= 0.9409) by nra. apply Rmult_le_compat_r; lra. }
      assert (1.55 * M ^ 2 <= 0.485 * e * (1 + 0.985 * e) ^ 2 * M ^ 2)
        by (apply Rmult_le_compat_r; lra).
      assert ((3.94 - 1.99 * M) * (0.03 + 1.55 * M ^ 2)
              <= (3.94 - 1.99 * M)
                 * (1 - e + 0.485 * e * (1 + 0.985 * e) ^ 2 * M ^ 2))
        by (apply Rmult_le_compat_l; lra).
      lra.
    + pose proof (slope_coefficient_high e ltac:(lra)) as Hc.
      pose proof (first_step_poly_tight M HM) as Hp.
      assert (e ^ 2 * M <= 0.9801 * M).
      { assert (e ^ 2 <= 0.9801) by nra. apply Rmult_le_compat_r; lra. }
      assert (1.798 * M ^ 2 <= 0.485 * e * (1 + 0.985 * e) ^ 2 * M ^ 2)
        by (apply Rmult_le_compat_r; lra).
      assert ((3.94 - 1.99 * M) * (0.01 + 1.798 * M ^ 2)
              <= (3.94 - 1.99 * M)
                 * (1 - e + 0.485 * e * (1 + 0.985 * e) ^ 2 * M ^ 2))
        by (apply Rmult_le_compat_l; lra).
      lra.
Qed.


(** ** Newton's iteration on Kepler's equation *)

Lemma sin_tangent_error (a h : R) :
  Rabs (sin (a + h) - sin a - h * cos a) <= h * h.
Proof.
  destruct (Rtotal_order 0 h) as [H | [<- | H]].
  - destruct (sin_chord a (a + h)) as [c [Hc Heq]]; [lra |].
    replace (sin (a + h) - sin a - h * cos a) with (h * (cos c - cos a)) by lra.
    rewrite Rabs_mult, (Rabs_pos_eq h) by lra.
    pose proof (cos_Lipschitz a c) as HL.
    rewrite (Rabs_pos_eq (c - a)) in HL by lra. 
    pose proof (Rabs_pos (cos c - cos a)). nra.
  - rewrite Rplus_0_r, Rmult_0_l, Rminus_diag, Rminus_0_r, Rabs_R0. lra.
  - destruct (sin_chord (a + h) a) as [c [Hc Heq]]; [lra |].
    replace (sin (a + h) - sin a - h * cos a) with (h * (cos c - cos a)) by lra.
    rewrite Rabs_mult, (Rabs_left h) by lra.
    pose proof (cos_Lipschitz a c) as HL.
    rewrite (Rabs_left (c - a)) in HL by lra.
    pose proof (Rabs_pos (cos c - cos a)). nra.
Qed.

Section Newton.
Variables e M : R.
Hypothesis He : 0 <= e <= 0.99.

#[local] Abbreviation residual := (Orbits.residual e M).
#[local] Abbreviation slope := (Orbits.slope e).
#[local] Abbreviation newton := (Orbits.newton e M).

Lemma slope_bounds (E : R) : 0.01 <= slope E <= 1.99.
Proof. unfold Orbits.slope. pose proof (COS_bound E). generalize dependent (cos E). intros c Hc. nra. Qed.

Lemma residual_newton (E : R) :
  residual (newton E)
  = e * (sin E - sin (E + - (residual E / slope E)) + - (residual E / slope E) * cos E).
Proof.
  pose proof (slope_bounds E) as Hs.
  unfold Orbits.newton. set (d := residual E / slope E).
  assert (Hd : residual E = d * slope E) by (unfold d; field; lra).
  unfold Orbits.residual, Orbits.slope in *. change (E - d) with (E + - d). lra.
Qed.

(** After a step the residual is at most [e] times the square of the step. *)
Lemma residual_after_step (E : R) :
  Rabs (residual (newton E)) <= e * (residual E / slope E) ^ 2.
Proof.
  rewrite residual_newton. set (d := residual E / slope E).
  rewrite Rabs_mult, (Rabs_pos_eq e) by lra.
  pose proof (sin_tangent_error E (- d)) as H.
  replace (sin E - sin (E + - d) + - d * cos E)
    with (- (sin (E + - d) - sin E - - d * cos E)) by ring.
  rewrite Rabs_Ropp. 
  assert (Rabs (sin (E + - d) - sin E - - d * cos E) <= d ^ 2) by nra.
  pose proof (Rabs_pos (sin (E + - d) - sin E - - d * cos E)). nra.
Qed.

Lemma residual_mono (E1 E2 : R) : E1 <= E2 -> residual E1 <= residual E2.
Proof.
  intros H. unfold Orbits.residual. pose proof (sin_Lipschitz E1 E2) as HL.
  rewrite (Rabs_pos_eq (E2 - E1)) in HL by lra.
  apply Rabs_le_inv in HL. nra.
Qed.

(** On [[0, π]] the residual lies above each of its tangents. *)
Lemma residual_above_tangent (a b : R) :
  0 <= a <= PI -> 0 <= b <= PI -> residual a + slope a * (b - a) <= residual b.
Proof.
  intros Ha Hb. pose proof (sin_below_tangent a b Ha Hb). unfold Orbits.residual, Orbits.slope. nra.
Qed.

Lemma sinc_decreasing (u v : R) :
  0 <= u -> u <= v -> v <= PI -> u * sin v <= v * sin u.
Proof.
  intros H0 Huv Hv.
  pose proof (sin_below_tangent u v ltac:(lra) ltac:(lra)) as H1.
  pose proof (sin_below_tangent u 0 ltac:(lra) ltac:(pose proof PI_RGT_0; lra)) as H2.
  rewrite sin_0 in H2.
  generalize dependent (sin u). generalize dependent (cos u). generalize dependent (sin v).
  intros sv c su H1 H2.
  assert (u * sv <= u * su + u * c * (v - u)) by nra.
  assert (u * c * (v - u) <= su * (v - u)) by nra.
  lra.
Qed.

Lemma quarter_slope (v : R) :
  0 <= v <= PI -> v * slope v / 4 <= v - e * sin v.
Proof.
  intros Hv. unfold Orbits.slope.
  assert (Hpsi : 0 <= 3 / 4 * v - sin v + v / 4 * cos v).
  { destruct (Rle_dec v 2) as [H2 | H2].
    - pose proof (sin_poly_bounds v Hv) as [_ Hs]. pose proof (cos_ge_quad v) as Hc.
      generalize dependent (sin v). generalize dependent (cos v). intros c Hc s Hs.
      assert (0 <= v ^ 3 * (5 - v ^ 2)) by (apply Rmult_le_pos; [apply pow_le | ]; nra).
      assert (v / 4 * (1 - v ^ 2 / 2) <= v / 4 * c) by (apply Rmult_le_compat_l; lra).
      nra.
    - pose proof (SIN_bound v). pose proof (COS_bound v).
      generalize dependent (sin v). generalize dependent (cos v). intros c Hc s Hs. nra. }
  generalize dependent (sin v). generalize dependent (cos v). intros c s Hpsi. nra.
Qed.

(** The phase of monotone convergence: from a point of [[0, π]] with a
    residual that is not negative, a step stays in that region and takes a
    quarter off the residual. *)
Lemma newton_monotone_phase (E : R) :
  0 <= M -> 0 <= E <= PI -> 0 <= residual E ->
  0 <= newton E <= E /\ 0 <= residual (newton E) <= 3 / 4 * residual E.
Proof.
  intros HM HE Hr.
  pose proof (slope_bounds E) as Hs.
  assert (Hd : residual E = (E - newton E) * slope E) by (unfold Orbits.newton; field; lra).
  assert (Hle : newton E <= E).
  { unfold Orbits.newton. assert (0 <= residual E / slope E); [| lra].
    apply Rmult_le_pos; [exact Hr | left; apply Rinv_0_lt_compat; lra]. }
  assert (H0 : 0 <= newton E).
  { pose proof (residual_above_tangent E 0 HE ltac:(lra)) as Ht.
    unfold Orbits.residual at 2 in Ht. rewrite sin_0 in Ht. nra. }
  split; [split; assumption |].
  pose proof (residual_above_tangent E (newton E) HE ltac:(lra)) as Ht.
  split; [nra |].
  destruct HE as [[HE0 | <-] HE1].
  - pose proof (sinc_decreasing (newton E) E H0 Hle HE1) as Hsinc.
    pose proof (quarter_slope E ltac:(lra)) as Hq.
    assert (Hdiff : (E - newton E) * (E - e * sin E) <= E * (residual E - residual (newton E))).
    { unfold Orbits.residual. destruct He as [He0 _]. nra. }
    assert (Hq' : (E - newton E) * (E * slope E / 4) <= (E - newton E) * (E - e * sin E))
      by (apply Rmult_le_compat_l; lra).
    assert (E * (residual E / 4) <= E * (residual E - residual (newton E))) by nra.
    apply Rmult_le_reg_l in H; lra.
  - assert (Hn : newton 0 = 0) by lra. rewrite Hn.
    unfold Orbits.residual in *. rewrite sin_0 in *. lra.
Qed.

(** *** The first steps from the seed [M + e * sin M] *)

Lemma seed_in_range : 0 <= M <= PI -> 0 <= M + e * sin M <= PI.
Proof.
  intros HM. pose proof (sin_ge_0 M ltac:(lra) ltac:(lra)) as Hs0.
  pose proof (sin_le_x (PI - M) ltac:(lra)) as Hs1. rewrite sin_PI_x in Hs1.
  destruct He. split; nra.
Qed.

(** A step from the left of the root (negative residual) inside [[0, π]]
    lands on the right of it. *)
Lemma newton_from_left (E : R) :
  0 <= M <= PI -> 0 <= E <= PI -> residual E < 0 ->
  E < newton E /\ (newton E <= PI -> 0 <= residual (newton E)).
Proof.
  intros HM HE Hr. pose proof (slope_bounds E) as Hs.
  assert (Hd : residual E = (E - newton E) * slope E) by (unfold Orbits.newton; field; lra).
  split; [nra |]. intros Hle.
  pose proof (residual_above_tangent E (newton E) HE ltac:(nra)) as Ht. nra.
Qed.

(** For a mean anomaly of at least 0.3 the first step does not pass [π]. *)
Lemma first_step_large_M :
  0.3 <= M <= PI -> residual (M + e * sin M) < 0 -> newton (M + e * sin M) <= PI.
Proof.
  intros HM Hr. pose proof PI_gt_314 as Hpi.
  pose proof (seed_in_range ltac:(lra)) as Hu.
  pose proof (sin_ge_0 M ltac:(lra) ltac:(lra)) as HsM.
  set (u := M + e * sin M) in *.
  assert (HMu : M <= u) by (unfold u; destruct He; nra).
  pose proof (slope_bounds u) as Hs.
  assert (Hgoal : - residual u <= (PI - u) * slope u);
    [| unfold Orbits.newton; apply Rmult_le_reg_r with (slope u); [lra |];
       replace ((u - residual u / slope u) * slope u)
         with (u * slope u - residual u) by (field; lra); lra].
  assert (Hres : - residual u = e * (sin u - sin M)) by (unfold Orbits.residual, u; ring).
  assert (Hpos : 0 < sin u - sin M) by (destruct He; nra).
  destruct (Rle_dec (PI / 2) u) as [Hhigh | Hlow].
  - (* the slope is at least 1 and the drop at most [sin u <= π - u] *)
    pose proof (cos_le_0 u Hhigh ltac:(lra)) as Hc.
    pose proof (sin_le_x (PI - u) ltac:(lra)) as Hsu. rewrite sin_PI_x in Hsu.
    unfold Orbits.slope in *. rewrite Hres. destruct He.
    assert (e * (sin u - sin M) <= sin u - sin M) by nra.
    assert ((PI - u) * 1 <= (PI - u) * (1 - e * cos u)) by (apply Rmult_le_compat_l; nra).
    lra.
  - assert (Hu2 : u < PI / 2) by lra.
    pose proof (sin_poly_bounds 0.3 ltac:(lra)) as [Hs03 _].
    assert (Hs03' : 0.2955 <= sin 0.3) by lra.
    assert (HsM' : sin 0.3 <= sin M) by (apply sin_incr_1; lra).
    pose proof (sin_le_x u ltac:(lra)) as Hsu.
    pose proof (SIN_bound u) as [_ Hsu1].
    pose proof (cos_poly_bounds u ltac:(lra)) as [_ Hcu].
    pose proof (cos_ge_0 u ltac:(lra) ltac:(lra)) as Hcu0.
    rewrite Hres. unfold Orbits.slope in *.
    assert (H1 : e * (sin u - sin M) <= sin u - 0.2955) by (destruct He; nra).
    assert (H2 : 1 - cos u <= 1 - e * cos u) by (destruct He; nra).
    assert (H3 : (PI - u) * (1 - cos u) <= (PI - u) * (1 - e * cos u))
      by (apply Rmult_le_compat_l; lra).
    assert (Hu0 : 0.3 <= u) by lra. assert (Hu1 : u <= 2) by (pose proof PI_4; lra).
    pose proof (poly_cos_gap_nonneg u ltac:(lra)) as Hgap.
    assert (H4 : (3.14 - u) * (u ^ 2 / 2 - u ^ 4 / 24) <= (PI - u) * (1 - cos u)).
    { apply Rmult_le_compat; lra. }
    assert (H5 : sin u - 0.2955 <= (3.14 - u) * (u ^ 2 / 2 - u ^ 4 / 24)).
    { destruct (Rle_dec u 1) as [Hle1 | Hgt1].
      - pose proof (first_step_poly_low u ltac:(lra)). lra.
      - pose proof (first_step_poly_high u ltac:(lra)). lra. }
    lra.
Qed.

(** For a mean anomaly of at most 0.3 the first step passes [π] by at most
    0.8. *)
Lemma first_step_small_M :
  0 <= M <= 0.3 -> residual (M + e * sin M) < 0 -> newton (M + e * sin M) <= PI + 0.8.
Proof.
  intros HM Hr. pose proof PI_gt_314 as Hpi. destruct He as [He0 He1].
  pose proof (sin_le_x M ltac:(lra)) as HsM1.
  pose proof (sin_poly_bounds M ltac:(lra)) as [HsM0 _].
  assert (HsM : 0.985 * M <= sin M) by nra.
  set (u := M + e * sin M) in *.
  assert (Hu0 : M * (1 + 0.985 * e) <= u) by (unfold u; nra).
  assert (Hu1 : u <= 1.99 * M) by (unfold u; nra).
  assert (HMu : M <= u) by (unfold u; nra).
  pose proof (slope_bounds u) as Hs.
  assert (Hgoal : - residual u <= (PI + 0.8 - u) * slope u);
    [| unfold Orbits.newton; apply Rmult_le_reg_r with (slope u); [lra |];
       replace ((u - residual u / slope u) * slope u)
         with (u * slope u - residual u) by (field; lra); lra].
  assert (Hres : - residual u <= e ^ 2 * M).
  { replace (- residual u) with (e * (sin u - sin M)) by (unfold Orbits.residual, u; ring).
    pose proof (sin_Lipschitz M u) as HL. rewrite (Rabs_pos_eq (u - M)) in HL by lra.
    apply Rabs_le_inv in HL. replace (u - M) with (e * sin M) in HL by (unfold u; ring).
    assert (e * (sin u - sin M) <= e * (e * sin M)) by (apply Rmult_le_compat_l; lra).
    assert (e * (e * sin M) <= e * (e * M)) by (repeat apply Rmult_le_compat_l; lra).
    lra. }
  assert (Hslope : 1 - e + 0.485 * e * (1 + 0.985 * e) ^ 2 * M ^ 2 <= slope u).
  { unfold Orbits.slope. pose proof (cos_poly_bounds u ltac:(lra)) as [_ Hc].
    assert (Hsq : (M * (1 + 0.985 * e)) ^ 2 <= u ^ 2) by (apply pow_incr; nra).
    assert (Hu4 : u ^ 4 / 24 <= 0.015 * u ^ 2).
    { assert (u ^ 2 <= 0.36) by nra. assert (0 <= u ^ 2) by nra.
      replace (u ^ 4) with (u ^ 2 * u ^ 2) by ring. nra. }
    assert (Hc' : cos u <= 1 - 0.485 * u ^ 2) by lra.
    assert (e * cos u <= e * (1 - 0.485 * u ^ 2)) by (apply Rmult_le_compat_l; lra).
    assert (0.485 * e * (M * (1 + 0.985 * e)) ^ 2 <= 0.485 * e * u ^ 2)
      by (apply Rmult_le_compat_l; nra).
    replace (0.485 * e * (1 + 0.985 * e) ^ 2 * M ^ 2)
      with (0.485 * e * (M * (1 + 0.985 * e)) ^ 2) by ring.
    lra. }
  assert (Hk : 0 < 3.94 - 1.99 * M <= PI + 0.8 - u) by lra.
  pose proof (first_step_poly e M ltac:(lra) HM) as Hmain.
  assert (Hc0 : 0 <= 0.485 * e * (1 + 0.985 * e) ^ 2 * M ^ 2).
  { apply Rmult_le_pos; [apply Rmult_le_pos; [lra | apply pow2_ge_0] | apply pow2_ge_0]. }
  assert ((3.94 - 1.99 * M) * (1 - e + 0.485 * e * (1 + 0.985 * e) ^ 2 * M ^ 2)
          <= (PI + 0.8 - u) * slope u).
  { apply Rmult_le_compat; lra. }
  lra.
Qed.

(** A first step that passed [π] is followed by a step back into [[0, π]],
    to the right of the root. *)
Lemma second_step_back (E : R) :
  0 <= M <= 0.3 -> PI < E <= PI + 0.8 ->
  0 <= newton E <= PI /\ 0 <= residual (newton E).
Proof.
  intros HM HE. pose proof PI_gt_314 as Hpi. destruct He as [He0 He1].
  pose proof (slope_bounds E) as Hs.
  remember (E - PI) as t eqn:Heqt.
  assert (Ht : 0 <= t <= 0.8) by lra.
  assert (HEt : E = t + PI) by lra.
  assert (Hsin : sin E = - sin t) by (rewrite HEt; apply neg_sin).
  assert (Hcos : cos E = - cos t) by (rewrite HEt; apply neg_cos).
  pose proof (sin_le_x t ltac:(lra)) as Hst1.
  pose proof (sin_ge_0 t ltac:(lra) ltac:(lra)) as Hst0.
  pose proof (cos_ge_quad t) as Hct0.
  pose proof (COS_bound t) as [_ Hct1].
  pose proof (second_step_poly t Ht) as Hp.
  assert (Hres : residual E = PI + t + e * sin t - M) by (unfold Orbits.residual; rewrite Hsin; lra).
  assert (Hslope : slope E = 1 + e * cos t) by (unfold Orbits.slope; rewrite Hcos; ring).
  assert (Hct : 0 < cos t) by nra.
  assert (Hlow : M + e <= newton E).
  { unfold Orbits.newton. apply Rmult_le_reg_r with (slope E); [lra |].
    replace ((E - residual E / slope E) * slope E)
      with (E * slope E - residual E) by (field; lra).
    rewrite Hres, Hslope. rewrite HEt.
    assert (Hb : 1 + sin t <= (PI + t - M - e) * cos t).
    { assert ((1.85 + t) * (1 - t ^ 2 / 2) <= (PI + t - M - e) * cos t)
        by (apply Rmult_le_compat; nra).
      lra. }
    nra. }
  assert (Hhigh : newton E <= PI).
  { unfold Orbits.newton. apply Rmult_le_reg_r with (slope E); [lra |].
    replace ((E - residual E / slope E) * slope E)
      with (E * slope E - residual E) by (field; lra).
    rewrite Hres, Hslope. rewrite HEt.
    assert (e * (t * cos t) <= 1 * (0.8 * 1)) by (repeat apply Rmult_le_compat; nra).
    assert (0 <= e * sin t) by nra. nra. }
  split; [split; lra |].
  unfold Orbits.residual. pose proof (SIN_bound (newton E)) as [_ Hs1].
  assert (e * sin (newton E) <= e * 1) by (apply Rmult_le_compat_l; lra). lra.
Qed.

End Newton.

(** ** orbits.js *)

Section OrbitsProperties.
Import Orbits.

Lemma sin_sqr_cos_sqr (t : R) : sin t * sin t + cos t * cos t = 1.
Proof. exact (sin2_cos2 t). Qed.

(** The rotation from the orbital plane to the ecliptic keeps lengths. *)
Lemma rotation_keeps_length (cosOmega sinOmega cosI sinI cosW sinW xPrime yPrime : R) :
  sinOmega * sinOmega + cosOmega * cosOmega = 1 ->
  sinI * sinI + cosI * cosI = 1 ->
  sinW * sinW + cosW * cosW = 1 ->
  let x := (cosOmega * cosW - sinOmega * sinW * cosI) * xPrime +
           (- cosOmega * sinW - sinOmega * cosW * cosI) * yPrime in
  let y := (sinOmega * cosW + cosOmega * sinW * cosI) * xPrime +
           (- sinOmega * sinW + cosOmega * cosW * cosI) * yPrime in
  let z := (sinW * sinI) * xPrime + (cosW * sinI) * yPrime in
  x * x + y * y + z * z = xPrime * xPrime + yPrime * yPrime.
Proof.
  intros HO HI HW. cbv zeta.
  pose (h1 := sinOmega * sinOmega + cosOmega * cosOmega - 1).
  pose (h2 := sinI * sinI + cosI * cosI - 1).
  pose (h3 := sinW * sinW + cosW * cosW - 1).
  match goal with
  | |- ?lhs = ?rhs =>
      replace lhs with
        (rhs
         + (h1 * (cosW * cosW + sinW * sinW * cosI * cosI) + sinW * sinW * h2 + h3)
           * (xPrime * xPrime)
         + (h1 * (sinW * sinW + cosW * cosW * cosI * cosI) + cosW * cosW * h2 + h3)
           * (yPrime * yPrime)
         + 2 * (h1 * (sinW * cosW * (cosI * cosI - 1)) + sinW * cosW * h2)
           * (xPrime * yPrime))
        by (unfold h1, h2, h3; ring)
  end.
  assert (H1 : h1 = 0) by (unfold h1; lra).
  assert (H2 : h2 = 0) by (unfold h2; lra).
  assert (H3 : h3 = 0) by (unfold h3; lra).
  rewrite H1, H2, H3. ring.
Qed.

Lemma solveKepler_loop_defined (n : nat) (M e tolerance E : R) :
  -1 < e < 1 -> is_Some (solveKepler_loop n M e tolerance E).
Proof.
  intros He. revert E. induction n as [| n IH]; intros E; simpl; [eauto |].
  assert (Hd : 1 - e * cos E <> 0).
  { pose proof (COS_bound E) as [Hlo Hhi]. generalize dependent (cos E). intros c Hlo Hhi.
    destruct (Rle_dec 0 e).
    - assert (e * c <= e * 1) by (apply Rmult_le_compat_l; lra). lra.
    - assert (- e * - c <= - e * 1) by (apply Rmult_le_compat_l; lra). lra. }
  rewrite divide_Some by exact Hd. simpl.
  destruct (Rlt_dec _ _); [eauto | apply IH].
Qed.

Lemma solveKepler_defined (M e : R) (tolerance : option R) :
  -1 < e < 1 -> is_Some (solveKepler M e tolerance).
Proof. intros He. unfold solveKepler. apply solveKepler_loop_defined. exact He. Qed.

(** *** solveKepler: the normalisation of the mean anomaly *)

Lemma truncate_bounds (q : R) :
  (0 <= q -> IZR (truncate q) <= q < IZR (truncate q) + 1) /\
  (q < 0 -> IZR (truncate q) - 1 < q <= IZR (truncate q)).
Proof.
  unfold truncate. destruct (Rle_dec 0 q) as [Hq | Hq]; split; intros Hq'; try lra.
  - pose proof (base_Int_part q). lra.
  - pose proof (base_Int_part (- q)). rewrite opp_IZR. lra.
Qed.

Lemma normalized_spec (M : R) :
  exists j : Z, normalized M = M - 2 * PI * IZR j /\ 0 <= normalized M < 2 * PI.
Proof.
  pose proof PI_RGT_0 as Hpi.
  unfold normalized, remainder.
  set (q := M / (2 * PI)).
  assert (HM : M = 2 * PI * q) by (unfold q; field; lra).
  destruct (truncate_bounds q) as [Hpos Hneg].
  set (t := truncate q) in *.
  destruct (Rle_dec 0 q) as [Hq | Hq].
  - specialize (Hpos Hq).
    assert (Hm : 0 <= M - 2 * PI * IZR t < 2 * PI) by (rewrite HM; nra).
    destruct (Rlt_dec _ _); [lra |]. exists t. split; [reflexivity | exact Hm].
  - assert (Hq' : q < 0) by lra. specialize (Hneg Hq').
    assert (Hm : - (2 * PI) < M - 2 * PI * IZR t <= 0) by (rewrite HM; nra).
    destruct (Rlt_dec _ _).
    + exists (t - 1)%Z. rewrite minus_IZR. split; [ring | lra].
    + exists t. split; [reflexivity | lra].
Qed.

Lemma normalized_period (M : R) (k : Z) :
  normalized (M + 2 * PI * IZR k) = normalized M.
Proof.
  pose proof PI_RGT_0 as Hpi.
  destruct (normalized_spec M) as (j1 & H1 & B1).
  destruct (normalized_spec (M + 2 * PI * IZR k)) as (j2 & H2 & B2).
  assert (Hdiff : normalized (M + 2 * PI * IZR k) - normalized M
                  = 2 * PI * IZR (k - j2 + j1)).
  { rewrite H1, H2, plus_IZR, minus_IZR. ring. }
  assert (Hzero : (k - j2 + j1)%Z = 0%Z).
  { assert (IZR (-1) < IZR (k - j2 + j1) < IZR 1) as [Hlo Hhi] by (split; nra).
    apply lt_IZR in Hlo, Hhi. lia. }
  rewrite Hzero in Hdiff. lra.
Qed.

(** *** solveKepler: convergence *)

Section KeplerConvergence.
Variables e : R.
Hypothesis He : 0 <= e <= 0.99.

Lemma solveKepler_loop_step (n : nat) (M tolerance E : R) :
  solveKepler_loop (S n) M e tolerance E
  = if Rlt_dec (Rabs (residual e M E / slope e E)) tolerance
    then Some (newton e M E)
    else solveKepler_loop n M e tolerance (newton e M E).
Proof.
  pose proof (slope_bounds e He E) as Hs. unfold slope in Hs.
  simpl. rewrite divide_Some by lra. reflexivity.
Qed.

(** A step that stops the loop leaves a residual of at most [e * tolerance²]. *)
Lemma residual_at_break (M tolerance E : R) :
  Rabs (residual e M E / slope e E) < tolerance ->
  Rabs (residual e M (newton e M E)) <= e * (Rmax tolerance 0) ^ 2.
Proof.
  intros Hd. pose proof (residual_after_step e M He E) as Hr.
  pose proof (Rabs_pos (residual e M E / slope e E)) as H0.
  pose proof (Rmax_l tolerance 0) as Hmax.
  assert ((residual e M E / slope e E) ^ 2 <= (Rmax tolerance 0) ^ 2).
  { rewrite <- (pow2_abs (residual e M E / slope e E)). apply pow_incr. lra. }
  destruct He. nra.
Qed.

(** From the phase of monotone convergence, [n + 1] turns of the loop end
    with a residual bounded by the square of the larger of the tolerance and
    [100 * (3/4)^n * r], where [r] bounds the residual at the start. *)
Lemma solveKepler_loop_monotone_phase (n : nat) (M tolerance r E : R) :
  0 <= M -> 0 <= E <= PI -> 0 <= residual e M E <= r ->
  exists X : R,
    solveKepler_loop (S n) M e tolerance E = Some X /\
    Rabs (residual e M X) <= e * (Rmax tolerance (100 * ((3 / 4) ^ n * r))) ^ 2.
Proof.
  intros HM. revert r E. induction n as [| n IH]; intros r E HE Hr.
  - exists (newton e M E). split.
    + rewrite solveKepler_loop_step. destruct (Rlt_dec _ _); reflexivity.
    + pose proof (residual_after_step e M He E) as Hres.
      pose proof (slope_bounds e He E) as Hs.
      set (d := residual e M E / slope e E) in *.
      assert (Hd0 : 0 <= d).
      { unfold d. apply Rmult_le_pos; [lra | left; apply Rinv_0_lt_compat; lra]. }
      assert (Hd1 : d <= 100 * r).
      { unfold d. apply Rmult_le_reg_r with (slope e E); [lra |].
        replace (residual e M E / slope e E * slope e E) with (residual e M E) by (field; lra).
        nra. }
      pose proof (Rmax_r tolerance (100 * ((3 / 4) ^ 0 * r))) as Hmax.
      rewrite pow_O, Rmult_1_l in *.
      assert (d ^ 2 <= (Rmax tolerance (100 * r)) ^ 2) by (apply pow_incr; lra).
      destruct He. nra.
  - rewrite solveKepler_loop_step. destruct (Rlt_dec _ _) as [Hbreak | Hgo].
    + exists (newton e M E). split; [reflexivity |].
      pose proof (residual_at_break M tolerance E Hbreak) as Hb.
      pose proof (Rabs_pos (residual e M E / slope e E)) as H0.
      pose proof (Rmax_l tolerance (100 * ((3 / 4) ^ S n * r))) as Hmax.
      pose proof (residual_after_step e M He E) as Hres.
      assert ((residual e M E / slope e E) ^ 2
              <= (Rmax tolerance (100 * ((3 / 4) ^ S n * r))) ^ 2).
      { rewrite <- (pow2_abs (residual e M E / slope e E)). apply pow_incr. lra. }
      destruct He. nra.
    + destruct (newton_monotone_phase e M He E HM HE ltac:(lra)) as [HE' Hr'].
      destruct (IH (3 / 4 * r) (newton e M E) ltac:(lra) ltac:(lra)) as [X [HX Hbound]].
      exists X. split; [exact HX |].
      replace (100 * ((3 / 4) ^ S n * r)) with (100 * ((3 / 4) ^ n * (3 / 4 * r)))
        by (simpl; ring).
      exact Hbound.
Qed.

Lemma residual_le_PI (M E : R) : 0 <= M -> 0 <= E <= PI -> residual e M E <= PI.
Proof.
  intros HM HE. unfold residual. pose proof (sin_ge_0 E ltac:(lra) ltac:(lra)).
  destruct He. nra.
Qed.

Lemma three_quarters_pow_47 : (3 / 4) ^ 47 <= 1.35e-6.
Proof. simpl. lra. Qed.

Lemma residual_bound_small (n : nat) (r : R) :
  0 <= r <= PI -> (3 / 4) ^ n <= 1.35e-6 ->
  e * (Rmax 1e-8 (100 * ((3 / 4) ^ n * r))) ^ 2 < 1e-6.
Proof.
  intros Hr Hn. pose proof PI_4 as Hpi.
  assert (Hp : 0 <= (3 / 4) ^ n) by (apply pow_le; lra).
  assert (Hprod : (3 / 4) ^ n * r <= 1.35e-6 * 4) by (apply Rmult_le_compat; lra).
  assert (Hprod0 : 0 <= (3 / 4) ^ n * r) by (apply Rmult_le_pos; lra).
  assert (Hmax : 0 <= Rmax 1e-8 (100 * ((3 / 4) ^ n * r)) <= 5.4e-4).
  { split; [eapply Rle_trans; [| apply Rmax_l]; lra | apply Rmax_lub; lra]. }
  set (b := Rmax 1e-8 (100 * ((3 / 4) ^ n * r))) in *.
  assert (b ^ 2 <= 5.4e-4 ^ 2) by (apply pow_incr; lra).
  assert (e * b ^ 2 <= 0.99 * 5.4e-4 ^ 2).
  { apply Rmult_le_compat; try lra. apply pow2_ge_0. }
  lra.
Qed.

Lemma residual_bound_break : e * (Rmax 1e-8 0) ^ 2 < 1e-6.
Proof.
  replace (Rmax 1e-8 0) with 1e-8 by (symmetry; apply Rmax_left; lra).
  destruct He. nra.
Qed.

(** For a mean anomaly in [[0, π]]: the fifty turns from the seed end with a
    residual below [1e-6]. *)
Lemma solveKepler_loop_from_seed (M : R) :
  0 <= M <= PI ->
  exists X : R,
    solveKepler_loop 50 M e 1e-8 (M + e * sin M) = Some X /\
    Rabs (residual e M X) < 1e-6.
Proof.
  intros HM. pose proof (seed_in_range e M He HM) as HE0.
  pose proof three_quarters_pow_47 as H47.
  assert (H48 : (3 / 4) ^ 48 <= 1.35e-6) by (change 48%nat with (S 47); simpl pow at 1; lra).
  assert (H49 : (3 / 4) ^ 49 <= 1.35e-6)
    by (change 49%nat with (S 48); simpl pow at 1; lra).
  set (E0 := M + e * sin M) in *.
  destruct (Rle_dec 0 (residual e M E0)) as [Hright | Hleft].
  - (* the seed is to the right of the root *)
    destruct (solveKepler_loop_monotone_phase 49 M 1e-8 PI E0 ltac:(lra) HE0)
      as [X [HX Hb]].
    { split; [exact Hright | apply residual_le_PI; lra]. }
    exists X. split; [exact HX |].
    eapply Rle_lt_trans; [exact Hb |]. apply residual_bound_small; [| exact H49].
    pose proof PI_RGT_0. lra.
  - (* the seed is to the left of the root *)
    assert (Hneg : residual e M E0 < 0) by lra.
    destruct (newton_from_left e M He E0 HM HE0 Hneg) as [Hup Hres1].
    change 50%nat with (S 49). rewrite solveKepler_loop_step.
    destruct (Rlt_dec _ _) as [Hbreak | Hgo].
    { exists (newton e M E0). split; [reflexivity |].
      eapply Rle_lt_trans; [apply residual_at_break; exact Hbreak |].
      apply residual_bound_break. }
    set (E1 := newton e M E0) in *.
    destruct (Rle_dec E1 PI) as [Hin | Hout].
    + destruct (solveKepler_loop_monotone_phase 48 M 1e-8 PI E1 ltac:(lra) ltac:(lra))
        as [X [HX Hb]].
      { split; [apply Hres1; exact Hin | apply residual_le_PI; lra]. }
      exists X. split; [exact HX |].
      eapply Rle_lt_trans; [exact Hb |]. apply residual_bound_small; [| exact H48].
      pose proof PI_RGT_0. lra.
    + (* the first step passed [π]: the second brings the iterate back *)
      assert (HM03 : M <= 0.3).
      { destruct (Rle_dec M 0.3) as [Hs | Hl]; [exact Hs |].
        pose proof (first_step_large_M e M He ltac:(lra) Hneg). fold E0 E1 in H. lra. }
      pose proof (first_step_small_M e M He ltac:(lra) Hneg) as Hfar. fold E0 E1 in Hfar.
      destruct (second_step_back e M He E1 ltac:(lra) ltac:(lra)) as [HE2 Hres2].
      change 49%nat with (S 48). rewrite solveKepler_loop_step.
      destruct (Rlt_dec _ _) as [Hbreak2 | Hgo2].
      { exists (newton e M E1). split; [reflexivity |].
        eapply Rle_lt_trans; [apply residual_at_break; exact Hbreak2 |].
        apply residual_bound_break. }
      destruct (solveKepler_loop_monotone_phase 47 M 1e-8 PI (newton e M E1)
                  ltac:(lra) HE2) as [X [HX Hb]].
      { split; [exact Hres2 | apply residual_le_PI; lra]. }
      exists X. split; [exact HX |].
      eapply Rle_lt_trans; [exact Hb |]. apply residual_bound_small; [| exact H47].
      pose proof PI_RGT_0. lra.
Qed.

End KeplerConvergence.

(** The loop commutes with the reflection [E ↦ 2π - E], [M ↦ 2π - M]. *)
Lemma solveKepler_loop_reflect (n : nat) (M e tolerance E : R) :
  solveKepler_loop n (2 * PI - M) e tolerance (2 * PI - E)
  = (fun X => 2 * PI - X) <$> solveKepler_loop n M e tolerance E.
Proof.
  revert E. induction n as [| n IH]; intros E; simpl; [reflexivity |].
  assert (Hsin : sin (2 * PI - E) = - sin E)
    by (rewrite sin_minus, sin_2PI, cos_2PI; ring).
  assert (Hcos : cos (2 * PI - E) = cos E)
    by (rewrite cos_minus, sin_2PI, cos_2PI; ring).
  rewrite Hsin, Hcos. unfold divide.
  destruct (Req_dec_T (1 - e * cos E) 0) as [Hz | Hnz]; simpl; [reflexivity |].
  replace ((2 * PI - E - e * - sin E - (2 * PI - M)) / (1 - e * cos E))
    with (- ((E - e * sin E - M) / (1 - e * cos E))) by (field; exact Hnz).
  rewrite Rabs_Ropp.
  replace (2 * PI - E - - ((E - e * sin E - M) / (1 - e * cos E)))
    with (2 * PI - (E - (E - e * sin E - M) / (1 - e * cos E))) by ring.
  destruct (Rlt_dec _ _); [reflexivity | apply IH].
Qed.

Lemma normalized_id (M : R) : 0 <= M < 2 * PI -> normalized M = M.
Proof.
  intros HM. pose proof PI_RGT_0 as Hpi.
  destruct (normalized_spec M) as (j & Hj & Hb).
  assert (Hzero : j = 0%Z).
  { assert (IZR (-1) < IZR j < IZR 1) as [Hlo Hhi] by (split; nra).
    apply lt_IZR in Hlo, Hhi. lia. }
  rewrite Hj, Hzero. lra.
Qed.

(** C3 (convergence).  For an eccentricity in [[0, 0.99]] and a mean anomaly
    in [[0, 2π)], [solveKepler] with its default tolerance returns a value
    [E], and [|M - (E - e sin E)| < 1e-6]. *)
Theorem solveKepler_residual_bound (M e : R) :
  0 <= e <= 0.99 -> 0 <= M < 2 * PI ->
  exists E : R,
    solveKepler M e None = Some E /\
    Rabs (M - (E - e * sin E)) < 1e-6.
Proof.
  intros He HM. pose proof PI_RGT_0 as Hpi.
  unfold solveKepler. cbv zeta. fold (normalized M). rewrite (normalized_id M HM).
  simpl default.
  destruct (Rle_dec M PI) as [Hlow | Hhigh].
  - destruct (solveKepler_loop_from_seed e He M ltac:(lra)) as [X [HX Hb]].
    exists X. split; [exact HX |].
    replace (M - (X - e * sin X)) with (- residual e M X) by (unfold residual; ring).
    rewrite Rabs_Ropp. exact Hb.
  - destruct (solveKepler_loop_from_seed e He (2 * PI - M) ltac:(lra)) as [X [HX Hb]].
    assert (Hsin : sin (2 * PI - M) = - sin M)
      by (rewrite sin_minus, sin_2PI, cos_2PI; ring).
    exists (2 * PI - X). split.
    + replace (M + e * sin M) with (2 * PI - (2 * PI - M + e * sin (2 * PI - M)))
        by (rewrite Hsin; ring).
      replace M with (2 * PI - (2 * PI - M)) at 1 by ring.
      rewrite solveKepler_loop_reflect, HX. reflexivity.
    + assert (HsinX : sin (2 * PI - X) = - sin X)
        by (rewrite sin_minus, sin_2PI, cos_2PI; ring).
      rewrite HsinX.
      replace (M - (2 * PI - X - e * - sin X)) with (residual e (2 * PI - M) X)
        by (unfold residual; ring).
      exact Hb.
Qed.

(** *** computePosition *)

(** C8 (circular orbit).  When the eccentricity at the date is [0] (and the
    semi-major axis at the date, a length, is not negative), [computePosition]
    returns a position whose distance from the origin is that semi-major
    axis. *)
Theorem computePosition_circular_orbit (elements : OrbitalElements) (date : Date) :
  let T := centuriesSinceJ2000 (julianDate date) in
  e elements + eRate elements * T = 0 ->
  0 <= a elements + aRate elements * T ->
  exists p : Vec3,
    computePosition elements date = Some p /\
    norm p = a elements + aRate elements * T.
Proof.
  intros T He Ha. unfold computePosition. cbv zeta. fold T. rewrite He.
  destruct (solveKepler_defined
              ((L elements + LRate elements * T) * DEG2RAD
               - (wBar elements + wBarRate elements * T) * DEG2RAD) 0 None)
    as [E ->]; [lra |].
  simpl. eexists. split; [reflexivity |].
  unfold norm. cbn [x y z].
  rewrite rotation_keeps_length
    by apply sin_sqr_cos_sqr.
  replace (1 - 0 * 0) with 1 by ring. rewrite sqrt_1.
  set (r := a elements + aRate elements * T) in *.
  replace (r * (cos E - 0) * (r * (cos E - 0)) + r * 1 * sin E * (r * 1 * sin E))
    with (r * r * (Rsqr (sin E) + Rsqr (cos E))) by (unfold Rsqr; ring).
  rewrite sin2_cos2, Rmult_1_r. apply sqrt_square. exact Ha.
Qed.

(** *** computeOrbitPath *)

Lemma forOf_push {A B : Type} (step : A -> list B -> option (list B)) (f : A -> B)
    (l : list A) (acc : list B) :
  (forall i pts, step i pts = Some (pts ++ [f i])) ->
  forOf l step acc = Some (acc ++ map f l).
Proof.
  intros Hstep. revert acc. induction l as [| i l IH]; intros acc; simpl.
  - rewrite app_nil_r. reflexivity.
  - rewrite Hstep. simpl. rewrite IH, <- app_assoc. reflexivity.
Qed.

End OrbitsProperties.

(** ** orbits.js on concrete inputs *)

Section OrbitsExamples.
Import Orbits Examples.

(** C3 at a concrete input: the eccentricity of Mercury and [M = 1]. *)
Lemma solveKepler_residual_bound_witness :
  exists E : R,
    solveKepler 1 0.20563593 None = Some E /\
    Rabs (1 - (E - 0.20563593 * sin E)) < 1e-6.
Proof.
  apply (solveKepler_residual_bound 1 0.20563593); [lra |].
  pose proof PI_gt_314. lra.
Defined.

(** C8 at a concrete input: the circular orbit of radius 1 AU at the epoch
    J2000.0. *)
Lemma computePosition_circular_orbit_witness :
  exists p : Vec3,
    computePosition circular 946728000000%Z = Some p /\
    norm p = a circular + aRate circular
                          * centuriesSinceJ2000 (julianDate 946728000000%Z).
Proof.
  apply (computePosition_circular_orbit circular 946728000000%Z); simpl; lra.
Defined.

End OrbitsExamples.


(** ** bodies.js: the two frames and the display radius *)

Section BodiesProperties.
Import Bodies.

Lemma sqrt_scaled (k s : R) : 0 <= k -> 0 <= s -> sqrt (k * k * s) = k * sqrt s.
Proof.
  intros Hk Hs. rewrite sqrt_mult by nra. rewrite sqrt_square by exact Hk. reflexivity.
Qed.

(** X1 (round trip).  [sceneToAU] undoes [auToScene], and [auToScene] undoes
    [sceneToAU]. *)
Theorem sceneToAU_auToScene (p : Vec3) :
  sceneToAU (auToScene p) = p /\ auToScene (sceneToAU p) = p.
Proof.
  destruct p as [px py pz]. unfold sceneToAU, auToScene, SCENE_SCALE. simpl.
  split; f_equal; field.
Qed.

(** X2 (scale).  The scene shows every AU distance [SCENE_SCALE] times as
    long: the axes are permuted and one is flipped, the lengths only scaled. *)
Theorem auToScene_distance (p q : Vec3) :
  norm (displacement (auToScene p) (auToScene q))
  = SCENE_SCALE * norm (displacement p q).
Proof.
  unfold norm, displacement, auToScene. cbn [x y z].
  rewrite <- sqrt_scaled; [| unfold SCENE_SCALE; lra | apply sum_sqr_nonneg].
  f_equal. ring.
Qed.

Lemma displayRadius_above (radiusKm : R) :
  0.3 <= 8 * sqrt (radiusKm / 696340) ->
  displayRadius radiusKm = 8 * sqrt (radiusKm / 696340).
Proof.
  intros H. unfold displayRadius, MIN_PLANET_RADIUS, SUN_DISPLAY_RADIUS, SUN_RADIUS_KM.
  cbv zeta. replace 8.0 with 8 by lra. apply Rmax_right. exact H.
Qed.

Lemma displayRadius_below (radiusKm : R) :
  8 * sqrt (radiusKm / 696340) <= 0.3 ->
  displayRadius radiusKm = 0.3.
Proof.
  intros H. unfold displayRadius, MIN_PLANET_RADIUS, SUN_DISPLAY_RADIUS, SUN_RADIUS_KM.
  cbv zeta. replace 8.0 with 8 by lra. apply Rmax_left. exact H.
Qed.

Lemma sqrt_ratio_floor (radiusKm : R) :
  0 <= radiusKm ->
  (8 * sqrt (radiusKm / 696340) <= 0.3 <-> radiusKm <= 979.228125).
Proof.
  intros Hr.
  assert (H0 : 0 <= radiusKm / 696340) by (apply Rmult_le_pos; lra).
  assert (Hs : sqrt (0.0375 * 0.0375) = 0.0375) by (apply sqrt_square; lra).
  split; intros H.
  - assert (Hle : sqrt (radiusKm / 696340) <= sqrt (0.0375 * 0.0375)) by lra.
    apply sqrt_le_0 in Hle; lra.
  - assert (Hle : sqrt (radiusKm / 696340) <= sqrt (0.0375 * 0.0375))
      by (apply sqrt_le_1; lra).
    lra.
Qed.

(** X3 (display radius: range and order).  For a radius that is not
    negative, [displayRadius] is at least [MIN_PLANET_RADIUS]; it grows with
    the radius; and a body no larger than the Sun is shown no larger than
    the Sun ([sunDisplayRadius]). *)
Theorem displayRadius_range (r1 r2 : R) :
  0 <= r1 <= r2 ->
  MIN_PLANET_RADIUS <= displayRadius r1 /\
  displayRadius r1 <= displayRadius r2 /\
  (r2 <= SUN_RADIUS_KM -> displayRadius r2 <= sunDisplayRadius).
Proof.
  intros [H1 H12].
  assert (Hsqrt : sqrt (r1 / SUN_RADIUS_KM) <= sqrt (r2 / SUN_RADIUS_KM)).
  { apply sqrt_le_1_alt. unfold SUN_RADIUS_KM. lra. }
  unfold displayRadius, sunDisplayRadius. cbv zeta. split; [apply Rmax_l |]. split.
  - apply Rle_max_compat_l. unfold SUN_DISPLAY_RADIUS. lra.
  - intros Hsun.
    assert (Hone : sqrt (r2 / SUN_RADIUS_KM) <= sqrt 1).
    { apply sqrt_le_1_alt. unfold SUN_RADIUS_KM in *. lra. }
    rewrite sqrt_1 in Hone.
    apply Rmax_lub; unfold MIN_PLANET_RADIUS, SUN_DISPLAY_RADIUS; lra.
Qed.

(** X4 (display radius: the floor).  The floor of [0.3] scene units is what
    [displayRadius] returns exactly for the radii up to 979.228125 km; a
    larger body is shown with [8 * sqrt (radiusKm / 696340)], so that four
    times the radius shows as twice the size. *)
Theorem displayRadius_floor (radiusKm : R) :
  0 <= radiusKm ->
  (radiusKm <= 979.228125 -> displayRadius radiusKm = MIN_PLANET_RADIUS) /\
  (979.228125 <= radiusKm ->
     displayRadius radiusKm = SUN_DISPLAY_RADIUS * sqrt (radiusKm / SUN_RADIUS_KM) /\
     displayRadius (4 * radiusKm) = 2 * displayRadius radiusKm).
Proof.
  intros Hr. pose proof (sqrt_ratio_floor radiusKm Hr) as Hfloor.
  unfold MIN_PLANET_RADIUS, SUN_DISPLAY_RADIUS, SUN_RADIUS_KM. split.
  - intros Hsmall. apply displayRadius_below. tauto.
  - intros Hlarge.
    assert (Hup : 0.3 <= 8 * sqrt (radiusKm / 696340)).
    { assert (Hs : sqrt (0.0375 * 0.0375) = 0.0375) by (apply sqrt_square; lra).
      assert (sqrt (0.0375 * 0.0375) <= sqrt (radiusKm / 696340))
        by (apply sqrt_le_1_alt; lra).
      lra. }
    assert (Hquad : sqrt (4 * radiusKm / 696340) = 2 * sqrt (radiusKm / 696340)).
    { replace (4 * radiusKm / 696340) with (2 * 2 * (radiusKm / 696340)) by field.
      apply sqrt_scaled; [lra | apply Rmult_le_pos; lra]. }
    split.
    + rewrite displayRadius_above by exact Hup. f_equal. lra.
    + rewrite !displayRadius_above; rewrite ?Hquad; lra.
Qed.

End BodiesProperties.


(** ** spacecraft.js: the nearest body, the net gravity, the frame of a step *)

Section SpacecraftQueries.
Context {three : Three}.
Import Bodies (Body, BodyData, data, name, GM_AU3_day2, auToScene).
Import Spacecraft.

(** *** findNearestBody *)

Lemma findNearestBody_step_run (pos : Vec3) (body : Body) (s : option Body * option R) :
  findNearestBody_step pos body s
  = Some (if lessThan (distanceTo pos body) (snd s)
          then (Some body, Some (distanceTo pos body)) else s).
Proof.
  unfold findNearestBody_step, distanceTo, norm, displacement. simpl.
  destruct (lessThan _ _); reflexivity.
Qed.

Lemma findNearestBody_loop (pos : Vec3) (bodies : list Body) :
  (bodies = [] /\
   forOf bodies (findNearestBody_step pos) (None, None) = Some (None, None)) \/
  (exists body : Body,
     firstNearest pos bodies body /\
     forOf bodies (findNearestBody_step pos) (None, None)
     = Some (Some body, Some (distanceTo pos body))).
Proof.
  induction bodies as [| c l IH] using rev_ind; [left; split; reflexivity |].
  right. rewrite forOf_app.
  destruct IH as [[-> ->] | (body & (before & after & -> & Hbefore & Hafter) & ->)].
  - exists c. split; [| reflexivity].
    exists [], []. repeat split; constructor.
  - cbn [mbind option_bind forOf]. rewrite findNearestBody_step_run. cbn [snd lessThan mbind option_bind].
    destruct (bool_decide_reflect (distanceTo pos c < distanceTo pos body)) as [Hlt | Hge].
    + exists c. split; [| reflexivity].
      exists (before ++ body :: after), []. split; [reflexivity |]. split; [| constructor].
      apply Forall_app. split; [| constructor].
      * eapply Forall_impl; [exact Hbefore |]. simpl. intros b Hb. lra.
      * exact Hlt.
      * eapply Forall_impl; [exact Hafter |]. simpl. intros b Hb. lra.
    + exists body. split; [| reflexivity].
      exists before, (after ++ [c]). split; [rewrite <- app_assoc; reflexivity |].
      split; [exact Hbefore |].
      apply Forall_app. split; [exact Hafter |]. constructor; [lra | constructor].
Qed.

Lemma findNearestBody_run (w : World) :
  findNearestBody w =
  s ← forOf (bodies w) (findNearestBody_step (positionAU (spacecraft w))) (None, None);
  Some (mkNearestBody (nameOrDash (fst s)) (snd s)
          ((fun minDist => minDist * AU_TO_KM) <$> snd s), w).
Proof.
  unfold findNearestBody, mbind, M_bind, gets, number. simpl.
  destruct (forOf _ _ _); reflexivity.
Qed.

(** X5 (nearest body).  With at least one body, [findNearestBody] reports
    the first of the bodies at the least distance from the craft: its name
    (the dash when the name is empty), that distance in AU and, times
    [AU_KM], in km.  The world is left as it was. *)
Theorem findNearestBody_first_nearest (w : World) :
  bodies w <> [] ->
  exists body : Body,
    firstNearest (positionAU (spacecraft w)) (bodies w) body /\
    findNearestBody w
    = Some (mkNearestBody
              (if decide (name (data body) = EmptyString) then "—" else name (data body))
              (Some (distanceTo (positionAU (spacecraft w)) body))
              (Some (distanceTo (positionAU (spacecraft w)) body * AU_KM)), w).
Proof.
  intros Hbodies. rewrite findNearestBody_run.
  destruct (findNearestBody_loop (positionAU (spacecraft w)) (bodies w))
    as [[Hnil _] | (body & Hfirst & ->)]; [contradiction |].
  exists body. split; [exact Hfirst | reflexivity].
Qed.

(** X6 (no body).  [findNearestBody] returns for every world and leaves it
    as it was.  The distance it reports is [Infinity] exactly when there is
    no body at all, and then the name is the dash. *)
Theorem findNearestBody_nobody (w : World) :
  exists r : NearestBody,
    findNearestBody w = Some (r, w) /\
    (nearestDistanceAU r = None <-> bodies w = []) /\
    (bodies w = [] -> r = mkNearestBody "—" None None).
Proof.
  rewrite findNearestBody_run.
  destruct (findNearestBody_loop (positionAU (spacecraft w)) (bodies w))
    as [[Hnil ->] | (body & (before & after & Heq & _) & ->)];
    eexists; (split; [reflexivity |]); simpl.
  - split; [tauto | reflexivity].
  - rewrite Heq. split; [split; [discriminate |] |]; intros Habs;
      destruct before; discriminate.
Qed.

(** *** computeGravity *)

Lemma norm_sqr (v : Vec3) : norm v * norm v = x v * x v + y v * y v + z v * z v.
Proof. unfold norm. apply sqrt_sqrt, sum_sqr_nonneg. Qed.

Lemma norm_nonneg (v : Vec3) : 0 <= norm v.
Proof. unfold norm. apply sqrt_pos. Qed.

Lemma computeGravity_step_pull (pos : Vec3) (body : Body) (acc : Accel) :
  computeGravity_step pos body acc
  = Some (mkAccel (ax acc + x (pull pos body)) (ay acc + y (pull pos body))
            (az acc + z (pull pos body))).
Proof.
  pose proof (norm_sqr (displacement pos (Bodies.positionAU body))) as Hsqr.
  unfold computeGravity_step, pull. cbv zeta.
  unfold norm, displacement in *. cbn [x y z] in *.
  destruct (Rlt_dec _ _) as [Hlt | Hge].
  - destruct acc as [gx gy gz]. cbn [x y z ax ay az]. do 2 f_equal; ring.
  - apply separation_not_zero in Hge as [H2 H1].
    rewrite !divide_Some by assumption. cbn [mbind option_bind vscale x y z].
    rewrite Hsqr. do 2 f_equal; field; split; assumption.
Qed.

Lemma computeGravity_loop (pos : Vec3) (bodies : list Body) (acc : Accel) :
  exists g : Accel,
    forOf bodies (computeGravity_step pos) acc = Some g /\
    accelVector g = vadd (accelVector acc) (vsum (map (pull pos) bodies)).
Proof.
  revert acc. induction bodies as [| body bodies IH]; intros acc.
  - exists acc. split; [reflexivity |].
    destruct acc as [gx gy gz]. unfold accelVector, vadd, vsum. simpl. f_equal; ring.
  - cbn [forOf]. rewrite computeGravity_step_pull. cbn [mbind option_bind].
    destruct (IH (mkAccel (ax acc + x (pull pos body)) (ay acc + y (pull pos body))
                    (az acc + z (pull pos body)))) as (g & -> & Hg).
    exists g. split; [reflexivity |]. rewrite Hg.
    unfold accelVector, vadd, vsum. simpl. f_equal; ring.
Qed.

Lemma computeGravity_sum (w : World) :
  exists g : Accel,
    computeGravity w = Some (g, w) /\
    accelVector g = vsum (map (pull (positionAU (spacecraft w))) (bodies w)).
Proof.
  rewrite computeGravity_run.
  destruct (computeGravity_loop (positionAU (spacecraft w)) (bodies w) (mkAccel 0 0 0))
    as (g & -> & Hg).
  exists g. split; [reflexivity |]. rewrite Hg.
  unfold accelVector, vadd. simpl. destruct (vsum _). simpl. f_equal; ring.
Qed.

Lemma vsum_app (l1 l2 : list Vec3) : vsum (l1 ++ l2) = vadd (vsum l1) (vsum l2).
Proof.
  induction l1 as [| v l1 IH]; simpl.
  - destruct (vsum l2). unfold vadd. simpl. f_equal; ring.
  - unfold vsum in *. simpl. rewrite IH. unfold vadd. simpl. f_equal; ring.
Qed.

(** X7 (superposition).  The acceleration [computeGravity] returns for two
    sets of bodies together is the sum of the accelerations it returns for
    each set alone. *)
Theorem computeGravity_superposition (sc : Spacecraft) (bodies1 bodies2 : list Body) :
  exists g g1 g2 : Accel,
    computeGravity (mkWorld sc (bodies1 ++ bodies2)) = Some (g, mkWorld sc (bodies1 ++ bodies2)) /\
    computeGravity (mkWorld sc bodies1) = Some (g1, mkWorld sc bodies1) /\
    computeGravity (mkWorld sc bodies2) = Some (g2, mkWorld sc bodies2) /\
    accelVector g = vadd (accelVector g1) (accelVector g2).
Proof.
  destruct (computeGravity_sum (mkWorld sc (bodies1 ++ bodies2))) as (g & Hrun & Hg).
  destruct (computeGravity_sum (mkWorld sc bodies1)) as (g1 & Hrun1 & Hg1).
  destruct (computeGravity_sum (mkWorld sc bodies2)) as (g2 & Hrun2 & Hg2).
  exists g, g1, g2. repeat (split; [assumption |]).
  rewrite Hg, Hg1, Hg2. simpl. rewrite map_app. apply vsum_app.
Qed.

Lemma pull_far (pos : Vec3) (body : Body) :
  1e-10 <= distanceTo pos body ->
  pull pos body
  = vscale (GM_AU3_day2 (data body) / (distanceTo pos body * distanceTo pos body)
            / distanceTo pos body)
      (displacement pos (Bodies.positionAU body)).
Proof.
  intros Hfar. unfold pull, distanceTo in *. cbv zeta.
  destruct (Rlt_dec _ _); [lra | reflexivity].
Qed.

Lemma norm_vscale (k : R) (v : Vec3) : norm (vscale k v) = Rabs k * norm v.
Proof.
  unfold norm, vscale. cbn [x y z].
  replace (x v * k * (x v * k) + y v * k * (y v * k) + z v * k * (z v * k))
    with (k * k * (x v * x v + y v * y v + z v * z v)) by ring.
  rewrite sqrt_mult by (try apply sum_sqr_nonneg; nra).
  f_equal. apply (sqrt_Rsqr_abs k).
Qed.

(** X8 (inverse square).  For a single body at a distance [r] of at least
    [1e-10] AU, [computeGravity] returns [GM / r²] times the unit vector
    from the craft to the body: an acceleration of magnitude [|GM| / r²]. *)
Theorem computeGravity_inverse_square (sc : Spacecraft) (body : Body) :
  let r := distanceTo (positionAU sc) body in
  1e-10 <= r ->
  exists g : Accel,
    computeGravity (mkWorld sc [body]) = Some (g, mkWorld sc [body]) /\
    accelVector g
    = vscale (GM_AU3_day2 (data body) / (r * r))
        (vscale (1 / r) (displacement (positionAU sc) (Bodies.positionAU body))) /\
    norm (accelVector g) = Rabs (GM_AU3_day2 (data body)) / (r * r).
Proof.
  intros r Hr.
  destruct (computeGravity_sum (mkWorld sc [body])) as (g & Hrun & Hg).
  exists g. split; [exact Hrun |].
  cbn [spacecraft bodies map] in Hg. rewrite (pull_far _ _ Hr) in Hg. fold r in Hg.
  assert (Hg' : accelVector g
                = vscale (GM_AU3_day2 (data body) / (r * r) / r)
                    (displacement (positionAU sc) (Bodies.positionAU body))).
  { rewrite Hg. unfold vsum, vadd, vscale. simpl. f_equal; ring. }
  split.
  - rewrite Hg'. unfold vscale. cbn [x y z]. f_equal; field; lra.
  - rewrite Hg', norm_vscale. fold (distanceTo (positionAU sc) body). fold r.
    unfold Rdiv. rewrite !Rabs_mult.
    rewrite (Rabs_right (/ (r * r))), (Rabs_right (/ r)).
    + field. lra.
    + apply Rle_ge. left. apply Rinv_0_lt_compat. lra.
    + apply Rle_ge. left. apply Rinv_0_lt_compat. nra.
Qed.

(** *** getGravityMagnitude *)

Lemma getGravityMagnitude_run (w : World) (g : Accel) :
  computeGravity w = Some (g, w) ->
  getGravityMagnitude w
  = Some (norm (accelVector g) * AU_TO_KM * 1000 / (DAY_TO_S * DAY_TO_S), w).
Proof.
  intros Hg. unfold getGravityMagnitude. erewrite bind_run by exact Hg. reflexivity.
Qed.

Lemma dot_le_norms (u v : Vec3) :
  x u * x v + y u * y v + z u * z v <= norm u * norm v.
Proof.
  pose proof (norm_sqr u) as Hu. pose proof (norm_sqr v) as Hv.
  pose proof (norm_nonneg u) as Hu0. pose proof (norm_nonneg v) as Hv0.
  destruct u as [ux uy uz], v as [vx vy vz]. cbn [x y z] in *.
  generalize dependent (norm (mkVec3 ux uy uz)). intros nu Hu Hu0.
  generalize dependent (norm (mkVec3 vx vy vz)). intros nv Hv Hv0.
  apply Rsqr_incr_0_var; [| nra]. unfold Rsqr.
  replace (nu * nv * (nu * nv)) with ((nu * nu) * (nv * nv)) by ring.
  rewrite Hu, Hv.
  pose proof (pow2_ge_0 (ux * vy - uy * vx)).
  pose proof (pow2_ge_0 (ux * vz - uz * vx)).
  pose proof (pow2_ge_0 (uy * vz - uz * vy)).
  nra.
Qed.

Lemma norm_triangle (u v : Vec3) : norm (vadd u v) <= norm u + norm v.
Proof.
  pose proof (norm_sqr u) as Hu. pose proof (norm_sqr v) as Hv.
  pose proof (norm_sqr (vadd u v)) as Huv.
  pose proof (norm_nonneg u) as Hu0. pose proof (norm_nonneg v) as Hv0.
  pose proof (norm_nonneg (vadd u v)) as Huv0.
  pose proof (dot_le_norms u v) as Hdot.
  apply Rsqr_incr_0_var; [| lra]. unfold Rsqr.
  destruct u as [ux uy uz], v as [vx vy vz]. unfold vadd in *. cbn [x y z] in *.
  generalize dependent (norm (mkVec3 ux uy uz)). intros nu Hu Hu0.
  generalize dependent (norm (mkVec3 vx vy vz)). intros nv Hv Hv0 Hdot.
  generalize dependent (norm (mkVec3 (ux + vx) (uy + vy) (uz + vz))). intros n Huv Huv0.
  nra.
Qed.

Lemma norm_zero : norm (mkVec3 0 0 0) = 0.
Proof.
  unfold norm. cbn [x y z]. transitivity (sqrt 0); [f_equal; ring | apply sqrt_0].
Qed.

Lemma norm_vsum (l : list Vec3) : norm (vsum l) <= foldr Rplus 0 (norm <$> l).
Proof.
  induction l as [| v l IH].
  - change (vsum []) with (mkVec3 0 0 0). rewrite norm_zero. simpl. lra.
  - rewrite fmap_cons. cbn [foldr]. change (vsum (v :: l)) with (vadd v (vsum l)).
    eapply Rle_trans; [apply norm_triangle |]. lra.
Qed.

(** The magnitude of the pull of one body, in m/s²: what the table of
    [getPerBodyGravity] lists for it when its [GM] is not negative. *)
Lemma norm_pull (pos : Vec3) (body : Body) :
  0 <= GM_AU3_day2 (data body) ->
  norm (pull pos body) * AU_TO_KM * 1000 / (DAY_TO_S * DAY_TO_S)
  = if decide (~ distanceTo pos body < 1e-10) then gravityMs2 (reportOf pos body) else 0.
Proof.
  intros Hgm. unfold pull. cbv zeta. fold (distanceTo pos body).
  destruct (Rlt_dec _ _) as [Hlt | Hge].
  - rewrite decide_False by tauto. rewrite norm_zero. unfold Rdiv. ring.
  - rewrite decide_True by exact Hge. rewrite norm_vscale.
    fold (distanceTo pos body). unfold reportOf. cbn [gravityMs2].
    set (r := distanceTo pos body) in *.
    assert (Hr : 0 < r) by lra.
    assert (Hk : 0 <= GM_AU3_day2 (data body) / (r * r) / r).
    { apply Rmult_le_pos; [apply Rmult_le_pos; [exact Hgm |] |];
        left; apply Rinv_0_lt_compat; nra. }
    rewrite Rabs_right by (apply Rle_ge; exact Hk).
    unfold AU_TO_KM, DAY_TO_S, AU_KM. field. lra.
Qed.

Lemma sum_pulls (pos : Vec3) (bodies : list Body) :
  Forall (fun body => 0 <= GM_AU3_day2 (data body)) bodies ->
  foldr Rplus 0 (norm <$> (map (pull pos) bodies)) * AU_TO_KM * 1000
    / (DAY_TO_S * DAY_TO_S)
  = foldr Rplus 0
      (gravityMs2 <$> map (reportOf pos)
         (filter (fun b => ~ distanceTo pos b < 1e-10) bodies)).
Proof.
  intros Hgm. induction Hgm as [| body bodies Hbody _ IH].
  - simpl. unfold Rdiv. ring.
  - rewrite filter_cons. pose proof (norm_pull pos body Hbody) as Hone.
    cbn [map]. rewrite fmap_cons. cbn [foldr].
    destruct (decide _).
    + cbn [map]. rewrite fmap_cons. cbn [foldr]. rewrite <- IH, <- Hone.
      unfold Rdiv. ring.
    + rewrite <- IH.
      replace (norm (pull pos body))
        with (norm (pull pos body) * AU_TO_KM * 1000 / (DAY_TO_S * DAY_TO_S)
              * (DAY_TO_S * DAY_TO_S) / (AU_TO_KM * 1000))
        by (unfold AU_TO_KM, AU_KM, DAY_TO_S; field; lra).
      rewrite Hone. unfold Rdiv. ring.
Qed.

Lemma sum_Permutation (l1 l2 : list R) :
  l1 ≡ₚ l2 -> foldr Rplus 0 l1 = foldr Rplus 0 l2.
Proof. induction 1; simpl; lra. Qed.

(** X9 (net pull against the table).  When no body has a negative [GM],
    the magnitude [getGravityMagnitude] returns is not negative and does not
    exceed the sum of the column [gravityMs2] of the table [getPerBodyGravity]
    returns for the same world by more than a part in [1e9] of that sum.
    (Over the reals it does not exceed the sum at all; the allowance is
    what the rounding of the program, which the model leaves out, may take.) *)
Theorem getGravityMagnitude_at_most_table (w : World) :
  Forall (fun body => 0 <= GM_AU3_day2 (data body)) (bodies w) ->
  exists (m : R) (entries : list GravityEntry),
    getGravityMagnitude w = Some (m, w) /\
    getPerBodyGravity w = Some (entries, w) /\
    0 <= m <= (1 + 1e-9) * foldr Rplus 0 (gravityMs2 <$> entries).
Proof.
  intros Hgm. destruct (computeGravity_sum w) as (g & Hrun & Hg).
  eexists _, _. split; [apply getGravityMagnitude_run; exact Hrun |].
  split; [apply getPerBodyGravity_run |].
  rewrite (sum_Permutation _ _
             (fmap_Permutation gravityMs2 _ _ (Array_sort_Permutation gravityMs2 _))).
  rewrite <- sum_pulls by exact Hgm. rewrite Hg.
  pose proof (norm_nonneg (vsum (map (pull (positionAU (spacecraft w))) (bodies w)))) as H0.
  pose proof (norm_vsum (map (pull (positionAU (spacecraft w))) (bodies w))) as Hsum.
  unfold AU_TO_KM, AU_KM, DAY_TO_S.
  set (net := norm (vsum (map (pull (positionAU (spacecraft w))) (bodies w)))) in *.
  set (total := foldr Rplus 0 (norm <$> map (pull (positionAU (spacecraft w))) (bodies w)))
    in *.
  lra.
Qed.

(** X10 (one body).  With a single body, of a [GM] that is not negative, at
    a distance [r] of at least [1e-10] AU, [getGravityMagnitude] returns
    [GM / r²] converted to m/s² with [AU_KM * 1000] metres per AU and [86400]
    seconds per day, which is what the one entry of [getPerBodyGravity]
    lists: the two values agree to a part in [1e12].  (Over the reals they
    are equal; the program computes them on different routes, and the
    allowance is what its rounding, which the model leaves out, may take.) *)
Theorem getGravityMagnitude_one_body (sc : Spacecraft) (body : Body) :
  let r := distanceTo (positionAU sc) body in
  0 <= GM_AU3_day2 (data body) ->
  1e-10 <= r ->
  exists (entry : GravityEntry) (m : R),
    getPerBodyGravity (mkWorld sc [body]) = Some ([entry], mkWorld sc [body]) /\
    getGravityMagnitude (mkWorld sc [body]) = Some (m, mkWorld sc [body]) /\
    m = GM_AU3_day2 (data body) / (r * r) * (AU_KM * 1000) / (86400 * 86400) /\
    Rabs (m - gravityMs2 entry) <= 1e-12 * gravityMs2 entry.
Proof.
  intros r Hgm Hfar.
  exists (reportOf (positionAU sc) body),
    (gravityMs2 (reportOf (positionAU sc) body)).
  split; [| split; [| split]].
  - rewrite getPerBodyGravity_run. cbn [spacecraft bodies].
    rewrite filter_cons, filter_nil, decide_True by (fold r; lra). reflexivity.
  - destruct (computeGravity_sum (mkWorld sc [body])) as (g & Hrun & Hg).
    rewrite (getGravityMagnitude_run _ _ Hrun). do 2 f_equal.
    rewrite Hg. cbn [spacecraft bodies map].
    replace (vsum [pull (positionAU sc) body]) with (pull (positionAU sc) body).
    + rewrite (norm_pull _ _ Hgm). rewrite decide_True by (fold r; lra). reflexivity.
    + unfold vsum, vadd. simpl. destruct (pull _ _). simpl. f_equal; ring.
  - reflexivity.
  - replace (gravityMs2 (reportOf (positionAU sc) body)
             - gravityMs2 (reportOf (positionAU sc) body)) with 0 by ring.
    rewrite Rabs_R0. unfold reportOf. cbn [gravityMs2]. fold r.
    assert (Hrr : 0 < r * r) by nra.
    assert (0 <= GM_AU3_day2 (data body) / (r * r)).
    { apply Rmult_le_pos; [exact Hgm | left; apply Rinv_0_lt_compat; exact Hrr]. }
    unfold AU_KM. lra.
Qed.

(** *** getSpeedKmS *)

Lemma norm_eq_zero (v : Vec3) : norm v = 0 <-> v = mkVec3 0 0 0.
Proof.
  split.
  - intros Hn. pose proof (norm_sqr v) as Hsqr. rewrite Hn in Hsqr.
    destruct v as [vx vy vz]. cbn [x y z] in Hsqr.
    assert (vx = 0) by nra. assert (vy = 0) by nra. assert (vz = 0) by nra.
    subst. reflexivity.
  - intros ->. apply norm_zero.
Qed.

(** X11 (speed).  [getSpeedKmS] returns a speed that is not negative, is
    zero exactly for the zero velocity, and, converted back with
    [KM_S_TO_AU_DAY], is the length of [velocityAU]. *)
Theorem getSpeedKmS_speed (w : World) :
  exists v : R,
    getSpeedKmS w = Some (v, w) /\
    0 <= v /\
    (v = 0 <-> velocityAU (spacecraft w) = mkVec3 0 0 0) /\
    v * KM_S_TO_AU_DAY = norm (velocityAU (spacecraft w)).
Proof.
  eexists. split; [apply getSpeedKmS_run |].
  pose proof (norm_nonneg (velocityAU (spacecraft w))) as H0.
  pose proof (norm_eq_zero (velocityAU (spacecraft w))) as Hz.
  unfold KM_S_TO_AU_DAY, AU_TO_KM, AU_KM, DAY_TO_S.
  set (n := norm (velocityAU (spacecraft w))) in *.
  split; [| split].
  - apply Rmult_le_pos; [apply Rmult_le_pos |]; lra.
  - rewrite <- Hz. split; intros H; [| rewrite H; lra].
    assert (n * 1.496e8 / 86400 * 86400 = n * 1.496e8) by (field; lra). nra.
  - field. lra.
Qed.

(** *** updateSpacecraft: the whole of the state it leaves *)

Lemma updateSpacecraft_result (w : World) (dtSim dtReal : R) :
  exists g : Accel,
    computeGravity w = Some (g, w) /\
    let s := spacecraft w in
    let thrusting := js_or (keys s !! "KeyW") (keys s !! "KeyS") in
    let vel' := vadd (vadd (velocityAU s) (vscale dtSim (thrustAcceleration s dtReal)))
                  (vscale dtSim (accelVector g)) in
    let pos' := vadd (positionAU s) (vscale dtSim vel') in
    updateSpacecraft dtSim dtReal w
    = Some (tt, mkWorld
                  (mkSpacecraft
                     (mkMesh (steered (keys s) (rotationSpeed s * dtReal)
                                (quaternion (mesh s)))
                        (auToScene pos'))
                     (if truthy thrusting then 0.8 else 0) pos' vel'
                     (mass s) (thrustAccel s) (rotationSpeed s) thrusting (keys s))
                  (bodies w)).
Proof.
  destruct (computeGravity_defined w) as [g Hg]. exists g. split; [exact Hg |].
  unfold updateSpacecraft.
  erewrite bind_run by apply updateSpacecraft_rotation_run.
  erewrite bind_run by apply updateSpacecraft_thrust_run.
  erewrite bind_run; cycle 1.
  { eapply computeGravity_frame; [| | exact Hg]; reflexivity. }
  destruct w as [[[q p] eo pos [vx vy vz] m ta rs th ks] bs].
  unfold mbind, M_bind, gets, setSpacecraft. cbv zeta. simpl.
  unfold thrustAcceleration, forwardDirection, vadd, vscale, accelVector. simpl.
  set (forward := applyQuaternion (mkVec3 0 0 (-1)) (steered ks (rs * dtReal) q)).
  set (sign := if truthy (ks !! "KeyW") then 1 else -1).
  destruct (truthy (js_or (ks !! "KeyW") (ks !! "KeyS"))); cbn [x y z].
  - replace (vx + x forward * (ta * sign) * dtSim)
      with (vx + x forward * (ta * dtSim * sign)) by ring.
    replace (vy + - z forward * (ta * sign) * dtSim)
      with (vy + - z forward * (ta * dtSim * sign)) by ring.
    replace (vz + y forward * (ta * sign) * dtSim)
      with (vz + y forward * (ta * dtSim * sign)) by ring.
    reflexivity.
  - replace (vx + 0 * dtSim) with vx by ring.
    replace (vy + 0 * dtSim) with vy by ring.
    replace (vz + 0 * dtSim) with vz by ring.
    reflexivity.
Qed.

(** X12 (frame of a step).  [updateSpacecraft] returns for every world and
    every pair of time steps.  It leaves the bodies, the key state, the
    mass, the thrust acceleration and the rotation speed as they were, and
    it leaves the mesh at the scene position of the new [positionAU]. *)
Theorem updateSpacecraft_frame (w : World) (dtSim dtReal : R) :
  exists w' : World,
    updateSpacecraft dtSim dtReal w = Some (tt, w') /\
    bodies w' = bodies w /\
    keys (spacecraft w') = keys (spacecraft w) /\
    mass (spacecraft w') = mass (spacecraft w) /\
    thrustAccel (spacecraft w') = thrustAccel (spacecraft w) /\
    rotationSpeed (spacecraft w') = rotationSpeed (spacecraft w) /\
    sceneSynced (spacecraft w').
Proof.
  destruct (updateSpacecraft_result w dtSim dtReal) as (g & _ & Hrun).
  eexists. split; [exact Hrun |]. repeat split.
Qed.

Lemma steered_noKeyDown (keys : gmap string bool) (rotAmount : R) (q : Quaternion) :
  noKeyDown keys -> steered keys rotAmount q = q.
Proof. intros Hkeys. unfold steered. rewrite !Hkeys. reflexivity. Qed.

Lemma thrustAcceleration_noKeyDown (s : Spacecraft) (dtReal : R) :
  noKeyDown (keys s) ->
  truthy (js_or (keys s !! "KeyW") (keys s !! "KeyS")) = false /\
  thrustAcceleration s dtReal = mkVec3 0 0 0.
Proof.
  intros Hkeys.
  assert (Hoff : truthy (js_or (keys s !! "KeyW") (keys s !! "KeyS")) = false).
  { unfold js_or. rewrite (Hkeys "KeyW"). apply Hkeys. }
  split; [exact Hoff |]. unfold thrustAcceleration. rewrite Hoff. reflexivity.
Qed.

(** X13 (coasting).  With no key down, a step of [updateSpacecraft] leaves
    the attitude as it was and the engine dark, and changes the velocity by
    gravity alone: [vel' = vel + a_grav * dtSim]. *)
Theorem updateSpacecraft_coasting (w : World) (dtSim dtReal : R) :
  noKeyDown (keys (spacecraft w)) ->
  exists (a_grav : Accel) (w' : World),
    computeGravity w = Some (a_grav, w) /\
    updateSpacecraft dtSim dtReal w = Some (tt, w') /\
    quaternion (mesh (spacecraft w')) = quaternion (mesh (spacecraft w)) /\
    engineOpacity (spacecraft w') = 0 /\
    velocityAU (spacecraft w')
    = vadd (velocityAU (spacecraft w)) (vscale dtSim (accelVector a_grav)).
Proof.
  intros Hkeys.
  destruct (updateSpacecraft_result w dtSim dtReal) as (g & Hg & Hrun).
  destruct (thrustAcceleration_noKeyDown (spacecraft w) dtReal Hkeys) as [Hoff Hzero].
  exists g. eexists. split; [exact Hg |]. split; [exact Hrun |].
  cbn [spacecraft mesh quaternion engineOpacity velocityAU].
  split; [apply steered_noKeyDown; exact Hkeys |].
  split; [rewrite Hoff; reflexivity |].
  rewrite Hzero. unfold vadd, vscale. cbn [x y z]. f_equal; ring.
Qed.

Lemma thrustAcceleration_forward (s : Spacecraft) (dtReal : R) :
  truthy (keys s !! "KeyW") = true ->
  js_or (keys s !! "KeyW") (keys s !! "KeyS") = Some true /\
  thrustAcceleration s dtReal
  = vscale (thrustAccel s)
      (mkVec3 (x (forwardDirection s dtReal)) (- z (forwardDirection s dtReal))
         (y (forwardDirection s dtReal))).
Proof.
  intros HW. unfold thrustAcceleration, js_or. rewrite !HW.
  destruct (keys s !! "KeyW") as [[|] |]; try discriminate.
  split; [reflexivity |]. cbn [truthy]. unfold vscale. cbn [x y z]. f_equal; ring.
Qed.

(** X14 (forward wins).  While W is down, S makes no difference: whatever
    the state [b] of S, the step ends with the same velocity and the same
    position, the flag [thrusting] is [true] and the engine is lit. *)
Theorem updateSpacecraft_forward_wins (w : World) (dtSim dtReal : R) (b : bool) :
  truthy (keys (spacecraft w) !! "KeyW") = true ->
  let s := spacecraft w in
  let pressed :=
    mkWorld (mkSpacecraft (mesh s) (engineOpacity s) (positionAU s) (velocityAU s)
               (mass s) (thrustAccel s) (rotationSpeed s) (thrusting s)
               (<["KeyS" := b]> (keys s)))
      (bodies w) in
  exists w1 w2 : World,
    updateSpacecraft dtSim dtReal w = Some (tt, w1) /\
    updateSpacecraft dtSim dtReal pressed = Some (tt, w2) /\
    velocityAU (spacecraft w2) = velocityAU (spacecraft w1) /\
    positionAU (spacecraft w2) = positionAU (spacecraft w1) /\
    thrusting (spacecraft w2) = Some true /\
    engineOpacity (spacecraft w2) = 0.8.
Proof.
  intros HW s pressed.
  destruct (updateSpacecraft_result w dtSim dtReal) as (g & Hg & Hrun).
  destruct (updateSpacecraft_result pressed dtSim dtReal) as (g' & Hg' & Hrun').
  assert (Hsame : g' = g).
  { apply (computeGravity_frame w pressed g) in Hg; [congruence | reflexivity ..]. }
  subst g'.
  assert (HW' : truthy (keys (spacecraft pressed) !! "KeyW") = true).
  { cbn [pressed spacecraft keys]. rewrite lookup_insert_ne by discriminate. exact HW. }
  destruct (thrustAcceleration_forward s dtReal HW) as [_ Hthrust].
  destruct (thrustAcceleration_forward (spacecraft pressed) dtReal HW')
    as [Hflag Hthrust'].
  assert (Hforward : forwardDirection (spacecraft pressed) dtReal
                     = forwardDirection s dtReal).
  { unfold forwardDirection, steered. cbn [pressed spacecraft keys rotationSpeed mesh].
    rewrite !lookup_insert_ne by discriminate. reflexivity. }
  eexists _, _. split; [exact Hrun |]. split; [exact Hrun' |].
  cbn [spacecraft velocityAU positionAU thrusting engineOpacity].
  rewrite Hflag. cbn [truthy]. fold s. rewrite Hthrust', Hthrust, Hforward.
  repeat split.
Qed.

End SpacecraftQueries.


(** ** orbits.js: the time argument, the solver at its edges, the ellipse *)

Section OrbitsMore.
Import Orbits.

(** X15 (time argument).  The number of centuries [computePosition] feeds
    the elements is the time since 2000-01-01 12:00 UTC (946728000000 ms
    after the epoch of [Date]) in units of 36525 days; it is zero at that
    instant and at no other. *)
Theorem centuriesSinceJ2000_julianDate (date : Date) :
  centuriesSinceJ2000 (julianDate date)
  = (getTime date - 946728000000) / (36525 * 86400000) /\
  (centuriesSinceJ2000 (julianDate date) = 0 <-> date = 946728000000%Z).
Proof.
  assert (Hform : centuriesSinceJ2000 (julianDate date)
                  = (getTime date - 946728000000) / (36525 * 86400000)).
  { unfold centuriesSinceJ2000, julianDate. lra. }
  split; [exact Hform |]. rewrite Hform. unfold getTime. split.
  - intros Hzero. apply eq_IZR. lra.
  - intros ->. lra.
Qed.

(** *** solveKepler *)

Lemma solveKepler_normalized (M e : R) (tolerance : option R) :
  solveKepler M e tolerance
  = solveKepler_loop 50 (normalized M) e (default 1e-8 tolerance)
      (normalized M + e * sin (normalized M)).
Proof. reflexivity. Qed.

Lemma normalized_unique (M v : R) (k : Z) :
  0 <= v < 2 * PI -> M = v + 2 * PI * IZR k -> normalized M = v.
Proof. intros Hv ->. rewrite normalized_period. apply normalized_id. exact Hv. Qed.

Lemma solveKepler_loop_circular (n : nat) (M tolerance E : R) :
  E = M -> solveKepler_loop n M 0 tolerance E = Some M.
Proof.
  revert E. induction n as [| n IH]; intros E ->; simpl; [reflexivity |].
  rewrite divide_Some by lra. simpl.
  replace (M - (M - 0 * sin M - M) / (1 - 0 * cos M)) with M by (field; lra).
  destruct (Rlt_dec _ _); [reflexivity | apply IH; reflexivity].
Qed.

(** X16 (circular orbit).  For the eccentricity [0], [solveKepler] returns
    the mean anomaly itself, brought into [[0, 2π)], whatever the tolerance. *)
Theorem solveKepler_circular (M : R) (tolerance : option R) :
  solveKepler M 0 tolerance = Some (normalized M) /\
  0 <= normalized M < 2 * PI.
Proof.
  split.
  - rewrite solveKepler_normalized. apply solveKepler_loop_circular. ring.
  - destruct (normalized_spec M) as (j & _ & Hrange). exact Hrange.
Qed.



(** X18 (parabolic edge).  For the eccentricity [1] and a mean anomaly that
    is a multiple of [2π], the first Newton step divides zero by zero:
    [solveKepler] returns no finite number. *)
Theorem solveKepler_parabolic_edge (k : Z) (tolerance : option R) :
  solveKepler (2 * PI * IZR k) 1 tolerance = None.
Proof.
  pose proof PI_RGT_0 as Hpi.
  rewrite solveKepler_normalized.
  rewrite (normalized_unique (2 * PI * IZR k) 0 k) by (lra || ring).
  rewrite sin_0. replace (0 + 1 * 0) with 0 by ring.
  change 50%nat with (S 49). cbn [solveKepler_loop].
  rewrite sin_0, cos_0. unfold divide.
  destruct (Req_dec_T (1 - 1 * 1) 0) as [_ | Hnz]; [reflexivity | exfalso; lra].
Qed.

(** X19 (convergence for every mean anomaly).  For an eccentricity in
    [[0, 0.99]] and any real [M], as [computePosition] passes it,
    [solveKepler] returns an [E] that solves Kepler's equation for the
    normalised mean anomaly within [1e-6]. *)
Theorem solveKepler_residual_any_M (M e : R) :
  0 <= e <= 0.99 ->
  exists E : R,
    solveKepler M e None = Some E /\
    Rabs (normalized M - (E - e * sin E)) < 1e-6.
Proof.
  intros He. pose proof PI_RGT_0 as Hpi.
  destruct (normalized_spec M) as (j & _ & HM).
  rewrite solveKepler_normalized. simpl default.
  set (m := normalized M) in *.
  destruct (Rle_dec m PI) as [Hlow | Hhigh].
  - destruct (solveKepler_loop_from_seed e He m ltac:(lra)) as [X [HX Hb]].
    exists X. split; [exact HX |].
    replace (m - (X - e * sin X)) with (- residual e m X) by (unfold residual; ring).
    rewrite Rabs_Ropp. exact Hb.
  - destruct (solveKepler_loop_from_seed e He (2 * PI - m) ltac:(lra)) as [X [HX Hb]].
    assert (Hsin : sin (2 * PI - m) = - sin m)
      by (rewrite sin_minus, sin_2PI, cos_2PI; ring).
    exists (2 * PI - X). split.
    + replace (m + e * sin m) with (2 * PI - (2 * PI - m + e * sin (2 * PI - m)))
        by (rewrite Hsin; ring).
      replace m with (2 * PI - (2 * PI - m)) at 1 by ring.
      rewrite solveKepler_loop_reflect, HX. reflexivity.
    + assert (HsinX : sin (2 * PI - X) = - sin X)
        by (rewrite sin_minus, sin_2PI, cos_2PI; ring).
      rewrite HsinX.
      replace (m - (2 * PI - X - e * - sin X)) with (residual e (2 * PI - m) X)
        by (unfold residual; ring).
      exact Hb.
Qed.

(** *** computePosition and computeOrbitPath: the ellipse *)

Lemma computePosition_run (elements : OrbitalElements) (date : Date) :
  computePosition elements date
  = E ← solveKepler (MAt elements date) (eAt elements date) None;
    Some (orbitPoint (aAt elements date) (eAt elements date) (IAt elements date)
            (OmegaAt elements date) (omegaAt elements date) E).
Proof. reflexivity. Qed.

Lemma orbitPoint_norm_plane (a e I Omega omega E : R) :
  norm (orbitPoint a e I Omega omega E)
  = sqrt (a * (cos E - e) * (a * (cos E - e))
          + a * sqrt (1 - e * e) * sin E * (a * sqrt (1 - e * e) * sin E)).
Proof.
  unfold norm, orbitPoint. cbn [x y z]. f_equal.
  apply rotation_keeps_length; apply sin_sqr_cos_sqr.
Qed.

(** The distance of a point of the orbit from the focus. *)
Lemma orbitPoint_norm (a e I Omega omega E : R) :
  0 <= a -> -1 <= e <= 1 ->
  norm (orbitPoint a e I Omega omega E) = a * (1 - e * cos E).
Proof.
  intros Ha He. rewrite orbitPoint_norm_plane.
  pose proof (COS_bound E) as Hcos. pose proof (sin_sqr_cos_sqr E) as Hunit.
  assert (Hroot : sqrt (1 - e * e) * sqrt (1 - e * e) = 1 - e * e)
    by (apply sqrt_sqrt; nra).
  set (s := sqrt (1 - e * e)) in *.
  generalize dependent (cos E). generalize dependent (sin E). intros sE cE Hcos Hunit.
  replace (a * (cE - e) * (a * (cE - e)) + a * s * sE * (a * s * sE))
    with (a * (1 - e * cE) * (a * (1 - e * cE))).
  - apply sqrt_square. apply Rmult_le_pos; [exact Ha | nra].
  - transitivity (a * a * ((cE - e) * (cE - e) + (s * s) * (sE * sE))); [| ring].
    rewrite Hroot. replace (sE * sE) with (1 - cE * cE) by lra. ring.
Qed.

Lemma orbitPoint_range (a e I Omega omega E : R) :
  0 <= a -> 0 <= e <= 1 ->
  a * (1 - e) <= norm (orbitPoint a e I Omega omega E) <= a * (1 + e).
Proof.
  intros Ha He. rewrite orbitPoint_norm by lra.
  pose proof (COS_bound E) as Hcos. generalize dependent (cos E). intros cE Hcos.
  split; apply Rmult_le_compat_l; nra.
Qed.

(** A point of the orbit is no farther from the reference plane than the
    inclination allows. *)
Lemma orbitPoint_latitude (a e I Omega omega E : R) :
  Rabs (z (orbitPoint a e I Omega omega E))
  <= Rabs (sin I) * norm (orbitPoint a e I Omega omega E).
Proof.
  rewrite orbitPoint_norm_plane. unfold orbitPoint. cbn [z].
  set (xPrime := a * (cos E - e)). set (yPrime := a * sqrt (1 - e * e) * sin E).
  replace (sin omega * sin I * xPrime + cos omega * sin I * yPrime)
    with (sin I * (sin omega * xPrime + cos omega * yPrime)) by ring.
  rewrite Rabs_mult. apply Rmult_le_compat_l; [apply Rabs_pos |].
  rewrite <- sqrt_Rsqr_abs. apply sqrt_le_1_alt. unfold Rsqr.
  pose proof (sin_sqr_cos_sqr omega) as Hunit.
  generalize dependent (cos omega). generalize dependent (sin omega). intros sW cW Hunit.
  pose proof (pow2_ge_0 (cW * xPrime - sW * yPrime)). nra.
Qed.

Lemma computePosition_range (elements : OrbitalElements) (date : Date) (p : Vec3) :
  0 <= aAt elements date -> 0 <= eAt elements date <= 1 ->
  computePosition elements date = Some p ->
  aAt elements date * (1 - eAt elements date) <= norm p
    <= aAt elements date * (1 + eAt elements date).
Proof.
  intros Ha He. rewrite computePosition_run.
  destruct (solveKepler _ _ _) as [E |]; [| discriminate].
  intros [= <-]. apply orbitPoint_range; assumption.
Qed.

(** X20 (between perihelion and aphelion).  When, at the date, the
    semi-major axis is not negative and the eccentricity lies in [[0, 1)],
    [computePosition] returns a position at the distance [a (1 - e cos E)]
    from the origin, [E] being what [solveKepler] returns; that distance
    lies between [a (1 - e)] and [a (1 + e)]. *)
Theorem computePosition_distance (elements : OrbitalElements) (date : Date) :
  0 <= aAt elements date ->
  0 <= eAt elements date < 1 ->
  exists (E : R) (p : Vec3),
    solveKepler (MAt elements date) (eAt elements date) None = Some E /\
    computePosition elements date = Some p /\
    norm p = aAt elements date * (1 - eAt elements date * cos E) /\
    aAt elements date * (1 - eAt elements date) <= norm p
      <= aAt elements date * (1 + eAt elements date).
Proof.
  intros Ha He. rewrite computePosition_run.
  destruct (solveKepler_defined (MAt elements date) (eAt elements date) None)
    as [E ->]; [lra |].
  eexists _, _. split; [reflexivity |]. split; [reflexivity |]. split.
  - apply orbitPoint_norm; lra.
  - apply orbitPoint_range; lra.
Qed.

(** X21 (inclination band).  When the eccentricity at the date lies in
    [(-1, 1)], [computePosition] returns a position whose height [z] over
    the ecliptic is at most [|sin I|] times its distance from the origin;
    for an inclination of zero the position lies in the ecliptic. *)
Theorem computePosition_latitude (elements : OrbitalElements) (date : Date) :
  -1 < eAt elements date < 1 ->
  exists p : Vec3,
    computePosition elements date = Some p /\
    Rabs (z p) <= Rabs (sin (IAt elements date)) * norm p /\
    (IAt elements date = 0 -> z p = 0).
Proof.
  intros He. rewrite computePosition_run.
  destruct (solveKepler_defined (MAt elements date) (eAt elements date) None)
    as [E ->]; [lra |].
  eexists. split; [reflexivity |]. split; [apply orbitPoint_latitude |].
  intros ->. unfold orbitPoint. cbn [z]. rewrite sin_0. ring.
Qed.

(** X22 (whole turns of the mean longitude).  Adding whole turns, [360 k]
    degrees, to the mean longitude [L] of the elements does not change what
    [computePosition] returns. *)
Theorem computePosition_whole_turns (elements : OrbitalElements) (date : Date) (k : Z) :
  computePosition
    (mkOrbitalElements (a elements) (aRate elements) (e elements) (eRate elements)
       (I elements) (IRate elements) (L elements + 360 * IZR k) (LRate elements)
       (wBar elements) (wBarRate elements) (Omega elements) (OmegaRate elements))
    date
  = computePosition elements date.
Proof.
  rewrite !computePosition_run.
  set (turned := mkOrbitalElements _ _ _ _ _ _ _ _ _ _ _ _).
  assert (HM : MAt turned date = MAt elements date + 2 * PI * IZR k).
  { unfold MAt, turned, DEG2RAD. cbn [L LRate wBar wBarRate]. field. }
  rewrite !solveKepler_normalized, HM, normalized_period. reflexivity.
Qed.

Lemma computeOrbitPath_step_run (elements : OrbitalElements) (now : Date)
    (segments i : nat) (points : list Vec3) :
  computeOrbitPath_step (aAt elements now) (eAt elements now)
    (cos (OmegaAt elements now)) (sin (OmegaAt elements now))
    (cos (IAt elements now)) (sin (IAt elements now))
    (cos (omegaAt elements now)) (sin (omegaAt elements now)) segments i points
  = E ← (2 * PI * INR i) ÷ INR segments;
    Some (points ++ [orbitPoint (aAt elements now) (eAt elements now) (IAt elements now)
                       (OmegaAt elements now) (omegaAt elements now) E]).
Proof. reflexivity. Qed.

Lemma computeOrbitPath_run (elements : OrbitalElements) (now : Date)
    (segments : option nat) :
  default 128%nat segments <> 0%nat ->
  computeOrbitPath elements now segments
  = Some (map (fun i : nat =>
                 orbitPoint (aAt elements now) (eAt elements now) (IAt elements now)
                   (OmegaAt elements now) (omegaAt elements now)
                   (2 * PI * INR i / INR (default 128%nat segments)))
            (seq 0 (S (default 128%nat segments)))).
Proof.
  intros Hn. apply not_0_INR in Hn.
  change (computeOrbitPath elements now segments)
    with (forOf (seq 0 (S (default 128%nat segments)))
            (computeOrbitPath_step (aAt elements now) (eAt elements now)
               (cos (OmegaAt elements now)) (sin (OmegaAt elements now))
               (cos (IAt elements now)) (sin (IAt elements now))
               (cos (omegaAt elements now)) (sin (omegaAt elements now))
               (default 128%nat segments)) []).
  erewrite forOf_push; [reflexivity |].
  intros i pts. rewrite computeOrbitPath_step_run, divide_Some by exact Hn. reflexivity.
Qed.

(** X23 (no segments).  Asked for zero segments, [computeOrbitPath] divides
    zero by zero for its only point: the path holds no finite point. *)
Theorem computeOrbitPath_no_segments (elements : OrbitalElements) (now : Date) :
  computeOrbitPath elements now (Some 0%nat) = None.
Proof.
  unfold computeOrbitPath. cbv zeta. simpl default. cbn [seq forOf].
  unfold computeOrbitPath_step, divide.
  destruct (Req_dec_T (INR 0) 0) as [_ | Hnz]; [reflexivity |].
  exfalso. apply Hnz. reflexivity.
Qed.

(** X24 (the path is the ellipse).  For a number of segments that is not
    zero, a semi-major axis that is not negative and an eccentricity in
    [[0, 1]] at the time of the call, every point of the path
    [computeOrbitPath] returns lies between [a (1 - e)] and [a (1 + e)] from
    the origin, and the path starts at the perihelion, at [a (1 - e)]. *)
Theorem computeOrbitPath_ellipse (elements : OrbitalElements) (now : Date)
    (segments : option nat) :
  default 128%nat segments <> 0%nat ->
  0 <= aAt elements now ->
  0 <= eAt elements now <= 1 ->
  exists (points : list Vec3) (p : Vec3),
    computeOrbitPath elements now segments = Some points /\
    Forall (fun q => aAt elements now * (1 - eAt elements now) <= norm q
                     <= aAt elements now * (1 + eAt elements now)) points /\
    head points = Some p /\
    norm p = aAt elements now * (1 - eAt elements now).
Proof.
  intros Hn Ha He. rewrite (computeOrbitPath_run _ _ _ Hn).
  eexists _, _. split; [reflexivity |]. split; [| split; [reflexivity |]].
  - apply List.Forall_forall. intros q Hq. apply in_map_iff in Hq.
    destruct Hq as (i & <- & _). apply orbitPoint_range; assumption.
  - rewrite orbitPoint_norm by lra.
    replace (2 * PI * INR 0 / INR (default 128%nat segments)) with 0
      by (simpl; unfold Rdiv; ring).
    rewrite cos_0. ring.
Qed.

End OrbitsMore.


(** ** bodies.js with planets.js and orbits.js: placing the bodies *)

Section UpdateBodiesProperties.
Import Orbits BodiesUpdate.
Import Bodies (Body, mkBody, data, auToScene, displayRadius).

Lemma updateBodies_step_placed (simDate : Date) (i : nat) (bodies : list BodyObject) :
  updateBodies_step simDate i bodies
  = body ← bodies !! i; body' ← placed simDate body; Some (<[i := body']> bodies).
Proof.
  unfold updateBodies_step, placed.
  destruct (bodies !! i) as [body |]; [| reflexivity]. cbn [mbind option_bind].
  destruct (elements body) as [els |]; [| reflexivity]. cbn [mbind option_bind].
  destruct (computePosition els simDate); reflexivity.
Qed.

Lemma updateBodies_loop (simDate : Date) (done rest : list BodyObject) :
  forOf (seq (length done) (length rest)) (updateBodies_step simDate) (done ++ rest)
  = rest' ← mapM (placed simDate) rest; Some (done ++ rest').
Proof.
  revert done. induction rest as [| body rest IH]; intros done.
  - reflexivity.
  - cbn [length seq forOf mapM]. rewrite updateBodies_step_placed.
    rewrite list_lookup_middle by reflexivity. cbn [mbind option_bind].
    destruct (placed simDate body) as [body' |]; [| reflexivity].
    cbn [mbind option_bind].
    rewrite insert_app_r_alt by reflexivity. rewrite Nat.sub_diag. cbn [insert list_insert].
    specialize (IH (done ++ [body'])).
    rewrite length_app, Nat.add_1_r, <- app_assoc in IH. cbn [app] in IH.
    rewrite IH. destruct (mapM (placed simDate) rest) as [rest' |]; [| reflexivity].
    cbn [mbind option_bind mret option_ret]. rewrite <- app_assoc. reflexivity.
Qed.

Lemma updateBodies_run (simDate : Date) (sun : BodyObject) (planets : list BodyObject) :
  updateBodies (sun :: planets) simDate
  = planets' ← mapM (placed simDate) planets; Some (sun :: planets').
Proof.
  unfold updateBodies. cbn [length]. rewrite Nat.sub_succ, Nat.sub_0_r.
  apply (updateBodies_loop simDate [sun] planets).
Qed.

Lemma placed_defined (simDate : Date) (body : BodyObject) (els : OrbitalElements) :
  elements body = Some els -> -1 < eAt els simDate < 1 ->
  exists pos : Vec3,
    computePosition els simDate = Some pos /\
    placed simDate body
    = Some (mkBodyObject (mkBody (data (core body)) pos) (radiusKm body) (Some els)
              (auToScene pos)
              ((fun _ => add_y (displayRadius (radiusKm body) + 1.5) (auToScene pos))
                 <$> labelPosition body)).
Proof.
  intros Hels He. unfold placed. rewrite Hels. cbn [mbind option_bind].
  rewrite computePosition_run.
  destruct (solveKepler_defined (MAt els simDate) (eAt els simDate) None) as [E ->];
    [exact He |].
  eexists. split; reflexivity.
Qed.

Lemma placed_again (simDate : Date) (body body' : BodyObject) :
  placed simDate body = Some body' -> placed simDate body' = Some body'.
Proof.
  unfold placed. destruct (elements body) as [els |]; [| discriminate].
  cbn [mbind option_bind].
  destruct (computePosition els simDate) as [pos |] eqn:Hpos; [| discriminate].
  cbn [mbind option_bind]. intros [= <-]. cbn [elements mbind option_bind].
  rewrite Hpos. cbn [mbind option_bind core data radiusKm labelPosition].
  destruct (labelPosition body); reflexivity.
Qed.

Lemma mapM_placed_again (simDate : Date) (planets planets' : list BodyObject) :
  mapM (placed simDate) planets = Some planets' ->
  mapM (placed simDate) planets' = Some planets'.
Proof.
  intros Hrun. apply mapM_Some in Hrun. apply mapM_Some.
  induction Hrun as [| body body' planets planets' Hbody _ IH]; constructor.
  - eapply placed_again. exact Hbody.
  - exact IH.
Qed.

Lemma mapM_placed_defined (simDate : Date) (planets : list BodyObject) :
  Forall (fun body => exists els : OrbitalElements,
            elements body = Some els /\ -1 < eAt els simDate < 1) planets ->
  exists planets' : list BodyObject,
    mapM (placed simDate) planets = Some planets' /\
    Forall2 (fun body body' =>
               exists (els : OrbitalElements) (pos : Vec3),
                 elements body = Some els /\
                 computePosition els simDate = Some pos /\
                 body' = mkBodyObject (mkBody (data (core body)) pos) (radiusKm body)
                           (Some els) (auToScene pos)
                           ((fun _ => add_y (displayRadius (radiusKm body) + 1.5)
                                        (auToScene pos))
                              <$> labelPosition body))
      planets planets'.
Proof.
  intros Hall. induction Hall as [| body planets (els & Hels & He) _ IH].
  - exists []. split; [reflexivity | constructor].
  - destruct IH as (planets' & Hrun & Hrel).
    destruct (placed_defined simDate body els Hels He) as (pos & Hpos & Hplaced).
    eexists (_ :: planets'). split.
    + cbn [mapM]. rewrite Hplaced. cbn [mbind option_bind]. rewrite Hrun. reflexivity.
    + constructor; [| exact Hrel]. exists els, pos. repeat split; assumption.
Qed.

(** X25 (placing the bodies).  When every body behind the first has
    elements, of an eccentricity in [(-1, 1)] at the date, [updateBodies]
    returns; it leaves the first body, the Sun, untouched and gives each
    other body the position [computePosition] returns for its elements,
    its mesh the scene position of it, and its label, if any, the place
    [displayRadius + 1.5] above; nothing else changes. *)
Theorem updateBodies_places (simDate : Date) (sun : BodyObject)
    (planets : list BodyObject) :
  Forall (fun body => exists els : OrbitalElements,
            elements body = Some els /\ -1 < eAt els simDate < 1) planets ->
  exists planets' : list BodyObject,
    updateBodies (sun :: planets) simDate = Some (sun :: planets') /\
    Forall2 (fun body body' =>
               exists (els : OrbitalElements) (pos : Vec3),
                 elements body = Some els /\
                 computePosition els simDate = Some pos /\
                 body' = mkBodyObject (mkBody (data (core body)) pos) (radiusKm body)
                           (Some els) (auToScene pos)
                           ((fun _ => add_y (displayRadius (radiusKm body) + 1.5)
                                        (auToScene pos))
                              <$> labelPosition body))
      planets planets'.
Proof.
  intros Hall. destruct (mapM_placed_defined simDate planets Hall) as (planets' & Hrun & Hrel).
  exists planets'. split; [| exact Hrel].
  rewrite updateBodies_run, Hrun. reflexivity.
Qed.

Lemma updateBodies_again (bodies bodies' : list BodyObject) (simDate : Date) :
  updateBodies bodies simDate = Some bodies' ->
  updateBodies bodies' simDate = Some bodies'.
Proof.
  destruct bodies as [| sun planets]; [intros [= <-]; reflexivity |].
  rewrite updateBodies_run.
  destruct (mapM (placed simDate) planets) as [planets' |] eqn:Hrun; [| discriminate].
  intros [= <-]. rewrite updateBodies_run, (mapM_placed_again _ _ _ Hrun). reflexivity.
Qed.

(** X26 (same date again).  What [updateBodies] has returned for a date it
    returns unchanged when run on it again for that date: the places depend
    on the date and the elements only, not on where the bodies were. *)
Theorem updateBodies_idempotent (bodies bodies' : list BodyObject) (simDate : Date) :
  updateBodies bodies simDate = Some bodies' ->
  updateBodies bodies' simDate = Some bodies' /\ length bodies' = length bodies.
Proof.
  intros Hrun. split; [exact (updateBodies_again _ _ _ Hrun) |].
  destruct bodies as [| sun planets]; [injection Hrun as <-; reflexivity |].
  rewrite updateBodies_run in Hrun.
  destruct (mapM (placed simDate) planets) as [planets' |] eqn:Hmap; [| discriminate].
  injection Hrun as <-. cbn [length]. f_equal. symmetry.
  eapply length_mapM. exact Hmap.
Qed.

(** X27 (a body without elements).  A body behind the first that has no
    orbital elements, a second Sun for one, makes [updateBodies] fail, at
    whatever place of the list it stands. *)
Theorem updateBodies_needs_elements (simDate : Date) (sun body : BodyObject)
    (before after : list BodyObject) :
  elements body = None ->
  updateBodies (sun :: before ++ body :: after) simDate = None.
Proof.
  intros Hnone. rewrite updateBodies_run.
  destruct (mapM (placed simDate) (before ++ body :: after)) as [planets' |] eqn:Hrun;
    [| reflexivity].
  exfalso. apply mapM_Some in Hrun. apply Forall2_app_inv_l in Hrun.
  destruct Hrun as (k1 & k2 & _ & Hrest & _). inversion Hrest as [| ? body' ? ? Hbody]; subst.
  unfold placed in Hbody. rewrite Hnone in Hbody. discriminate.
Qed.

(** *** The table of the planets *)

Lemma PLANETS_elements (T : R) :
  -100 <= T <= 100 ->
  Forall (fun planet =>
            0 <= e (Planets.elements planet) + eRate (Planets.elements planet) * T <= 0.26 /\
            0.38 <= a (Planets.elements planet) + aRate (Planets.elements planet) * T
              <= 39.6)
    Planets.PLANETS.
Proof.
  intros HT. unfold Planets.PLANETS.
  repeat (constructor; [cbn [Planets.elements a aRate e eRate]; lra |]). constructor.
Qed.

Lemma createBodies_planets :
  exists sun : BodyObject,
    Bodies.positionAU (core sun) = mkVec3 0 0 0 /\ elements sun = None /\
    createBodies
    = sun :: map (fun planet =>
                    mkBodyObject
                      (mkBody (Bodies.mkBodyData (Planets.name planet)
                                 (Planets.GM_AU3_day2 planet))
                         (mkVec3 0 0 0))
                      (Planets.radiusKm planet) (Some (Planets.elements planet))
                      (mkVec3 0 0 0) (Some (mkVec3 0 0 0)))
               Planets.PLANETS.
Proof.
  exists (mkBodyObject
            (mkBody (Bodies.mkBodyData "Sun" Planets.GM_SUN_AU3_DAY2) (mkVec3 0 0 0))
            696340 None (mkVec3 0 0 0) None).
  repeat split.
Qed.

Lemma PLANETS_GM :
  Forall (fun planet =>
            0 < Planets.GM_AU3_day2 planet < Planets.GM_SUN_AU3_DAY2 / 1000)
    Planets.PLANETS.
Proof.
  unfold Planets.PLANETS, Planets.GM_AU3_day2, Planets.GM_SUN_AU3_DAY2, Planets.SOLAR_MASS.
  repeat (constructor; [cbn [Planets.mass]; lra |]). constructor.
Qed.

(** X28 (the planets of the table).  For a date within a hundred centuries
    of J2000, [updateBodies] returns for the bodies [createBodies] makes: the
    Sun stays at the origin, and each of the nine planets is placed between
    0.25 AU and 50 AU from it, its mesh at the scene position of that
    place; the [GM] the table derives for it from its mass is positive and
    less than a thousandth of the Sun's. *)
Theorem createBodies_updateBodies (simDate : Date) :
  -100 <= centuriesAt simDate <= 100 ->
  exists (sun : BodyObject) (planets' : list BodyObject),
    updateBodies createBodies simDate = Some (sun :: planets') /\
    head createBodies = Some sun /\
    Bodies.positionAU (core sun) = mkVec3 0 0 0 /\
    length planets' = 9%nat /\
    Forall (fun body =>
              0.25 <= norm (Bodies.positionAU (core body)) <= 50 /\
              meshPosition body = auToScene (Bodies.positionAU (core body)) /\
              0 < Bodies.GM_AU3_day2 (data (core body))
                < Planets.GM_SUN_AU3_DAY2 / 1000)
      planets'.
Proof.
  intros HT. destruct createBodies_planets as (sun & Hsun & _ & Hbodies).
  pose proof (proj2 (Forall_and _ _) (conj (PLANETS_elements _ HT) PLANETS_GM)) as Htable.
  rewrite Hbodies. set (planets := map _ Planets.PLANETS).
  assert (Hrange : Forall (fun body => exists els : OrbitalElements,
                              elements body = Some els /\
                              0 <= eAt els simDate <= 0.26 /\
                              0.38 <= aAt els simDate <= 39.6 /\
                              0 < Bodies.GM_AU3_day2 (data (core body))
                                < Planets.GM_SUN_AU3_DAY2 / 1000) planets).
  { apply List.Forall_map. eapply Forall_impl; [exact Htable |].
    intros planet [[He Ha] Hgm]. exists (Planets.elements planet).
    split; [reflexivity |]. split; [exact He |]. split; [exact Ha | exact Hgm]. }
  destruct (mapM_placed_defined simDate planets) as (planets' & Hrun & Hrel).
  { eapply Forall_impl; [exact Hrange |]. intros body (els & Hels & He & _).
    exists els. split; [exact Hels | lra]. }
  exists sun, planets'. split; [rewrite updateBodies_run, Hrun; reflexivity |].
  split; [reflexivity |]. split; [exact Hsun |]. split.
  - apply Forall2_length in Hrel. rewrite <- Hrel. reflexivity.
  - eapply Forall2_Forall_r; [exact Hrel |].
    eapply Forall_impl; [exact Hrange |].
    intros body (els & Hels & He & Ha & Hgm) body' (els' & pos & Hels' & Hpos & ->).
    cbn [core meshPosition Bodies.positionAU data]. split; [| split; [reflexivity | exact Hgm]].
    assert (els' = els) by congruence. subst els'.
    pose proof (computePosition_range els simDate pos ltac:(lra) ltac:(lra) Hpos) as Hr.
    split; [eapply Rle_trans; [| apply Hr] | eapply Rle_trans; [apply Hr |]]; nra.
Qed.

End UpdateBodiesProperties.


(** ** main.js: one frame of the game loop *)

Section MainProperties.
Context {three : Three}.
Import Orbits BodiesUpdate Main.

Lemma TIME_WARP_VALUES_range (i : nat) (timeWarp : R) :
  TIME_WARP_VALUES !! i = Some timeWarp -> 1 <= timeWarp <= 1e7.
Proof.
  unfold TIME_WARP_VALUES.
  do 8 (destruct i as [| i]; [intros [= <-]; lra |]). discriminate.
Qed.

Lemma TIME_WARP_VALUES_defined (i : nat) :
  (i < 8)%nat -> is_Some (TIME_WARP_VALUES !! i).
Proof. intros Hi. apply lookup_lt_is_Some. exact Hi. Qed.

Lemma newDate_clip (value : R) (date : Date) :
  newDate value = Some date -> Rabs (getTime date - value) < 1.
Proof.
  unfold newDate, getTime. destruct (Rle_dec _ _); [| discriminate]. intros [= <-].
  destruct (truncate_bounds value) as [Hpos Hneg].
  apply Rabs_def1; destruct (Rle_dec 0 value); lra.
Qed.

Lemma newDate_forward (date date' : Date) (elapsed : R) :
  0 <= elapsed -> newDate (getTime date + elapsed) = Some date' ->
  (date <= date')%Z /\ getTime date' - getTime date < elapsed + 1.
Proof.
  intros Helapsed Hnew. pose proof (newDate_clip _ _ Hnew) as Hclip.
  apply Rabs_def2 in Hclip. unfold getTime in *. split; [| lra].
  assert (Hlt : IZR (date - 1) < IZR date') by (rewrite minus_IZR; lra).
  apply lt_IZR in Hlt. lia.
Qed.

Lemma animate_inv (now : R) (s s' : Loop) (hud : bool) :
  animate now s = Some (hud, s') ->
  let dtReal := Rmin ((now - lastTime s) / 1000) 0.1 in
  exists (timeWarp : R) (w' : Spacecraft.World),
    TIME_WARP_VALUES !! timeWarpIndex s = Some timeWarp /\
    newDate (getTime (simDate s) + dtReal * 1000 * timeWarp) = Some (simDate s') /\
    updateBodies (bodies s) (simDate s') = Some (bodies s') /\
    Spacecraft.updateSpacecraft (dtReal / 86400 * timeWarp) dtReal
      (Spacecraft.mkWorld (spacecraft s) (core <$> bodies s')) = Some (tt, w') /\
    spacecraft s' = Spacecraft.spacecraft w' /\
    timeWarpIndex s' = timeWarpIndex s /\
    lastTime s' = now /\
    hud = bool_decide (0.1 < hudTimer s + dtReal) /\
    hudTimer s' = (if hud then 0 else hudTimer s + dtReal).
Proof.
  unfold animate. cbv zeta.
  destruct (TIME_WARP_VALUES !! timeWarpIndex s) as [timeWarp |]; [| discriminate].
  cbn [mbind option_bind].
  destruct (newDate _) as [date |] eqn:Hnew; [| discriminate]. cbn [mbind option_bind].
  destruct (updateBodies _ _) as [placed |] eqn:Hbodies; [| discriminate].
  cbn [mbind option_bind].
  destruct (Spacecraft.updateSpacecraft _ _ _) as [[[] w'] |] eqn:Hcraft; [| discriminate].
  cbn [mbind option_bind snd]. intros [= <- <-].
  cbn [bodies spacecraft timeWarpIndex simDate lastTime hudTimer].
  exists timeWarp, w'. repeat split; assumption || reflexivity.
Qed.

Lemma animate_defined_when (now : R) (s : Loop) :
  (timeWarpIndex s < 8)%nat ->
  lastTime s <= now ->
  - 8.64e15 <= getTime (simDate s) <= 8.64e15 - 1e9 ->
  (forall date : Date,
     (simDate s <= date)%Z -> getTime date < getTime (simDate s) + (1e9 + 1) ->
     is_Some (updateBodies (bodies s) date)) ->
  exists (hud : bool) (s' : Loop), animate now s = Some (hud, s').
Proof.
  intros Hindex Hnow Hdate Hbodies.
  destruct (TIME_WARP_VALUES_defined _ Hindex) as [timeWarp HtimeWarp].
  pose proof (TIME_WARP_VALUES_range _ _ HtimeWarp) as Hrange.
  set (dtReal := Rmin ((now - lastTime s) / 1000) 0.1).
  assert (HdtReal : 0 <= dtReal <= 0.1).
  { unfold dtReal. split; [apply Rmin_glb; lra | apply Rmin_r]. }
  assert (Helapsed : 0 <= dtReal * 1000 * timeWarp <= 1e9).
  { split; [apply Rmult_le_pos; lra |].
    replace 1e9 with (100 * 1e7) by lra. apply Rmult_le_compat; lra. }
  assert (Hnew : exists date, newDate (getTime (simDate s) + dtReal * 1000 * timeWarp)
                              = Some date).
  { unfold newDate. destruct (Rle_dec _ _) as [_ | Hout]; [eauto |].
    exfalso. apply Hout. apply Rabs_le. lra. }
  destruct Hnew as [date Hnew].
  destruct (newDate_forward _ _ _ (proj1 Helapsed) Hnew) as [Hforward Hstep].
  destruct (Hbodies date Hforward ltac:(lra)) as [placed Hplaced].
  destruct (updateSpacecraft_result
              (Spacecraft.mkWorld (spacecraft s) (core <$> placed))
              (dtReal / 86400 * timeWarp) dtReal) as (g & _ & Hcraft).
  unfold animate. cbv zeta. fold dtReal. rewrite HtimeWarp. cbn [mbind option_bind].
  rewrite Hnew. cbn [mbind option_bind]. rewrite Hplaced. cbn [mbind option_bind].
  rewrite Hcraft. cbn [mbind option_bind]. eauto.
Qed.

(** X29 (one frame).  What a frame of [animate] that returns has done:
    the real time step is capped at [0.1] s; the simulation date has moved
    by the step the integrator was given, [dtSimDays] in milliseconds, up to
    the rounding toward zero of a [Date], that is by less than 1 ms off;
    when the clock has not run backward the date has not either, and it
    has moved by at most [1e9] ms and a rounding; the bodies are those
    [updateBodies] returns for the new date, the first of them untouched;
    the HUD is refreshed exactly when its timer passes [0.1] s, and the
    timer is left at [0.1] s at most. *)
Theorem animate_frame (now : R) (s s' : Loop) (hud : bool) :
  animate now s = Some (hud, s') ->
  let dtReal := Rmin ((now - lastTime s) / 1000) 0.1 in
  exists timeWarp : R,
    TIME_WARP_VALUES !! timeWarpIndex s = Some timeWarp /\
    let dtSimDays := dtReal / 86400 * timeWarp in
    dtReal <= 0.1 /\
    Rabs (getTime (simDate s') - (getTime (simDate s) + dtSimDays * 86400000)) < 1 /\
    (lastTime s <= now ->
       (simDate s <= simDate s')%Z /\
       getTime (simDate s') - getTime (simDate s) < 1e9 + 1) /\
    updateBodies (bodies s) (simDate s') = Some (bodies s') /\
    head (bodies s') = head (bodies s) /\
    (hud = true <-> 0.1 < hudTimer s + dtReal) /\
    hudTimer s' <= 0.1 /\
    lastTime s' = now.
Proof.
  intros Hrun dtReal.
  destruct (animate_inv _ _ _ _ Hrun)
    as (timeWarp & w' & HtimeWarp & Hnew & Hbodies & _ & _ & _ & Hlast & Hhud & Htimer).
  fold dtReal in Hnew, Hhud, Htimer.
  pose proof (TIME_WARP_VALUES_range _ _ HtimeWarp) as Hrange.
  assert (Hcap : dtReal <= 0.1) by apply Rmin_r.
  exists timeWarp. split; [exact HtimeWarp |]. cbv zeta. split; [exact Hcap |].
  split; [| split; [| split; [exact Hbodies | split; [| split; [| split]]]]].
  - replace (dtReal / 86400 * timeWarp * 86400000) with (dtReal * 1000 * timeWarp) by lra.
    apply newDate_clip. exact Hnew.
  - intros Hnow.
    assert (H0 : 0 <= dtReal) by (apply Rmin_glb; lra).
    assert (Helapsed : 0 <= dtReal * 1000 * timeWarp <= 1e9).
    { split; [apply Rmult_le_pos; lra |].
      replace 1e9 with (100 * 1e7) by lra. apply Rmult_le_compat; lra. }
    destruct (newDate_forward _ _ _ (proj1 Helapsed) Hnew) as [Hforward Hstep].
    split; [exact Hforward | lra].
  - destruct (bodies s) as [| sun planets]; [injection Hbodies as <-; reflexivity |].
    rewrite updateBodies_run in Hbodies.
    destruct (mapM _ planets); [| discriminate]. injection Hbodies as <-. reflexivity.
  - rewrite Hhud. apply bool_decide_eq_true.
  - rewrite Htimer, Hhud. destruct (bool_decide_reflect (0.1 < hudTimer s + dtReal)); lra.
  - exact Hlast.
Qed.

(** X30 (a frame returns).  [animate] returns when the time warp index is
    one of the eight of [TIME_WARP_VALUES], the clock has not run backward,
    the simulation date is a valid [Date] with [1e9] ms to spare, and
    [updateBodies] returns for the dates the frame can reach. *)
Theorem animate_defined (now : R) (s : Loop) :
  (timeWarpIndex s < 8)%nat ->
  lastTime s <= now ->
  - 8.64e15 <= getTime (simDate s) <= 8.64e15 - 1e9 ->
  (forall date : Date,
     (simDate s <= date)%Z -> getTime date < getTime (simDate s) + (1e9 + 1) ->
     is_Some (updateBodies (bodies s) date)) ->
  exists (hud : bool) (s' : Loop),
    animate now s = Some (hud, s') /\
    Spacecraft.keys (spacecraft s') = Spacecraft.keys (spacecraft s) /\
    Spacecraft.sceneSynced (spacecraft s').
Proof.
  intros Hindex Hnow Hdate Hbodies.
  destruct (animate_defined_when now s Hindex Hnow Hdate Hbodies) as (hud & s' & Hrun).
  exists hud, s'. split; [exact Hrun |].
  destruct (animate_inv _ _ _ _ Hrun)
    as (timeWarp & w' & _ & _ & _ & Hcraft & -> & _).
  match type of Hcraft with
  | Spacecraft.updateSpacecraft ?dtSim ?dtReal ?w = _ =>
      destruct (updateSpacecraft_result w dtSim dtReal) as (g & _ & Hresult)
  end.
  rewrite Hresult in Hcraft. injection Hcraft as <-. split; reflexivity.
Qed.

End MainProperties.


(** ** The further properties on concrete inputs *)

Section BodiesExamples.
Import Bodies.

(** X3 for the radii of Mercury and of the Earth. *)
Lemma displayRadius_range_witness :
  MIN_PLANET_RADIUS <= displayRadius 2439.7 /\
  displayRadius 2439.7 <= displayRadius 6371 /\
  (6371 <= SUN_RADIUS_KM -> displayRadius 6371 <= sunDisplayRadius).
Proof. apply (displayRadius_range 2439.7 6371). lra. Defined.

(** X4 for the radius of Pluto. *)
Lemma displayRadius_floor_witness :
  (1188.3 <= 979.228125 -> displayRadius 1188.3 = MIN_PLANET_RADIUS) /\
  (979.228125 <= 1188.3 ->
     displayRadius 1188.3 = SUN_DISPLAY_RADIUS * sqrt (1188.3 / SUN_RADIUS_KM) /\
     displayRadius (4 * 1188.3) = 2 * displayRadius 1188.3).
Proof. apply (displayRadius_floor 1188.3). lra. Defined.

End BodiesExamples.

Section SpacecraftQueriesExamples.
Import Bodies (Body, BodyData, data, name, GM_AU3_day2, auToScene).
Import Spacecraft Examples.

Lemma sun_is_far : 1e-10 <= distanceTo (positionAU craft) sun.
Proof.
  unfold distanceTo, norm, displacement. simpl.
  rewrite <- (sqrt_square 1e-10) by lra. apply sqrt_le_1_alt. lra.
Qed.

(** X5 for the craft, the Sun and the companion that sits on the craft. *)
Lemma findNearestBody_first_nearest_witness :
  exists body : Body,
    firstNearest (positionAU craft) [sun; companion] body /\
    findNearestBody (mkWorld craft [sun; companion])
    = Some (mkNearestBody
              (if decide (name (data body) = EmptyString) then "—" else name (data body))
              (Some (distanceTo (positionAU craft) body))
              (Some (distanceTo (positionAU craft) body * AU_KM)),
            mkWorld craft [sun; companion]).
Proof.
  apply (findNearestBody_first_nearest (mkWorld craft [sun; companion])). discriminate.
Defined.

(** X8 for the craft and the Sun. *)
Lemma computeGravity_inverse_square_witness :
  exists g : Accel,
    computeGravity (mkWorld craft [sun]) = Some (g, mkWorld craft [sun]) /\
    accelVector g
    = vscale (GM_AU3_day2 (data sun)
              / (distanceTo (positionAU craft) sun * distanceTo (positionAU craft) sun))
        (vscale (1 / distanceTo (positionAU craft) sun)
           (displacement (positionAU craft) (Bodies.positionAU sun))) /\
    norm (accelVector g)
    = Rabs (GM_AU3_day2 (data sun))
      / (distanceTo (positionAU craft) sun * distanceTo (positionAU craft) sun).
Proof. apply (computeGravity_inverse_square craft sun). exact sun_is_far. Defined.

(** X9 for the craft, the Sun and the companion. *)
Lemma getGravityMagnitude_at_most_table_witness :
  exists (m : R) (entries : list GravityEntry),
    getGravityMagnitude (mkWorld craft [sun; companion])
    = Some (m, mkWorld craft [sun; companion]) /\
    getPerBodyGravity (mkWorld craft [sun; companion])
    = Some (entries, mkWorld craft [sun; companion]) /\
    0 <= m <= (1 + 1e-9) * foldr Rplus 0 (gravityMs2 <$> entries).
Proof.
  apply (getGravityMagnitude_at_most_table (mkWorld craft [sun; companion])).
  repeat constructor; simpl; lra.
Defined.

(** X10 for the craft and the Sun. *)
Lemma getGravityMagnitude_one_body_witness :
  exists (entry : GravityEntry) (m : R),
    getPerBodyGravity (mkWorld craft [sun]) = Some ([entry], mkWorld craft [sun]) /\
    getGravityMagnitude (mkWorld craft [sun]) = Some (m, mkWorld craft [sun]) /\
    m = GM_AU3_day2 (data sun)
        / (distanceTo (positionAU craft) sun * distanceTo (positionAU craft) sun)
        * (AU_KM * 1000) / (86400 * 86400) /\
    Rabs (m - gravityMs2 entry) <= 1e-12 * gravityMs2 entry.
Proof.
  apply (getGravityMagnitude_one_body craft sun); [simpl; lra | exact sun_is_far].
Defined.

(** X13 for the craft as [createSpacecraft] makes it, no key touched yet. *)
Lemma updateSpacecraft_coasting_witness :
  exists (a_grav : Accel) (w' : World),
    computeGravity (mkWorld (createSpacecraft (three := Three_fixed) tt) [sun])
    = Some (a_grav, mkWorld (createSpacecraft (three := Three_fixed) tt) [sun]) /\
    updateSpacecraft 1 0.016 (mkWorld (createSpacecraft (three := Three_fixed) tt) [sun])
    = Some (tt, w') /\
    quaternion (mesh (spacecraft w')) = tt /\
    engineOpacity (spacecraft w') = 0 /\
    velocityAU (spacecraft w')
    = vadd (mkVec3 0 0.01720 0) (vscale 1 (accelVector a_grav)).
Proof.
  apply (updateSpacecraft_coasting
           (mkWorld (createSpacecraft (three := Three_fixed) tt) [sun]) 1 0.016).
  intros code. reflexivity.
Defined.

(** X14 for the craft with W down: S is pressed as well. *)
Lemma updateSpacecraft_forward_wins_witness :
  exists w1 w2 : World,
    updateSpacecraft 1 0.016 (mkWorld craftAtRest [sun]) = Some (tt, w1) /\
    updateSpacecraft 1 0.016
      (mkWorld (mkSpacecraft (mesh craftAtRest) (engineOpacity craftAtRest)
                  (positionAU craftAtRest) (velocityAU craftAtRest) (mass craftAtRest)
                  (thrustAccel craftAtRest) (rotationSpeed craftAtRest)
                  (thrusting craftAtRest) (<["KeyS" := true]> (keys craftAtRest)))
         [sun])
    = Some (tt, w2) /\
    velocityAU (spacecraft w2) = velocityAU (spacecraft w1) /\
    positionAU (spacecraft w2) = positionAU (spacecraft w1) /\
    thrusting (spacecraft w2) = Some true /\
    engineOpacity (spacecraft w2) = 0.8.
Proof.
  apply (updateSpacecraft_forward_wins (mkWorld craftAtRest [sun]) 1 0.016 true).
  reflexivity.
Defined.

End SpacecraftQueriesExamples.

Section OrbitsMoreExamples.
Import Orbits Examples.

Lemma centuriesAt_J2000 : centuriesAt J2000 = 0.
Proof. unfold centuriesAt, centuriesSinceJ2000, julianDate, getTime, J2000. lra. Qed.

Lemma mercury_at_J2000 :
  aAt mercury J2000 = 0.38709927 /\ eAt mercury J2000 = 0.20563593.
Proof. unfold aAt, eAt. rewrite centuriesAt_J2000. simpl. lra. Qed.


(** X19 for a mean anomaly of a hundred radians. *)
Lemma solveKepler_residual_any_M_witness :
  exists E : R,
    solveKepler 100 0.20563593 None = Some E /\
    Rabs (normalized 100 - (E - 0.20563593 * sin E)) < 1e-6.
Proof. apply (solveKepler_residual_any_M 100 0.20563593). lra. Defined.

(** X20 for Mercury at the epoch. *)
Lemma computePosition_distance_witness :
  exists (E : R) (p : Vec3),
    solveKepler (MAt mercury J2000) (eAt mercury J2000) None = Some E /\
    computePosition mercury J2000 = Some p /\
    norm p = aAt mercury J2000 * (1 - eAt mercury J2000 * cos E) /\
    aAt mercury J2000 * (1 - eAt mercury J2000) <= norm p
      <= aAt mercury J2000 * (1 + eAt mercury J2000).
Proof.
  destruct mercury_at_J2000 as [Ha He].
  apply (computePosition_distance mercury J2000); rewrite ?Ha, ?He; lra.
Defined.

(** X21 for Mercury at the epoch. *)
Lemma computePosition_latitude_witness :
  exists p : Vec3,
    computePosition mercury J2000 = Some p /\
    Rabs (z p) <= Rabs (sin (IAt mercury J2000)) * norm p /\
    (IAt mercury J2000 = 0 -> z p = 0).
Proof.
  destruct mercury_at_J2000 as [_ He].
  apply (computePosition_latitude mercury J2000). rewrite He. lra.
Defined.

(** X24 for the orbit of Mercury, drawn at the epoch with the default
    number of segments. *)
Lemma computeOrbitPath_ellipse_witness :
  exists (points : list Vec3) (p : Vec3),
    computeOrbitPath mercury J2000 None = Some points /\
    Forall (fun q => aAt mercury J2000 * (1 - eAt mercury J2000) <= norm q
                     <= aAt mercury J2000 * (1 + eAt mercury J2000)) points /\
    head points = Some p /\
    norm p = aAt mercury J2000 * (1 - eAt mercury J2000).
Proof.
  destruct mercury_at_J2000 as [Ha He].
  apply (computeOrbitPath_ellipse mercury J2000 None);
    [discriminate | rewrite Ha; lra | rewrite He; lra].
Defined.

End OrbitsMoreExamples.

Section UpdateBodiesExamples.
Import Orbits BodiesUpdate Examples.
Import Bodies (Body, mkBody, data, auToScene, displayRadius).

Lemma mercuryBody_in_range (date : Date) :
  -100 <= centuriesAt date <= 100 ->
  exists els : OrbitalElements,
    elements mercuryBody = Some els /\ -1 < eAt els date < 1.
Proof.
  intros HT. exists mercury. split; [reflexivity |]. unfold eAt. simpl. lra.
Qed.

Lemma updateBodies_at_epoch :
  exists bodies' : list BodyObject,
    updateBodies [sunBody; mercuryBody] J2000 = Some bodies'.
Proof.
  destruct (mapM_placed_defined J2000 [mercuryBody]) as (planets' & Hrun & _).
  - repeat constructor. apply mercuryBody_in_range. rewrite centuriesAt_J2000. lra.
  - eexists. rewrite updateBodies_run, Hrun. reflexivity.
Qed.

(** X25 for the Sun and Mercury at the epoch. *)
Lemma updateBodies_places_witness :
  exists planets' : list BodyObject,
    updateBodies [sunBody; mercuryBody] J2000 = Some (sunBody :: planets') /\
    Forall2 (fun body body' =>
               exists (els : OrbitalElements) (pos : Vec3),
                 elements body = Some els /\
                 computePosition els J2000 = Some pos /\
                 body' = mkBodyObject (mkBody (data (core body)) pos) (radiusKm body)
                           (Some els) (auToScene pos)
                           ((fun _ => add_y (displayRadius (radiusKm body) + 1.5)
                                        (auToScene pos))
                              <$> labelPosition body))
      [mercuryBody] planets'.
Proof.
  apply (updateBodies_places J2000 sunBody [mercuryBody]).
  repeat constructor. exists mercury. split; [reflexivity |].
  destruct mercury_at_J2000 as [_ He]. rewrite He. lra.
Defined.

(** X26 for the Sun and Mercury at the epoch. *)
Lemma updateBodies_idempotent_witness :
  exists bodies' : list BodyObject,
    updateBodies [sunBody; mercuryBody] J2000 = Some bodies' /\
    updateBodies bodies' J2000 = Some bodies' /\
    length bodies' = length [sunBody; mercuryBody].
Proof.
  destruct updateBodies_at_epoch as [bodies' Hrun].
  exists bodies'. split; [exact Hrun |].
  apply (updateBodies_idempotent [sunBody; mercuryBody] bodies' J2000). exact Hrun.
Defined.

(** X27 for a second Sun behind Mercury. *)
Lemma updateBodies_needs_elements_witness :
  updateBodies (sunBody :: [mercuryBody] ++ sunBody :: []) J2000 = None.
Proof.
  apply (updateBodies_needs_elements J2000 sunBody sunBody [mercuryBody] []).
  reflexivity.
Defined.

(** X28 at the epoch. *)
Lemma createBodies_updateBodies_witness :
  exists (sun : BodyObject) (planets' : list BodyObject),
    updateBodies createBodies J2000 = Some (sun :: planets') /\
    head createBodies = Some sun /\
    Bodies.positionAU (core sun) = mkVec3 0 0 0 /\
    length planets' = 9%nat /\
    Forall (fun body =>
              0.25 <= norm (Bodies.positionAU (core body)) <= 50 /\
              meshPosition body = auToScene (Bodies.positionAU (core body)) /\
              0 < Bodies.GM_AU3_day2 (data (core body))
                < Planets.GM_SUN_AU3_DAY2 / 1000)
      planets'.
Proof.
  apply (createBodies_updateBodies J2000). rewrite centuriesAt_J2000. lra.
Defined.

End UpdateBodiesExamples.

Section MainExamples.
Import Orbits BodiesUpdate Main Examples.

Lemma loopAtEpoch_bodies (date : Date) :
  (simDate loopAtEpoch <= date)%Z ->
  getTime date < getTime (simDate loopAtEpoch) + (1e9 + 1) ->
  is_Some (updateBodies (bodies loopAtEpoch) date).
Proof.
  intros Hlo Hhi. cbn [loopAtEpoch simDate bodies] in *.
  apply IZR_le in Hlo. unfold getTime, J2000 in *.
  destruct (mapM_placed_defined date [mercuryBody]) as (planets' & Hrun & _).
  - repeat constructor. apply mercuryBody_in_range.
    unfold centuriesAt, centuriesSinceJ2000, julianDate, getTime. lra.
  - eexists. rewrite updateBodies_run, Hrun. reflexivity.
Qed.

Lemma loopAtEpoch_runs :
  exists (hud : bool) (s' : Loop), animate 16 loopAtEpoch = Some (hud, s').
Proof.
  apply animate_defined_when.
  - simpl. lia.
  - simpl. lra.
  - unfold loopAtEpoch, getTime, J2000. cbn [simDate]. lra.
  - exact loopAtEpoch_bodies.
Qed.

(** X29 for the first frame, 16 ms after the start. *)
Lemma animate_frame_witness :
  exists (hud : bool) (s' : Loop),
    animate 16 loopAtEpoch = Some (hud, s') /\
    exists timeWarp : R,
      TIME_WARP_VALUES !! timeWarpIndex loopAtEpoch = Some timeWarp /\
      Rmin ((16 - lastTime loopAtEpoch) / 1000) 0.1 <= 0.1 /\
      Rabs (getTime (simDate s')
            - (getTime (simDate loopAtEpoch)
               + Rmin ((16 - lastTime loopAtEpoch) / 1000) 0.1 / 86400 * timeWarp
                 * 86400000)) < 1 /\
      (lastTime loopAtEpoch <= 16 ->
         (simDate loopAtEpoch <= simDate s')%Z /\
         getTime (simDate s') - getTime (simDate loopAtEpoch) < 1e9 + 1) /\
      updateBodies (bodies loopAtEpoch) (simDate s') = Some (bodies s') /\
      head (bodies s') = head (bodies loopAtEpoch) /\
      (hud = true <-> 0.1 < hudTimer loopAtEpoch
                            + Rmin ((16 - lastTime loopAtEpoch) / 1000) 0.1) /\
      hudTimer s' <= 0.1 /\
      lastTime s' = 16.
Proof.
  destruct loopAtEpoch_runs as (hud & s' & Hrun).
  exists hud, s'. split; [exact Hrun |].
  apply (animate_frame 16 loopAtEpoch s' hud). exact Hrun.
Defined.

(** X30 for the first frame. *)
Lemma animate_defined_witness :
  exists (hud : bool) (s' : Loop),
    animate 16 loopAtEpoch = Some (hud, s') /\
    Spacecraft.keys (spacecraft s') = Spacecraft.keys (spacecraft loopAtEpoch) /\
    Spacecraft.sceneSynced (spacecraft s').
Proof.
  apply (animate_defined 16 loopAtEpoch).
  - simpl. lia.
  - simpl. lra.
  - unfold loopAtEpoch, getTime, J2000. cbn [simDate]. lra.
  - exact loopAtEpoch_bodies.
Defined.

End MainExamples.


(** ** orbits.js with [Math.PI] as the program has it: the period of the
    solver and the closure of the path *)

(** π to seventeen digits, from Machin's formula with 1/3 and 1/7. *)
Lemma PI_lower : 3.14159265358979323 < PI.
Proof.
  pose proof (PI_2_3_7_ineq 8) as [Hlo _].
  unfold sum_f_R0, tg_alt, PI_2_3_7_tg, Ratan_seq in Hlo. simpl in Hlo. lra.
Qed.

Lemma PI_upper : PI < 3.14159265358979324.
Proof.
  pose proof (PI_2_3_7_ineq 9) as [_ Hhi].
  unfold sum_f_R0, tg_alt, PI_2_3_7_tg, Ratan_seq in Hhi. simpl in Hhi. lra.
Qed.

(** [Math.PI] is below π, by less than [1.3e-16]. *)
Lemma Math_PI_below : MathPI.Math_PI < PI < MathPI.Math_PI + 1.3e-16.
Proof. pose proof PI_lower. pose proof PI_upper. unfold MathPI.Math_PI. lra. Qed.


(** *** The normalisation for a period [p] *)





Section MathPIProperties.
Import Orbits.




End MathPIProperties.

Section MathPIPath.
Import Orbits.


(** *** computeOrbitPath *)

Lemma MathPI_computeOrbitPath_run (elements : OrbitalElements) (now : Date)
    (segments : option nat) :
  default 128%nat segments <> 0%nat ->
  MathPI.computeOrbitPath elements now segments
  = Some ((fun i : nat =>
             orbitPoint (aAt elements now) (eAt elements now) (MathPI.IAt elements now)
               (MathPI.OmegaAt elements now) (MathPI.omegaAt elements now)
               (2 * MathPI.Math_PI * INR i / INR (default 128%nat segments)))
            <$> seq 0 (S (default 128%nat segments))).
Proof.
  intros Hn. apply not_0_INR in Hn.
  change (MathPI.computeOrbitPath elements now segments)
    with (forOf (seq 0 (S (default 128%nat segments)))
            (MathPI.computeOrbitPath_step (aAt elements now) (eAt elements now)
               (cos (MathPI.OmegaAt elements now)) (sin (MathPI.OmegaAt elements now))
               (cos (MathPI.IAt elements now)) (sin (MathPI.IAt elements now))
               (cos (MathPI.omegaAt elements now)) (sin (MathPI.omegaAt elements now))
               (default 128%nat segments)) []).
  erewrite forOf_push; [reflexivity |].
  intros i pts. unfold MathPI.computeOrbitPath_step.
  rewrite divide_Some by exact Hn. reflexivity.
Qed.

(** The chord between two points of an orbit. *)
Lemma orbitPoint_chord (a e I Omega omega E1 E2 : R) :
  -1 <= e <= 1 ->
  norm (displacement (orbitPoint a e I Omega omega E1) (orbitPoint a e I Omega omega E2))
  = sqrt (a * a * ((cos E2 - cos E1) * (cos E2 - cos E1)
                   + (1 - e * e) * ((sin E2 - sin E1) * (sin E2 - sin E1)))).
Proof.
  intros He.
  assert (Hroot : sqrt (1 - e * e) * sqrt (1 - e * e) = 1 - e * e)
    by (apply sqrt_sqrt; nra).
  unfold norm, displacement, orbitPoint. cbn [x y z]. f_equal.
  set (s := sqrt (1 - e * e)) in *.
  transitivity (a * (cos E2 - cos E1) * (a * (cos E2 - cos E1))
                + a * s * (sin E2 - sin E1) * (a * s * (sin E2 - sin E1))).
  - rewrite <- (rotation_keeps_length (cos Omega) (sin Omega) (cos I) (sin I)
                   (cos omega) (sin omega) (a * (cos E2 - cos E1))
                   (a * s * (sin E2 - sin E1)))
      by apply sin_sqr_cos_sqr.
    cbv zeta. ring.
  - rewrite <- Hroot. ring.
Qed.

(** The last eccentric anomaly of the sweep, [2 Math.PI], falls short of the
    full turn: its sine is negative, and sine and cosine are within
    [2.6e-16] of those of the full turn. *)
Lemma full_turn_short :
  sin (2 * MathPI.Math_PI) < 0 /\
  Rabs (sin (2 * MathPI.Math_PI) - sin 0) <= 2.6e-16 /\
  Rabs (cos (2 * MathPI.Math_PI) - cos 0) <= 2.6e-16.
Proof.
  pose proof Math_PI_below as Hbelow. pose proof PI_gt_314 as Hpi.
  set (d := 2 * PI - 2 * MathPI.Math_PI).
  assert (Hd : 0 < d <= 2.6e-16) by (unfold d; lra).
  assert (Hturn : 2 * MathPI.Math_PI = 2 * PI - d) by (unfold d; ring).
  split; [| split].
  - rewrite Hturn, sin_minus, sin_2PI, cos_2PI.
    pose proof (sin_gt_0 d ltac:(lra) ltac:(lra)). lra.
  - rewrite sin_0, <- sin_2PI.
    eapply Rle_trans; [apply sin_Lipschitz |]. rewrite Hturn.
    replace (2 * PI - d - 2 * PI) with (- d) by ring. rewrite Rabs_Ropp, Rabs_right; lra.
  - rewrite cos_0, <- cos_2PI.
    eapply Rle_trans; [apply cos_Lipschitz |]. rewrite Hturn.
    replace (2 * PI - d - 2 * PI) with (- d) by ring. rewrite Rabs_Ropp, Rabs_right; lra.
Qed.

Lemma chord_first_last (a e I Omega omega : R) :
  -1 <= e <= 1 ->
  norm (displacement (orbitPoint a e I Omega omega 0)
          (orbitPoint a e I Omega omega (2 * MathPI.Math_PI)))
  <= 1e-14 * Rabs a.
Proof.
  intros He. rewrite orbitPoint_chord by exact He.
  destruct full_turn_short as (_ & Hsin & Hcos).
  apply Rabs_le_inv in Hsin, Hcos.
  set (ds := sin (2 * MathPI.Math_PI) - sin 0) in *.
  set (dc := cos (2 * MathPI.Math_PI) - cos 0) in *.
  pose proof (Rabs_pos a) as Ha0.
  assert (Hsq : Rabs a * Rabs a = a * a) by (rewrite <- Rabs_mult; apply Rabs_right; nra).
  rewrite <- (sqrt_square (1e-14 * Rabs a)) by lra.
  apply sqrt_le_1_alt.
  replace (1e-14 * Rabs a * (1e-14 * Rabs a)) with (a * a * 1e-28) by (rewrite <- Hsq; lra).
  apply Rmult_le_compat_l; [nra |].
  assert (Hdc : dc * dc <= 2.6e-16 * 2.6e-16) by nra.
  assert (Hds : ds * ds <= 2.6e-16 * 2.6e-16) by nra.
  assert (Hds0 : 0 <= ds * ds) by nra.
  assert (Hee : 0 <= 1 - e * e <= 1) by nra.
  assert (Hprod : (1 - e * e) * (ds * ds) <= 1 * (2.6e-16 * 2.6e-16))
    by (apply Rmult_le_compat; lra).
  lra.
Qed.

(** C7 as amended (the path and its ends).  For a number [N] of segments
    that is not zero (128 when none is given) and an eccentricity in
    [[-1, 1]] at the time of the call, [computeOrbitPath] returns [N + 1]
    points, the point of number [i] being the point of the orbit at the
    eccentric anomaly [2 Math.PI i / N]: the sweep starts at [0], proceeds
    in equal steps and ends at [2 Math.PI].  That is short of the full turn,
    so the last point is not bound to be the first; it lies within
    [1e-14 |a|] of it. *)
Theorem computeOrbitPath_nearly_closed (elements : OrbitalElements) (now : Date)
    (segments : option nat) :
  let N := default 128%nat segments in
  N <> 0%nat ->
  -1 <= eAt elements now <= 1 ->
  exists (points : list Vec3) (p q : Vec3),
    MathPI.computeOrbitPath elements now segments = Some points /\
    length points = S N /\
    (forall i : nat,
       (i <= N)%nat ->
       points !! i
       = Some (orbitPoint (aAt elements now) (eAt elements now) (MathPI.IAt elements now)
                 (MathPI.OmegaAt elements now) (MathPI.omegaAt elements now)
                 (2 * MathPI.Math_PI * INR i / INR N))) /\
    head points = Some p /\
    last points = Some q /\
    norm (displacement p q) <= 1e-14 * Rabs (aAt elements now).
Proof.
  intros N HN He. rewrite (MathPI_computeOrbitPath_run _ _ _ HN). fold N.
  apply not_0_INR in HN.
  set (pointAt := fun i : nat => orbitPoint _ _ _ _ _ _).
  exists (pointAt <$> seq 0 (S N)), (pointAt 0%nat), (pointAt N).
  split; [reflexivity |].
  split; [rewrite length_fmap, length_seq; reflexivity |].
  split; [| split; [reflexivity | split]].
  - intros i Hi. rewrite list_lookup_fmap, lookup_seq_lt by lia. reflexivity.
  - rewrite seq_S, fmap_app. cbn [fmap list_fmap]. rewrite last_snoc. reflexivity.
  - unfold pointAt.
    replace (2 * MathPI.Math_PI * INR 0 / INR N) with 0 by (simpl; unfold Rdiv; ring).
    replace (2 * MathPI.Math_PI * INR N / INR N) with (2 * MathPI.Math_PI)
      by (field; exact HN).
    apply chord_first_last. exact He.
Qed.

Lemma chord_positive (a e c s : R) :
  a <> 0 -> -1 < e < 1 -> s < 0 ->
  0 < a * a * ((c - 1) * (c - 1) + (1 - e * e) * ((s - 0) * (s - 0))).
Proof.
  intros Ha He Hs.
  assert (Haa : 0 < a * a) by (apply (Rsqr_pos_lt a); exact Ha).
  assert (Hc : 0 <= (c - 1) * (c - 1)) by apply (Rle_0_sqr (c - 1)).
  assert (Hss : 0 < (s - 0) * (s - 0)) by (apply (Rsqr_pos_lt (s - 0)); lra).
  assert (Hee : 0 < 1 - e * e).
  { replace (1 - e * e) with ((1 - e) * (1 + e)) by ring. apply Rmult_lt_0_compat; lra. }
  assert (0 < (1 - e * e) * ((s - 0) * (s - 0))) by (apply Rmult_lt_0_compat; assumption).
  apply Rmult_lt_0_compat; lra.
Qed.

Lemma chord_not_zero (a e I Omega omega : R) :
  a <> 0 -> -1 < e < 1 ->
  orbitPoint a e I Omega omega 0 <> orbitPoint a e I Omega omega (2 * MathPI.Math_PI).
Proof.
  intros Ha He Heq.
  pose proof (orbitPoint_chord a e I Omega omega 0 (2 * MathPI.Math_PI) ltac:(lra)) as Hchord.
  rewrite <- Heq in Hchord.
  assert (Hzero : norm (displacement (orbitPoint a e I Omega omega 0)
                          (orbitPoint a e I Omega omega 0)) = 0).
  { unfold norm, displacement. cbn [x y z].
    transitivity (sqrt 0); [f_equal; ring | apply sqrt_0]. }
  rewrite Hzero in Hchord. symmetry in Hchord.
  destruct full_turn_short as (Hsin & _ & _). rewrite sin_0, cos_0 in Hchord.
  pose proof (chord_positive a e (cos (2 * MathPI.Math_PI)) (sin (2 * MathPI.Math_PI))
                Ha He Hsin) as Hpos.
  apply sqrt_lt_R0 in Hpos. lra.
Qed.

End MathPIPath.

Section MathPIExamples.
Import Orbits Examples.



Lemma mercury_in_2026 :
  0.38 < aAt mercury 1793577600000%Z /\ 0.2 < eAt mercury 1793577600000%Z < 0.21.
Proof.
  unfold aAt, eAt, centuriesAt, centuriesSinceJ2000, julianDate, getTime. simpl. lra.
Qed.

(** C7 as amended at a concrete input: the orbit of Mercury with the default
    number of segments, drawn on 2 November 2026. *)
Lemma computeOrbitPath_nearly_closed_witness :
  exists (points : list Vec3) (p q : Vec3),
    MathPI.computeOrbitPath mercury 1793577600000%Z None = Some points /\
    length points = 129%nat /\
    (forall i : nat,
       (i <= 128)%nat ->
       points !! i
       = Some (orbitPoint (aAt mercury 1793577600000%Z) (eAt mercury 1793577600000%Z)
                 (MathPI.IAt mercury 1793577600000%Z)
                 (MathPI.OmegaAt mercury 1793577600000%Z)
                 (MathPI.omegaAt mercury 1793577600000%Z)
                 (2 * MathPI.Math_PI * INR i / INR 128))) /\
    head points = Some p /\
    last points = Some q /\
    norm (displacement p q) <= 1e-14 * Rabs (aAt mercury 1793577600000%Z).
Proof.
  destruct mercury_in_2026 as [_ He].
  apply (computeOrbitPath_nearly_closed mercury 1793577600000%Z None);
    [discriminate | lra].
Defined.

(** C7 as stated fails: for the orbit of Mercury, drawn on 2 November 2026
    with the default number of segments, the last point of the path is not
    the first. *)
Lemma computeOrbitPath_not_closed :
  exists (points : list Vec3) (p q : Vec3),
    MathPI.computeOrbitPath mercury 1793577600000%Z None = Some points /\
    head points = Some p /\
    last points = Some q /\
    p <> q.
Proof.
  destruct mercury_in_2026 as [Ha He].
  rewrite MathPI_computeOrbitPath_run by discriminate. simpl default.
  set (pointAt := fun i : nat => orbitPoint _ _ _ _ _ _).
  exists (pointAt <$> seq 0 129), (pointAt 0%nat), (pointAt 128%nat).
  split; [reflexivity |]. split; [reflexivity |]. split.
  - change 129%nat with (S 128). rewrite seq_S, fmap_app. cbn [fmap list_fmap].
    rewrite last_snoc. reflexivity.
  - unfold pointAt.
    replace (2 * MathPI.Math_PI * INR 0 / INR 128) with 0 by (simpl; unfold Rdiv; ring).
    replace (2 * MathPI.Math_PI * INR 128 / INR 128) with (2 * MathPI.Math_PI)
      by (field; apply not_0_INR; discriminate).
    apply chord_not_zero; lra.
Qed.

End MathPIExamples.
